(** * A log-structured key-value store: WAL, memtable, SST segments, compaction

    Shallow embedding of the Go sources
      - wal.go   (Operation, WriteAheadLog, AppendEntry, CleanupAfterSSTCreation)
      - sst.go   (KeyValue, createSSTFile, flushToSST, calculateChecksum,
                  mergeSSTFiles, compactSSTFiles)
      - memdb.go (memDB, loadSSTFile, Set, Del, Get, GetAll)
      - main.go  (maxEntriesBeforeSST, maxSSTFiles, getSSTFileNames)
    and the properties of the storage engine checked against them.

    Data.  Go's [[]byte] is [list byte] and Go's [string] is [string]; the
    conversions [string(b)] and [[]byte(s)] are [string_of_list_byte] and
    [list_byte_of_string].  Fixed-width integers are [Z] with the
    wrap-around written out.  A method [(mem *memDB) Set] is [memDB_Set],
    and likewise for the other methods.

    Effects.  The operating system is a record [world]: the regular files
    of the working directory, the listing of ./GO_PROJECT, the clock, and a
    budget of writes that lets the device run out of space.  A function
    that returns an [error] returns a [result]; what it did to the memtable
    and to the world before failing stays done.  Code that writes through
    one open file runs in the monad [IO] over that file and the world.

    Not modelled: the mutex and the goroutines (the operations run one at
    a time), failures of [os.Create] and of reads, writes that store only
    part of their bytes, and the limits of memory. *)

From Stdlib Require Import ZArith List Lia Bool.
From Stdlib Require Import Strings.String Strings.Ascii Strings.Byte.
From Stdlib Require Import DecimalString DecimalZ.
From Stdlib Require Import Sorting.Permutation Sorting.Sorted.
From stdpp Require Import gmap strings list.
Import ListNotations.

Local Open Scope Z_scope.

(* ===================================================================== *)
(** ** Bytes and little-endian integers *)
(* ===================================================================== *)

Definition bytes (s : string) : list byte := list_byte_of_string s.

Definition byte_to_Z (b : byte) : Z := Z.of_N (Byte.to_N b).

Definition byte_of_Z (z : Z) : byte :=
  match Byte.of_N (Z.to_N (z mod 256)) with
  | Some b => b
  | None => x00
  end.

(** [len(b)] as a Go [int]. *)
Definition len {A} (l : list A) : Z := Z.of_nat (length l).

(** [uint16(x)] and [uint32(x)] conversions. *)
Definition uint16 (x : Z) : Z := x mod 65536.
Definition uint32 (x : Z) : Z := x mod 4294967296.

(** [binary.LittleEndian.PutUint16] / [PutUint32]: what [binary.Write]
    emits for a [uint16] / [uint32]. *)
Definition putUint16 (x : Z) : list byte :=
  [byte_of_Z x; byte_of_Z (Z.shiftr x 8)].

Definition putUint32 (x : Z) : list byte :=
  [byte_of_Z x; byte_of_Z (Z.shiftr x 8);
   byte_of_Z (Z.shiftr x 16); byte_of_Z (Z.shiftr x 24)].

(** [binary.LittleEndian.Uint32] on a slice of at least four bytes. *)
Definition Uint32 (b : list byte) : Z :=
  match b with
  | b0 :: b1 :: b2 :: b3 :: _ =>
      Z.lor (byte_to_Z b0)
        (Z.lor (Z.shiftl (byte_to_Z b1) 8)
           (Z.lor (Z.shiftl (byte_to_Z b2) 16) (Z.shiftl (byte_to_Z b3) 24)))
  | _ => 0
  end.

(** Slicing by a [Z] count, recursive on the list so that a length field
    of several hundred megabytes costs nothing to evaluate. *)
Fixpoint takeZ {A} (n : Z) (l : list A) : list A :=
  match l with
  | [] => []
  | x :: l' => if n <=? 0 then [] else x :: takeZ (n - 1) l'
  end.

Fixpoint dropZ {A} (n : Z) (l : list A) : list A :=
  match l with
  | [] => []
  | x :: l' => if n <=? 0 then l else dropZ (n - 1) l'
  end.

(** [make([]byte, n)] followed by a read that delivered [got]: the bytes
    read, then the zeroes the slice was created with. *)
Definition filled (n : Z) (got : list byte) : list byte :=
  got ++ repeat x00 (Z.to_nat (n - len got)).

(* ===================================================================== *)
(** ** hash/crc32, IEEE polynomial *)
(* ===================================================================== *)

Definition crc32_poly : Z := 0xEDB88320.

Definition crc32_shift (c : Z) : Z :=
  if Z.testbit c 0 then Z.lxor (Z.shiftr c 1) crc32_poly else Z.shiftr c 1.

Definition crc32_byte (c : Z) (b : byte) : Z :=
  Nat.iter 8 crc32_shift (Z.lxor c (byte_to_Z b)).

(** [crc32.NewIEEE()], then [Write] of the bytes, then [Sum32()]. *)
Definition crc32_IEEE (bs : list byte) : Z :=
  Z.lxor (fold_left crc32_byte bs 0xFFFFFFFF) 0xFFFFFFFF.

(* ===================================================================== *)
(** ** Errors and results *)
(* ===================================================================== *)

(** The [error] values the program creates or receives. *)
Inductive error : Type :=
  | ErrKeyDoesNotExist                 (* errors.New("key doesn't exist") *)
  | ErrKeyNotFound                     (* errors.New("key not found") *)
  | ErrInvalidOperation                (* errors.New("invalid operation") *)
  | ErrIntegrity                       (* "SST file integrity check failed: checksums do not match" *)
  | ErrNotExist (name : string)        (* open/remove of a missing file *)
  | ErrClosed                          (* os.ErrClosed: use of a closed file *)
  | ErrNoSpace                         (* ENOSPC on write *)
  | ErrInvalidSeek                     (* EINVAL: seek before the start *)
  | ErrTooLong                         (* bufio.ErrTooLong *)
  | ErrJSON                            (* any error of json.Unmarshal *)
  | ErrReadDir                         (* os.ReadDir failed *)
  | Errorf (msg : string) (e : error). (* fmt.Errorf(msg + ": %w", e) *)

(** How a Go function ends: it returns a value with a nil error, returns a
    non-nil error, or panics. *)
Inductive result (A : Type) : Type :=
  | Ok (a : A)
  | Err (e : error)
  | Panic (msg : string).
Arguments Ok {A} a.
Arguments Err {A} e.
Arguments Panic {A} msg.

(** [fmt.Errorf("...: %w", err)] around a failing call. *)
Definition wrap {A} (msg : string) (r : result A) : result A :=
  match r with
  | Err e => Err (Errorf msg e)
  | _ => r
  end.

(* ===================================================================== *)
(** ** The operating system *)
(* ===================================================================== *)

Record world : Type := World {
  files : gmap string (list byte);   (* regular files of the working directory *)
  go_project : option (list string); (* names os.ReadDir("./GO_PROJECT") returns; None: it fails *)
  now : Z;                           (* time.Now().Unix() *)
  quota : option nat                 (* non-empty writes the device still accepts; None: no limit *)
}.

Definition set_files (fs : gmap string (list byte)) (w : world) : world :=
  World fs (go_project w) (now w) (quota w).

Definition set_quota (q : option nat) (w : world) : world :=
  World (files w) (go_project w) (now w) q.

(** An [*os.File]. *)
Record File : Type := mkFile {
  file_name : string;
  file_pos : Z;          (* the offset of the open file description *)
  file_append : bool;    (* opened with O_APPEND *)
  file_closed : bool
}.

(** Bytes [data] stored at offset [pos] of [content]; a write past the end
    leaves a hole of zero bytes. *)
Definition write_at (pos : Z) (data content : list byte) : list byte :=
  filled pos (takeZ pos content) ++ data ++ dropZ (pos + len data) content.

(** Computations over an open file and the world. *)
Definition IO (A : Type) : Type := File * world -> result A * (File * world).

Definition io_ret {A} (a : A) : IO A := fun s => (Ok a, s).

Definition io_bind {A B} (c : IO A) (k : A -> IO B) : IO B :=
  fun s =>
    match c s with
    | (Ok a, s') => k a s'
    | (Err e, s') => (Err e, s')
    | (Panic m, s') => (Panic m, s')
    end.

Declare Scope io_scope.
Delimit Scope io_scope with io.
Notation "x <- c ;; k" := (io_bind c (fun x => k))
  (at level 100, c at next level, k at level 200, right associativity) : io_scope.
Notation "c ;; k" := (io_bind c (fun _ => k))
  (at level 100, k at level 200, right associativity) : io_scope.
Local Open Scope io_scope.

(** The error of a call is replaced ([fmt.Errorf] with %w) before it is
    returned. *)
Definition wrapping {A} (msg : string) (c : IO A) : IO A :=
  fun s => let '(r, s') := c s in (wrap msg r, s').

(** A call whose error is dropped. *)
Definition ignoring {A} (c : IO A) : IO unit :=
  fun s => let '(_, s') := c s in (Ok tt, s').

(** What a write of [data] leaves of the budget [q]; None when the device
    refuses it.  An empty write costs nothing. *)
Definition spend (data : list byte) (q : option nat) : option (option nat) :=
  match data, q with
  | _ :: _, Some O => None
  | _ :: _, Some (S n) => Some (Some n)
  | _, _ => Some q
  end.

(** [f.Write(data)].  A closed file refuses; an exhausted device refuses a
    non-empty write; a file that was unlinked while open takes the bytes
    without any name showing them.  With O_APPEND the bytes go to the end
    of the file, otherwise to the offset of the file. *)
Definition file_Write (data : list byte) : IO unit :=
  fun '(f, w) =>
    if file_closed f then (Err ErrClosed, (f, w))
    else
      match spend data (quota w) with
      | None => (Err ErrNoSpace, (f, w))
      | Some q =>
          match files w !! file_name f with
          | None =>
              (Ok tt, (mkFile (file_name f) (file_pos f + len data) (file_append f) false,
                       set_quota q w))
          | Some content =>
              let pos := if file_append f then len content else file_pos f in
              (Ok tt, (mkFile (file_name f) (pos + len data) (file_append f) false,
                       set_quota q
                         (set_files (<[file_name f := write_at pos data content]> (files w)) w)))
          end
      end.

(** [f.Seek(off, io.SeekStart)]. *)
Definition file_SeekStart (off : Z) : IO Z :=
  fun '(f, w) =>
    if file_closed f then (Err ErrClosed, (f, w))
    else if off <? 0 then (Err ErrInvalidSeek, (f, w))
    else (Ok off, (mkFile (file_name f) off (file_append f) false, w)).

(** [f.Seek(0, io.SeekCurrent)]. *)
Definition file_Tell : IO Z :=
  fun '(f, w) =>
    if file_closed f then (Err ErrClosed, (f, w)) else (Ok (file_pos f), (f, w)).

(** [os.Create(name)]: O_RDWR|O_CREATE|O_TRUNC. *)
Definition os_Create (name : string) (w : world) : File * world :=
  (mkFile name 0 false false, set_files (<[name := []]> (files w)) w).

(** [os.Remove(name)]. *)
Definition os_Remove (name : string) (w : world) : result unit * world :=
  match files w !! name with
  | None => (Err (ErrNotExist name), w)
  | Some _ => (Ok tt, set_files (delete name (files w)) w)
  end.

(** Run [body] on a freshly opened [f]; [deferred] runs when it returns,
    whatever the outcome, seeing the file where [body] left it, and its own
    outcome is dropped. *)
Definition with_file {A} (f : File) (body : IO A) (deferred : IO unit)
    (w : world) : result A * world :=
  let '(r, s) := body (f, w) in
  let '(_, (_, w')) := deferred s in
  (r, w').

(* ===================================================================== *)
(** ** wal.go *)
(* ===================================================================== *)

(** [type Operation uint8], with [Set = 0] and [Delete = 1] (iota). *)
Definition Operation : Type := Z.
Definition OpSet : Operation := 0.
Definition OpDelete : Operation := 1.

(** [type KeyValue struct] of sst.go; the third field is [Operation] in
    the source. *)
Record KeyValue : Type := mkKV {
  Key : list byte;
  Value : list byte;
  Op : Operation
}.

Record WriteAheadLog : Type := mkWAL {
  file : File;
  watermark : Z
}.

(** [NewWriteAheadLog]: O_APPEND|O_CREATE|O_WRONLY; an existing log is kept. *)
Definition NewWriteAheadLog (filePath : string) (w : world) : WriteAheadLog * world :=
  (mkWAL (mkFile filePath 0 true false) 0,
   match files w !! filePath with
   | Some _ => w
   | None => set_files (<[filePath := []]> (files w)) w
   end).

(** [(wal *WriteAheadLog) AppendEntry], on [wal.file]. *)
Definition WAL_AppendEntry (operation : Operation) (entry : KeyValue) : IO unit :=
  let opByte := operation mod 256 in
  let keyLen := uint16 (len (Key entry)) in
  let valueLen := uint16 (len (Value entry)) in
  file_Write [byte_of_Z opByte] ;;
  file_Write (putUint16 keyLen) ;;
  file_Write (Key entry) ;;
  file_Write (putUint16 valueLen) ;;
  file_Write (Value entry).

(** [(wal *WriteAheadLog) UpdateWatermark]. *)
Definition WAL_UpdateWatermark (position : Z) (wal : WriteAheadLog) : WriteAheadLog :=
  mkWAL (file wal) position.

(** [(wal *WriteAheadLog) CleanupAfterSSTCreation], for a log made by
    [NewWriteAheadLog] (its [file] is not nil).  The reopened file is
    stored in [wal.file] and then closed by the deferred [file.Close()]. *)
Definition WAL_CleanupAfterSSTCreation (position : Z) (wal : WriteAheadLog) (w : world)
    : result unit * (WriteAheadLog * world) :=
  let f := file wal in
  let closed := mkFile (file_name f) (file_pos f) (file_append f) true in
  if file_closed f then
    (Err (Errorf "error closing WAL file" ErrClosed), (wal, w))
  else
    match files w !! file_name f with
    | None =>
        (Err (Errorf "error reopening WAL file" (ErrNotExist (file_name f))),
         (mkWAL closed (watermark wal), w))
    | Some content =>
        if position <? 0 then
          (Err (Errorf "error truncating WAL file" ErrInvalidSeek),
           (mkWAL closed (watermark wal), w))
        else
          let content' := filled position (takeZ position content) in
          (Ok tt,
           (mkWAL (mkFile (file_name f) (len content') false true) (watermark wal),
            set_files (<[file_name f := content']> (files w)) w))
    end.

(* ===================================================================== *)
(** ** sst.go: checksum *)
(* ===================================================================== *)

(** [calculateChecksum]: CRC-32 of every key followed by its value. *)
Definition calculateChecksum (data : list KeyValue) : Z :=
  crc32_IEEE (concat (map (fun kv => Key kv ++ Value kv) data)).

(* ===================================================================== *)
(** ** memdb.go *)
(* ===================================================================== *)

Record memDB : Type := mkMemDB {
  data : list KeyValue;
  wal : option WriteAheadLog;     (* [*WriteAheadLog], None for nil *)
  flushInterval : Z;
  sstFileLoaded : bool;
  setData : list KeyValue;
  deleteData : list KeyValue
}.

Definition set_data (d : list KeyValue) (mem : memDB) : memDB :=
  mkMemDB d (wal mem) (flushInterval mem) (sstFileLoaded mem) (setData mem) (deleteData mem).

Definition set_wal (l : option WriteAheadLog) (mem : memDB) : memDB :=
  mkMemDB (data mem) l (flushInterval mem) (sstFileLoaded mem) (setData mem) (deleteData mem).

Definition set_sstFileLoaded (b : bool) (mem : memDB) : memDB :=
  mkMemDB (data mem) (wal mem) (flushInterval mem) b (setData mem) (deleteData mem).

(** [NewMemDB]; the goroutine it starts is not part of the value. *)
Definition NewMemDB (l : WriteAheadLog) : memDB :=
  mkMemDB [] (Some l) 0 false [] [].

Definition memDB_SetFlushInterval (interval : Z) (mem : memDB) : memDB :=
  mkMemDB (data mem) (wal mem) interval (sstFileLoaded mem) (setData mem) (deleteData mem).

(** [string(kv.Key) == string(key)]. *)
Definition key_eqb (a b : list byte) : bool :=
  String.eqb (string_of_list_byte a) (string_of_list_byte b).

(** [for _, kv := range data { if string(kv.Key) == string(key) { return kv.Value } }]. *)
Fixpoint search (key : list byte) (l : list KeyValue) : option (list byte) :=
  match l with
  | [] => None
  | kv :: l' => if key_eqb (Key kv) key then Some (Value kv) else search key l'
  end.

(** The index and entry at which [for i, kv := range data] first finds [key]. *)
Fixpoint search_index (key : list byte) (l : list KeyValue) : option (nat * KeyValue) :=
  match l with
  | [] => None
  | kv :: l' =>
      if key_eqb (Key kv) key then Some (O, kv)
      else match search_index key l' with
           | Some (i, kv') => Some (S i, kv')
           | None => None
           end
  end.

(** *** bufio.Reader over the segment file *)

(** A [bufio.Reader] with its 4096-byte buffer: the bytes buffered and not
    yet consumed, and the bytes of the file not yet fetched. *)
Record Reader : Type := mkReader {
  buffered : list byte;
  unread : list byte
}.

Definition defaultBufSize : Z := 4096.

(** [reader.Read(p)] with [len(p) = n]: the bytes delivered, or None for a
    non-nil error (io.EOF).  A non-empty buffer is served first; an empty
    one is refilled by a single read of the file, directly into [p] when
    [p] is as large as the buffer.  An empty [p] reads nothing and reports
    no error. *)
Definition Reader_Read (n : Z) (r : Reader) : option (list byte) * Reader :=
  if n <=? 0 then (Some [], r)
  else
    match buffered r with
    | _ :: _ => (Some (takeZ n (buffered r)), mkReader (dropZ n (buffered r)) (unread r))
    | [] =>
        if defaultBufSize <=? n then
          match unread r with
          | [] => (None, r)
          | _ :: _ => (Some (takeZ n (unread r)), mkReader [] (dropZ n (unread r)))
          end
        else
          match unread r with
          | [] => (None, r)
          | _ :: _ =>
              let chunk := takeZ defaultBufSize (unread r) in
              (Some (takeZ n chunk),
               mkReader (dropZ n chunk) (dropZ defaultBufSize (unread r)))
          end
    end.

(** The [for] loop of [loadSSTFile].  The number of bytes read is never
    looked at, so a short read leaves the zeroes of [make] in place.  Every
    round consumes at least one byte; None only when [fuel] runs out. *)
Fixpoint load_loop (fuel : nat) (r : Reader) (d : list KeyValue) : option (list KeyValue) :=
  match fuel with
  | O => None
  | S fuel' =>
      match Reader_Read 4 r with
      | (None, _) => Some d
      | (Some keyLenBytes, r1) =>
          let keyLen := Uint32 (filled 4 keyLenBytes) in
          match Reader_Read keyLen r1 with
          | (None, _) => Some d
          | (Some keyData, r2) =>
              match Reader_Read 4 r2 with
              | (None, _) => Some d
              | (Some valueLenBytes, r3) =>
                  let valueLen := Uint32 (filled 4 valueLenBytes) in
                  match Reader_Read valueLen r3 with
                  | (None, _) => Some d
                  | (Some valueData, r4) =>
                      load_loop fuel' r4
                        (d ++ [mkKV (filled keyLen keyData) (filled valueLen valueData) OpSet])
                  end
              end
          end
      end
  end.

(** [mem.data] after the loop has run over a file of the given content,
    starting from [d].  The fuel is one more than the bytes there are to
    read ([load_loop_total] below: it never runs out). *)
Definition load_data (content : list byte) (d : list KeyValue) : list KeyValue :=
  match load_loop (S (length content)) (mkReader [] content) d with
  | Some d' => d'
  | None => d
  end.

(** [(mem *memDB) loadSSTFile].  The stored checksum is the last four
    bytes of the file; the loop reads from offset 0; the entries are
    appended to [mem.data] before the checksums are compared, and the
    checksum computed is that of all of [mem.data]. *)
Definition memDB_loadSSTFile (fileName : string) (mem : memDB) (w : world)
    : result unit * memDB :=
  if sstFileLoaded mem then (Ok tt, mem)
  else
    match files w !! fileName with
    | None => (Err (ErrNotExist fileName), mem)
    | Some content =>
        if len content <? 4 then
          (Err (Errorf "error seeking checksum in SST file" ErrInvalidSeek), mem)
        else
          let storedChecksum := Uint32 (dropZ (len content - 4) content) in
          let mem' := set_data (load_data content (data mem)) mem in
          let loadedChecksum := calculateChecksum (data mem') in
          if negb (loadedChecksum =? storedChecksum) then (Err ErrIntegrity, mem')
          else (Ok tt, set_sstFileLoaded true mem')
    end.

(** [fmt.Sprintf("%d", n)]. *)
Definition decimal (n : Z) : string := NilEmpty.string_of_int (Z.to_int n).

(** [fmt.Sprintf("file_%d.sst", time.Now().Unix())]. *)
Definition sstFileName (t : Z) : string := "file_" +:+ decimal t +:+ ".sst".

(** [(mem *memDB) Set].  The error of [AppendEntry] is not looked at. *)
Definition memDB_Set (key value : list byte) (mem : memDB) (w : world)
    : result unit * (memDB * world) :=
  let entry := mkKV key value OpSet in
  match wal mem with
  | None => (Panic "nil pointer dereference", (mem, w))
  | Some l =>
      let '(_, (f', w')) := WAL_AppendEntry OpSet entry (file l, w) in
      (Ok tt, (set_data (data mem ++ [entry]) (set_wal (Some (mkWAL f' (watermark l))) mem), w'))
  end.

(** [(mem *memDB) Del]. *)
Definition memDB_Del (key : list byte) (mem : memDB) (w : world)
    : result (list byte) * (memDB * world) :=
  match search_index key (data mem) with
  | Some (i, kv) =>
      let deletedValue := Value kv in
      match wal mem with
      | None => (Panic "nil pointer dereference", (mem, w))
      | Some l =>
          let '(_, (f', w')) := WAL_AppendEntry OpDelete kv (file l, w) in
          (Ok deletedValue,
           (set_data (take i (data mem) ++ drop (S i) (data mem))
              (set_wal (Some (mkWAL f' (watermark l))) mem), w'))
      end
  | None => (Err ErrKeyDoesNotExist, (mem, w))
  end.

(** [(mem *memDB) Get]. *)
Definition memDB_Get (key : list byte) (mem : memDB) (w : world)
    : result (list byte) * memDB :=
  match search key (data mem) with
  | Some v => (Ok v, mem)
  | None =>
      let '(r, mem') :=
        if negb (sstFileLoaded mem)
        then memDB_loadSSTFile (sstFileName (now w)) mem w
        else (Ok tt, mem) in
      match r with
      | Err e => (Err e, mem')
      | Panic m => (Panic m, mem')
      | Ok _ =>
          match search key (data mem') with
          | Some v => (Ok v, mem')
          | None => (Err ErrKeyNotFound, mem')
          end
      end
  end.

(** [(mem *memDB) GetAll]. *)
Definition memDB_GetAll (mem : memDB) : result (list KeyValue) :=
  Ok (data mem).

(* ===================================================================== *)
(** ** sort.Slice and sort.Strings *)
(* ===================================================================== *)

Section InsertionSort.
Context {A : Type} (less : A -> A -> bool).

(** The inner loop of Go's [insertionSortLessFunc]: the new element moves
    left while it is less than its left neighbour.  The sorted prefix is
    held reversed, its last element first. *)
Fixpoint sift (x : A) (rprefix : list A) : list A :=
  match rprefix with
  | [] => [x]
  | y :: rest => if less x y then y :: sift x rest else x :: rprefix
  end.

Definition insertionSort (l : list A) : list A :=
  rev (fold_left (fun rprefix x => sift x rprefix) l []).
End InsertionSort.

(** [string(data[i].Key) < string(data[j].Key)]. *)
Definition key_less (a b : KeyValue) : bool :=
  String.ltb (string_of_list_byte (Key a)) (string_of_list_byte (Key b)).

(** [sort.Slice(data, func(i, j int) bool { return string(data[i].Key) < string(data[j].Key) })].
    Go sorts slices of at most 12 elements by this insertion sort.  Longer
    slices go through pattern-defeating quicksort, which yields the same
    sequence of keys but does not fix the order among entries with equal
    keys. *)
Definition sort_Slice_byKey (l : list KeyValue) : list KeyValue :=
  insertionSort key_less l.

(** [sort.Strings]. *)
Definition sort_Strings (l : list string) : list string :=
  insertionSort String.ltb l.

(* ===================================================================== *)
(** ** sst.go: writing a segment *)
(* ===================================================================== *)

Definition magicNumber : Z := 0x12345678.
Definition version : Z := 1.
Definition checksumOffset : Z := 14.

(** main.go *)
Definition maxEntriesBeforeSST : Z := 1000.
Definition maxSSTFiles : Z := 10.

(** What [gzip.Writer.Close] sends to the underlying writer when nothing
    was ever written through it: the 10-byte member header, the final
    empty stored block (flushed in two pieces) and the 8-byte trailer
    (CRC-32 and size of no data).  It stops at the first failing write. *)
Definition gzip_Close_chunks : list (list byte) :=
  [ [x1f; x8b; x08; x00; x00; x00; x00; x00; x00; xff];
    [x01];
    [x00; x00; xff; xff];
    [x00; x00; x00; x00; x00; x00; x00; x00] ].

Fixpoint write_all (chunks : list (list byte)) : IO unit :=
  match chunks with
  | [] => io_ret tt
  | c :: rest => file_Write c ;; write_all rest
  end.

(** [defer gzWriter.Close()]: the error is dropped. *)
Definition gzip_Close : IO unit := ignoring (write_all gzip_Close_chunks).

(** One entry as the writers lay it out: key length, key, value length,
    value.  [tag] is what the caller does to a failing write before it
    returns it. *)
Definition write_entry (tag : string -> IO unit -> IO unit) (key value : list byte) : IO unit :=
  tag "key length" (file_Write (putUint32 (uint32 (len key)))) ;;
  tag "key data" (file_Write key) ;;
  tag "value length" (file_Write (putUint32 (uint32 (len value)))) ;;
  tag "value data" (file_Write value).

Fixpoint write_entries (tag : string -> IO unit -> IO unit) (l : list KeyValue) : IO unit :=
  match l with
  | [] => io_ret tt
  | kv :: rest => write_entry tag (Key kv) (Value kv) ;; write_entries tag rest
  end.

(** [return fmt.Errorf("error writing " + what + ": %w", err)] and plain
    [return err]. *)
Definition tag_wrapped (what : string) (c : IO unit) : IO unit :=
  wrapping ("error writing " +:+ what) c.

Definition tag_plain (what : string) (c : IO unit) : IO unit := c.

(** [mem.data[0].Key] and [mem.data[len(mem.data)-1].Key]; indexing an
    empty slice panics. *)
Definition first_key (d : list KeyValue) : option (list byte) :=
  match d with
  | [] => None
  | kv :: _ => Some (Key kv)
  end.

Definition last_key (d : list KeyValue) : option (list byte) :=
  first_key (rev d).

(** The body of [createSSTFile] between [os.Create] and the final
    [mem.data = make([]KeyValue, 0)], on the sorted data. *)
Definition createSSTFile_body (d : list KeyValue) : IO unit :=
  match first_key d, last_key d with
  | Some smallestKey, Some largestKey =>
      let entryCount := uint32 (len d) in
      let placeholder := 0 in
      wrapping "error writing magic number" (file_Write (putUint32 magicNumber)) ;;
      wrapping "error writing version" (file_Write (putUint16 version)) ;;
      wrapping "error writing entry count" (file_Write (putUint32 entryCount)) ;;
      wrapping "error writing smallest key length"
        (file_Write (putUint32 (uint32 (len smallestKey)))) ;;
      wrapping "error writing largest key length"
        (file_Write (putUint32 (uint32 (len largestKey)))) ;;
      wrapping "error writing entry count placeholder" (file_Write (putUint32 placeholder)) ;;
      wrapping "error writing smallest key length placeholder" (file_Write (putUint32 placeholder)) ;;
      wrapping "error writing largest key length placeholder" (file_Write (putUint32 placeholder)) ;;
      write_entries tag_wrapped d ;;
      wrapping "error seeking to checksum offset" (file_SeekStart checksumOffset) ;;
      wrapping "error writing checksum" (file_Write (putUint32 (calculateChecksum d)))
  | _, _ => fun s => (Panic "index out of range", s)
  end.

(** [(mem *memDB) createSSTFile].  [mem.data] is sorted in place before
    anything is written and emptied only on the path that returns nil. *)
Definition memDB_createSSTFile (mem : memDB) (w : world)
    : result unit * (memDB * world) :=
  if len (data mem) =? 0 then (Ok tt, (mem, w))
  else
    let sorted := sort_Slice_byKey (data mem) in
    let fileName := sstFileName (now w) in
    let '(f, w1) := os_Create fileName w in
    let '(r, w2) := with_file f (createSSTFile_body sorted) gzip_Close w1 in
    match r with
    | Ok _ => (Ok tt, (set_data [] mem, w2))
    | _ => (r, (set_data sorted mem, w2))
    end.

(** [fmt.Sprintf("file%d.sst", time.Now().Unix())] of [flushToSST]. *)
Definition flushFileName (t : Z) : string := "file" +:+ decimal t +:+ ".sst".

(** [flushToSST] up to the call of [createSSTFile]: header and entries,
    all taken from [mem.data]. *)
Definition flushToSST_head (d : list KeyValue) : IO unit :=
  match first_key d, last_key d with
  | Some smallestKey, Some largestKey =>
      let entryCount := uint32 (len d) in
      file_Write (putUint32 magicNumber) ;;
      file_Write (putUint16 version) ;;
      file_Write (putUint32 magicNumber) ;;
      file_Write (putUint16 version) ;;
      file_Write (putUint32 entryCount) ;;
      file_Write (putUint32 (uint32 (len smallestKey))) ;;
      file_Write (putUint32 (uint32 (len largestKey))) ;;
      write_entries tag_plain d
  | _, _ => fun s => (Panic "index out of range", s)
  end.

Definition set_flushed (operation : Operation) (mem : memDB) : memDB :=
  if operation =? OpSet then
    mkMemDB (data mem) (wal mem) (flushInterval mem) (sstFileLoaded mem) [] (deleteData mem)
  else if operation =? OpDelete then
    mkMemDB (data mem) (wal mem) (flushInterval mem) (sstFileLoaded mem) (setData mem) []
  else mem.

Definition set_sorted (operation : Operation) (l : list KeyValue) (mem : memDB) : memDB :=
  if operation =? OpSet then
    mkMemDB (data mem) (wal mem) (flushInterval mem) (sstFileLoaded mem) l (deleteData mem)
  else
    mkMemDB (data mem) (wal mem) (flushInterval mem) (sstFileLoaded mem) (setData mem) l.

(** [(mem *memDB) flushToSST]. *)
Definition memDB_flushToSST (operation : Operation) (mem : memDB) (w : world)
    : result unit * (memDB * world) :=
  if negb ((operation =? OpSet) || (operation =? OpDelete)) then
    (Err ErrInvalidOperation, (mem, w))
  else
    let dataToFlush := if operation =? OpSet then setData mem else deleteData mem in
    if len dataToFlush =? 0 then (Ok tt, (mem, w))
    else
      let mem0 := set_sorted operation (sort_Slice_byKey dataToFlush) mem in
      let '(f, w0) := os_Create (flushFileName (now w)) w in
      let '(r1, (f1, w1)) := flushToSST_head (data mem0) (f, w0) in
      match r1 with
      | Err e => (Err e, (mem0, w1))
      | Panic m => (Panic m, (mem0, w1))
      | Ok _ =>
          let '(r2, (mem2, w2)) :=
            if maxEntriesBeforeSST <=? len (data mem0)
            then memDB_createSSTFile mem0 w1
            else (Ok tt, (mem0, w1)) in
          match r2 with
          | Err e => (Err e, (mem2, w2))
          | Panic m => (Panic m, (mem2, w2))
          | Ok _ =>
              let '(r3, (_, w3)) :=
                file_Write (putUint32 (calculateChecksum (data mem2))) (f1, w2) in
              match r3 with
              | Err e => (Err e, (mem2, w3))
              | Panic m => (Panic m, (mem2, w3))
              | Ok _ =>
                  let mem3 := set_flushed operation mem2 in
                  match wal mem3 with
                  | None => (Panic "nil pointer dereference", (mem3, w3))
                  | Some l =>
                      match file_Tell (file l, w3) with
                      | (Ok currentPosition, _) =>
                          (Ok tt, (set_wal (Some (WAL_UpdateWatermark currentPosition l)) mem3, w3))
                      | (Err e, _) => (Err e, (mem3, w3))
                      | (Panic m, _) => (Panic m, (mem3, w3))
                      end
                  end
              end
          end
      end.

(* ===================================================================== *)
(** ** bufio.Scanner with the default line splitter *)
(* ===================================================================== *)

Definition MaxScanTokenSize : Z := 65536.

(** [dropCR]: a trailing carriage return is not part of the line. *)
Definition dropCR (line : list byte) : list byte :=
  match rev line with
  | x0d :: rest => rev rest
  | _ => line
  end.

(** The tokens [scanner.Scan()] / [scanner.Text()] deliver, in order, and
    [scanner.Err()] afterwards.  [cur] is the line being collected,
    reversed.  A line that does not fit the scanner's buffer together with
    its newline stops the scan with [bufio.ErrTooLong]; an empty rest after
    the last newline is no line. *)
Fixpoint scan_from (cur : list byte) (l : list byte) : list (list byte) * option error :=
  match l with
  | [] =>
      match cur with
      | [] => ([], None)
      | _ :: _ =>
          if MaxScanTokenSize <=? len cur then ([], Some ErrTooLong)
          else ([dropCR (rev cur)], None)
      end
  | b :: l' =>
      match b with
      | x0a =>
          if MaxScanTokenSize <=? len cur then ([], Some ErrTooLong)
          else let '(lines, e) := scan_from [] l' in (dropCR (rev cur) :: lines, e)
      | _ => scan_from (b :: cur) l'
      end
  end.

Definition scan_lines (content : list byte) : list (list byte) * option error :=
  scan_from [] content.

(* ===================================================================== *)
(** ** main.go: getSSTFileNames *)
(* ===================================================================== *)

(** [strings.HasSuffix(s, suffix)]. *)
Definition HasSuffix (s suffix : string) : bool :=
  (String.length suffix <=? String.length s)%nat &&
  String.eqb (substring (String.length s - String.length suffix) (String.length suffix) s) suffix.

(** [getSSTFileNames]: the names in ./GO_PROJECT that end in ".sst". *)
Definition getSSTFileNames (w : world) : result (list string) :=
  match go_project w with
  | None => Err ErrReadDir
  | Some names => Ok (List.filter (fun name => HasSuffix name ".sst") names)
  end.

(* ===================================================================== *)
(** ** sst.go: compaction *)
(* ===================================================================== *)

Section Compaction.

(** [json.Unmarshal(line, &keyValue)] on a zero [KeyValue]: the decoded
    value, or None for an error. *)
Variable json_Unmarshal : list byte -> option KeyValue.

(** The order in which [for key, value := range mergedData] visits the
    map in one run; Go leaves it unspecified. *)
Variable range_order : gmap string string -> list (string * string).

(** The [for scanner.Scan()] loop over one file. *)
Fixpoint merge_lines (lines : list (list byte)) (mergedData : gmap string string)
    : option (gmap string string) :=
  match lines with
  | [] => Some mergedData
  | line :: rest =>
      match json_Unmarshal line with
      | None => None
      | Some keyValue =>
          merge_lines rest
            (<[string_of_list_byte (Key keyValue) := string_of_list_byte (Value keyValue)]>
               mergedData)
      end
  end.

(** One round of [for _, fileName := range fileNames]: open, scan and
    decode every line, then remove the file. *)
Definition merge_file (fileName : string) (mergedData : gmap string string)
    : IO (gmap string string) :=
  fun '(newFile, w) =>
    match files w !! fileName with
    | None => (Err (ErrNotExist fileName), (newFile, w))
    | Some content =>
        let '(lines, scanErr) := scan_lines content in
        match merge_lines lines mergedData with
        | None => (Err ErrJSON, (newFile, w))
        | Some mergedData' =>
            match scanErr with
            | Some e => (Err e, (newFile, w))
            | None =>
                match os_Remove fileName w with
                | (Ok _, w') => (Ok mergedData', (newFile, w'))
                | (Err e, w') => (Err e, (newFile, w'))
                | (Panic m, w') => (Panic m, (newFile, w'))
                end
            end
        end
    end.

Fixpoint merge_files (fileNames : list string) (mergedData : gmap string string)
    : IO (gmap string string) :=
  match fileNames with
  | [] => io_ret mergedData
  | fileName :: rest =>
      mergedData' <- merge_file fileName mergedData ;;
      merge_files rest mergedData'
  end.

(** The second loop: every pair of the map, in the order of [range]. *)
Fixpoint write_merged (pairs : list (string * string)) : IO unit :=
  match pairs with
  | [] => io_ret tt
  | (key, value) :: rest =>
      write_entry tag_plain (list_byte_of_string key) (list_byte_of_string value) ;;
      write_merged rest
  end.

(** [mergeSSTFiles]. *)
Definition mergeSSTFiles (fileNames : list string) (newFileName : string) (w : world)
    : result unit * world :=
  let '(newFile, w1) := os_Create newFileName w in
  with_file newFile
    (mergedData <- merge_files fileNames ∅ ;;
     write_merged (range_order mergedData))
    (io_ret tt) w1.

(** [fmt.Sprintf("merged_sst_file_%d.sst", time.Now().Unix())]. *)
Definition mergedFileName (t : Z) : string :=
  "merged_sst_file_" +:+ decimal t +:+ ".sst".

(** The last loop of [compactSSTFiles]. *)
Fixpoint remove_all (fileNames : list string) (w : world) : result unit * world :=
  match fileNames with
  | [] => (Ok tt, w)
  | fileName :: rest =>
      match os_Remove fileName w with
      | (Ok _, w') => remove_all rest w'
      | (r, w') => (wrap "error removing SST file" r, w')
      end
  end.

(** [compactSSTFiles]. *)
Definition compactSSTFiles (maxSSTFiles : Z) (w : world) : result unit * world :=
  match getSSTFileNames w with
  | Err e => (Err (Errorf "error getting SST file names" e), w)
  | Panic m => (Panic m, w)
  | Ok sstFiles =>
      if len sstFiles <=? maxSSTFiles then (Ok tt, w)
      else
        let sstFiles := sort_Strings sstFiles in
        let newSSTFileName := mergedFileName (now w) in
        match mergeSSTFiles sstFiles newSSTFileName w with
        | (Ok _, w') => remove_all sstFiles w'
        | (r, w') => (wrap "error during compaction" r, w')
        end
  end.

End Compaction.

(* ===================================================================== *)
(** ** encoding/json on the lines [json.Marshal] writes for a KeyValue *)
(* ===================================================================== *)

(** A line of the form
      {<q>Key<q>:<q>base64<q>,<q>Value<q>:<q>base64<q>,<q>Operation<q>:digits}
    where <q> is the double quote: the text [json.Marshal] produces for a
    [KeyValue] ([[]byte] fields are base64 strings).  [json_line] builds
    such a line and [json_decode] reads it back; on these lines
    [json.Unmarshal] gives the same value.  The theorems on compaction hold
    for every decoder; this one provides concrete files. *)

Definition quote : byte := x22.

Definition b64_alphabet : list byte :=
  bytes "ABCDEFGHIJKLMNOPQRSTUVWXYZabcdefghijklmnopqrstuvwxyz0123456789+/".

Definition b64_char (v : Z) : byte := nth (Z.to_nat (v mod 64)) b64_alphabet x00.

Fixpoint b64_index (b : byte) (alphabet : list byte) (i : Z) : option Z :=
  match alphabet with
  | [] => None
  | c :: rest => if Byte.eqb b c then Some i else b64_index b rest (i + 1)
  end.

Definition b64_value (b : byte) : option Z := b64_index b b64_alphabet 0.

Fixpoint b64_encode (l : list byte) : list byte :=
  match l with
  | [] => []
  | [a] =>
      let n := byte_to_Z a * 65536 in
      [b64_char (n / 262144); b64_char (n / 4096); x3d; x3d]
  | [a; b] =>
      let n := byte_to_Z a * 65536 + byte_to_Z b * 256 in
      [b64_char (n / 262144); b64_char (n / 4096); b64_char (n / 64); x3d]
  | a :: b :: c :: rest =>
      let n := byte_to_Z a * 65536 + byte_to_Z b * 256 + byte_to_Z c in
      [b64_char (n / 262144); b64_char (n / 4096); b64_char (n / 64); b64_char n]
        ++ b64_encode rest
  end.

Fixpoint b64_decode (l : list byte) : option (list byte) :=
  match l with
  | [] => Some []
  | [a; b; x3d; x3d] =>
      match b64_value a, b64_value b with
      | Some va, Some vb => Some [byte_of_Z ((va * 64 + vb) / 16)]
      | _, _ => None
      end
  | [a; b; c; x3d] =>
      match b64_value a, b64_value b, b64_value c with
      | Some va, Some vb, Some vc =>
          let n := (va * 64 + vb) * 64 + vc in
          Some [byte_of_Z (n / 1024); byte_of_Z (n / 4)]
      | _, _, _ => None
      end
  | a :: b :: c :: d :: rest =>
      match b64_value a, b64_value b, b64_value c, b64_value d, b64_decode rest with
      | Some va, Some vb, Some vc, Some vd, Some tail =>
          let n := ((va * 64 + vb) * 64 + vc) * 64 + vd in
          Some (byte_of_Z (n / 65536) :: byte_of_Z (n / 256) :: byte_of_Z n :: tail)
      | _, _, _, _, _ => None
      end
  | _ => None
  end.

Definition json_line (kv : KeyValue) : list byte :=
  [x7b; quote] ++ bytes "Key" ++ [quote; x3a; quote] ++ b64_encode (Key kv) ++
  [quote; x2c; quote] ++ bytes "Value" ++ [quote; x3a; quote] ++ b64_encode (Value kv) ++
  [quote; x2c; quote] ++ bytes "Operation" ++ [quote; x3a] ++
  bytes (decimal (Op kv)) ++ [x7d].

Fixpoint strip_prefix (p l : list byte) : option (list byte) :=
  match p, l with
  | [], _ => Some l
  | a :: p', b :: l' => if Byte.eqb a b then strip_prefix p' l' else None
  | _ :: _, [] => None
  end.

(** The bytes before the next double quote, and what follows it. *)
Fixpoint until_quote (l : list byte) : option (list byte * list byte) :=
  match l with
  | [] => None
  | b :: l' =>
      if Byte.eqb b quote then Some ([], l')
      else match until_quote l' with
           | Some (s, rest) => Some (b :: s, rest)
           | None => None
           end
  end.

(** A [uint8] in decimal, without leading zeroes, followed by the closing
    brace. *)
Fixpoint uint8_digits (acc : Z) (seen : bool) (l : list byte) : option Z :=
  match l with
  | [x7d] => if seen && (acc <=? 255) then Some acc else None
  | b :: l' =>
      let v := byte_to_Z b - 48 in
      if (0 <=? v) && (v <=? 9) && (acc <=? 255) && negb (seen && (acc =? 0))
      then uint8_digits (acc * 10 + v) true l'
      else None
  | [] => None
  end.

Definition json_decode (line : list byte) : option KeyValue :=
  match strip_prefix ([x7b; quote] ++ bytes "Key" ++ [quote; x3a; quote]) line with
  | None => None
  | Some l1 =>
      match until_quote l1 with
      | None => None
      | Some (k64, l2) =>
          match strip_prefix ([x2c; quote] ++ bytes "Value" ++ [quote; x3a; quote]) l2 with
          | None => None
          | Some l3 =>
              match until_quote l3 with
              | None => None
              | Some (v64, l4) =>
                  match strip_prefix ([x2c; quote] ++ bytes "Operation" ++ [quote; x3a]) l4 with
                  | None => None
                  | Some l5 =>
                      match b64_decode k64, b64_decode v64, uint8_digits 0 false l5 with
                      | Some k, Some v, Some op => Some (mkKV k v op)
                      | _, _, _ => None
                      end
                  end
              end
          end
      end
  end.

(** A file of JSON lines, one entry per line. *)
Definition json_file (l : list KeyValue) : list byte :=
  concat (map (fun kv => json_line kv ++ [x0a]) l).

(* ===================================================================== *)
(** * Notions used in the statements *)
(* ===================================================================== *)

(** Sample stores and files, the bytes the writers leave on disk, and the
    merge as the specification words it. *)

(** The state after [Set k v], and after [Del k]. *)
Definition after_Set (k v : list byte) (s : memDB * world) : memDB * world :=
  snd (memDB_Set k v (fst s) (snd s)).

Definition after_Del (k : list byte) (s : memDB * world) : memDB * world :=
  snd (memDB_Del k (fst s) (snd s)).

Definition sample_world : world := World ∅ None 1700000000 None.

(** A store as main.go builds it: a fresh log and an empty memtable. *)
Definition sample_store : memDB * world :=
  let '(l, w) := NewWriteAheadLog "newal.log" sample_world in (NewMemDB l, w).

(** A store whose device is full. *)
Definition full_store : memDB * world :=
  (fst sample_store, set_quota (Some O) (snd sample_store)).

(** The store after [wal.CleanupAfterSSTCreation(50)], the call main.go
    makes on shutdown while the server still runs: the log is cut (here
    extended) to 50 bytes and [wal.file] is a closed file. *)
Definition store_after_cleanup : memDB * world :=
  let '(mem, w) := sample_store in
  match wal mem with
  | Some l =>
      let '(_, (l', w')) := WAL_CleanupAfterSSTCreation 50 l w in
      (set_wal (Some l') mem, w')
  | None => (mem, w)
  end.

(** The bytes a reader can still deliver. *)
Definition remaining (r : Reader) : nat := (length (buffered r) + length (unread r))%nat.

(** The entries the loop decodes from a file, in order. *)
Definition load_entries (content : list byte) : list KeyValue := load_data content [].


(** A segment file holding the single entry (a, b): key length, key, value
    length, value. *)
Definition one_entry_file : list byte :=
  putUint32 1 ++ bytes "a" ++ putUint32 1 ++ bytes "b".

Definition one_entry_world : world :=
  World {[ sstFileName 1700000000 := one_entry_file ]} None 1700000000 None.

Definition empty_memDB : memDB := mkMemDB [] None 0 false [] [].

(** An open read-write file [name] at offset [pos], holding [c]. *)
Definition open_at (name : string) (pos : Z) (c : list byte) (w : world) : File * world :=
  (mkFile name pos false false, set_files (<[name := c]> (files w)) w).

(** One entry on disk. *)
Definition entry_bytes (key value : list byte) : list byte :=
  putUint32 (uint32 (len key)) ++ key ++ putUint32 (uint32 (len value)) ++ value.

Definition entries_bytes (d : list KeyValue) : list byte :=
  concat (map (fun kv => entry_bytes (Key kv) (Value kv)) d).

(** The 30 bytes written before the entries. *)
Definition header_bytes (d : list KeyValue) : list byte :=
  putUint32 magicNumber ++ putUint16 version ++ putUint32 (uint32 (len d)) ++
  putUint32 (uint32 (len (default [] (first_key d)))) ++
  putUint32 (uint32 (len (default [] (last_key d)))) ++
  putUint32 0 ++ putUint32 0 ++ putUint32 0.

(** What the deferred [gzWriter.Close()] does to a file whose offset is 18. *)
Definition gzip_overlay (c : list byte) : list byte :=
  write_at 33 [x00; x00; x00; x00; x00; x00; x00; x00]
    (write_at 29 [x00; x00; xff; xff]
       (write_at 28 [x01]
          (write_at 18 [x1f; x8b; x08; x00; x00; x00; x00; x00; x00; xff] c))).

(** The segment file as [createSSTFile] leaves it: header and entries, the
    checksum stored over the largest-key-length field at offset 14, and the
    empty gzip stream stored over whatever follows the checksum. *)
Definition segment_image (d : list KeyValue) : list byte :=
  gzip_overlay
    (write_at checksumOffset (putUint32 (calculateChecksum d))
       (header_bytes d ++ entries_bytes d)).

(** The memtable of the repository's own test of [createSSTFile]. *)
Definition test_memDB : memDB :=
  mkMemDB [mkKV (bytes "key3") (bytes "value3") OpSet;
           mkKV (bytes "key1") (bytes "value1") OpSet;
           mkKV (bytes "key2") (bytes "value2") OpSet] None 0 false [] [].

(** Every bit of the byte at index [i] inverted. *)
Definition flip_byte (i : nat) (content : list byte) : list byte :=
  alter (fun b => byte_of_Z (Z.lxor (byte_to_Z b) 255)) i content.

(** A memtable with one entry whose value ends in four zero bytes.  Its
    segment is 47 bytes long, the value at offsets 39 to 46. *)
Definition zero_memDB : memDB :=
  mkMemDB [mkKV (bytes "k") [x01; x02; x03; x04; x00; x00; x00; x00] OpSet]
    None 0 false [] [].

(** A memtable with one entry whose value ends in the byte ff. *)
Definition ff_memDB : memDB :=
  mkMemDB [mkKV (bytes "k") [x00; x00; x00; xff] OpSet] None 0 false [] [].

Definition ff_world : world := snd (snd (memDB_createSSTFile ff_memDB sample_world)).

Definition ff_segment : list byte :=
  default [] (files ff_world !! sstFileName 1700000000).

(** Two memtables flushed one after the other within one second. *)
Definition first_memDB : memDB :=
  mkMemDB [mkKV (bytes "a") (bytes "1") OpSet] None 0 false [] [].

Definition second_memDB : memDB :=
  mkMemDB [mkKV (bytes "b") (bytes "2") OpSet] None 0 false [] [].

(** The claim of C9 as it is written: [mem1] and then [mem2] flushed in
    the world [w] leave two files with distinct names, one per flush. *)
Definition flushes_write_distinct_files (mem1 mem2 : memDB) (w : world) : Prop :=
  let w1 := snd (snd (memDB_createSSTFile mem1 w)) in
  let w2 := snd (snd (memDB_createSSTFile mem2 w1)) in
  sstFileName (now w) <> sstFileName (now w1) /\
  files w2 !! sstFileName (now w) = Some (segment_image (sort_Slice_byKey (data mem1))) /\
  files w2 !! sstFileName (now w1) = Some (segment_image (sort_Slice_byKey (data mem2))).

(** [mergedData[string(keyValue.Key)] = string(keyValue.Value)]. *)
Definition put (m : gmap string string) (kv : KeyValue) : gmap string string :=
  <[string_of_list_byte (Key kv) := string_of_list_byte (Value kv)]> m.

(** The value of the last entry of [es] written under key [k], whatever
    its operation. *)
Fixpoint last_value (k : string) (es : list KeyValue) : option string :=
  match es with
  | [] => None
  | kv :: rest =>
      match last_value k rest with
      | Some v => Some v
      | None =>
          if String.eqb (string_of_list_byte (Key kv)) k
          then Some (string_of_list_byte (Value kv))
          else None
      end
  end.

(** The files of [names] removed one after the other. *)
Definition remove_names (names : list string) (fs : gmap string (list byte))
    : gmap string (list byte) :=
  fold_left (fun fs name => delete name fs) names fs.

(** The pairs of the second loop on disk. *)
Definition pairs_bytes (pairs : list (string * string)) : list byte :=
  concat (map (fun p => entry_bytes (list_byte_of_string (fst p)) (list_byte_of_string (snd p)))
            pairs).

Definition k1v1 : KeyValue := mkKV (bytes "k1") (bytes "v1") OpSet.
Definition k2v2 : KeyValue := mkKV (bytes "k2") (bytes "v2") OpSet.
Definition k2v3 : KeyValue := mkKV (bytes "k2") (bytes "v3") OpSet.
Definition k3v4 : KeyValue := mkKV (bytes "k3") (bytes "v4") OpSet.
Definition k2_deleted : KeyValue := mkKV (bytes "k2") (bytes "v2") OpDelete.

(** A directory with a segment of JSON lines, a.sst, next to a segment
    written by [createSSTFile], b.sst. *)
Definition mixed_world : world :=
  World (<["a.sst" := json_file [k1v1; k2v2]]> (<["b.sst" := ff_segment]> ∅))
    None 1700000000 None.

(** The segments A (older) and B (newer) of the specification's example. *)
Definition example_world : world :=
  World (<["a.sst" := json_file [k1v1; k2v2]]> (<["b.sst" := json_file [k2v3; k3v4]]> ∅))
    None 1700000000 None.

(** The merge of the specification, in its words: of all the entries of
    the segments, oldest segment first, keep for each key the entry of the
    most recent segment, drop the key when that entry is a Delete, and sort
    what remains by key. *)
Definition spec_newest (segments : list (list KeyValue)) : gmap string KeyValue :=
  fold_left (fun m kv => <[string_of_list_byte (Key kv) := kv]> m) (concat segments) ∅.

Definition spec_merge (segments : list (list KeyValue)) : list KeyValue :=
  sort_Slice_byKey
    (List.filter (fun kv => negb (Op kv =? OpDelete))
       (map snd (map_to_list (spec_newest segments)))).

(** A newer segment that deletes k2. *)
Definition tombstone_world : world :=
  World (<["a.sst" := json_file [k1v1; k2v2]]> (<["b.sst" := json_file [k2_deleted]]> ∅))
    None 1700000000 None.

(** One record of the log: operation, key length, key, value length,
    value, the lengths as 16-bit little-endian integers. *)
Definition wal_record (op : Operation) (kv : KeyValue) : list byte :=
  [byte_of_Z (op mod 256)] ++ putUint16 (uint16 (len (Key kv))) ++ Key kv ++
  putUint16 (uint16 (len (Value kv))) ++ Value kv.

(** The log file [name], opened for appending, holding [c]. *)
Definition open_log (name : string) (pos : Z) (c : list byte) (w : world) : File * world :=
  (mkFile name pos true false, set_files (<[name := c]> (files w)) w).

Section JSONSegments.

Variable json_Unmarshal : list byte -> option KeyValue.

(** Every line decoded, or None as soon as one is refused. *)
Fixpoint decode_lines (lines : list (list byte)) : option (list KeyValue) :=
  match lines with
  | [] => Some []
  | line :: rest =>
      match json_Unmarshal line, decode_lines rest with
      | Some kv, Some kvs => Some (kv :: kvs)
      | _, _ => None
      end
  end.

(** The entries of a file that the first loop of [mergeSSTFiles] gets
    through: every line is scanned and decoded. *)
Definition segment_of (content : list byte) : option (list KeyValue) :=
  match scan_lines content with
  | (lines, None) => decode_lines lines
  | (_, Some _) => None
  end.

End JSONSegments.

(* ===================================================================== *)
(** * The rest of the program: background tasks, shutdown, handlers *)
(* ===================================================================== *)

(** How a piece of main.go ends: it goes on, it stops the process through
    [log.Fatalf], or it panics. *)
Inductive ending : Type :=
  | GoesOn
  | Fatal (e : error)
  | Panics (msg : string).

(** ** sst.go: periodicFlush *)

(** One round of the loop of [periodicFlush]: [mem.flushToSST(Set)], then
    [mem.flushToSST(Delete)]; the errors are dropped, a panic ends the
    round. *)
Definition memDB_periodicFlush_round (mem : memDB) (w : world)
    : ending * (memDB * world) :=
  match memDB_flushToSST OpSet mem w with
  | (Panic m, s) => (Panics m, s)
  | (_, (mem1, w1)) =>
      match memDB_flushToSST OpDelete mem1 w1 with
      | (Panic m, s) => (Panics m, s)
      | (_, s) => (GoesOn, s)
      end
  end.

(** ** main.go: the two background loops and the shutdown *)

(** [for _, fileName := range fileNames { os.Remove(fileName) }], the
    error of a removal only being logged. *)
Fixpoint remove_each (fileNames : list string) (w : world) : world :=
  match fileNames with
  | [] => w
  | fileName :: rest => remove_each rest (snd (os_Remove fileName w))
  end.

(** One round of the five-minute loop of main.go: when ./GO_PROJECT lists
    [maxSSTFiles] segment names or more, every listed name is removed. *)
Definition cleanup_round (w : world) : ending * world :=
  match getSSTFileNames w with
  | Ok sstFiles =>
      if maxSSTFiles <=? len sstFiles then
        match getSSTFileNames w with
        | Ok fileNames => (GoesOn, remove_each fileNames w)
        | Err e => (Fatal e, w)
        | Panic m => (Panics m, w)
        end
      else (GoesOn, w)
  | Err e => (Fatal e, w)
  | Panic m => (Panics m, w)
  end.

Section CompactionRound.

Variable json_Unmarshal : list byte -> option KeyValue.
Variable range_order : gmap string string -> list (string * string).

(** One round of the thirty-minute loop of main.go:
    [compactSSTFiles(maxSSTFiles)], any error being fatal. *)
Definition compaction_round (w : world) : ending * world :=
  match compactSSTFiles json_Unmarshal range_order maxSSTFiles w with
  | (Ok _, w') => (GoesOn, w')
  | (Err e, w') => (Fatal e, w')
  | (Panic m, w') => (Panics m, w')
  end.

End CompactionRound.

(** The end of [main] after the shutdown signal: [db.createSSTFile()],
    fatal on error, then [wal.CleanupAfterSSTCreation(watermarkPosition)].
    [db.wal] and the [wal] of [main] are one log. *)
Definition shutdown (watermarkPosition : Z) (mem : memDB) (w : world)
    : ending * (memDB * world) :=
  match memDB_createSSTFile mem w with
  | (Ok _, (mem1, w1)) =>
      match wal mem1 with
      | Some l =>
          let '(_, (l', w2)) := WAL_CleanupAfterSSTCreation watermarkPosition l w1 in
          (GoesOn, (set_wal (Some l') mem1, w2))
      | None => (Panics "nil pointer dereference", (mem1, w1))
      end
  | (Err e, s) => (Fatal (Errorf "Error creating SST file" e), s)
  | (Panic m, s) => (Panics m, s)
  end.

(** ** main.go: the handlers *)

Record response : Type := mkResponse {
  status : Z;
  body : list byte
}.

Definition StatusOK : Z := 200.
Definition StatusBadRequest : Z := 400.
Definition StatusNotFound : Z := 404.
Definition StatusInternalServerError : Z := 500.

(** [http.Error(w, msg, code)]: the message and a newline. *)
Definition http_Error (msg : string) (code : Z) : response :=
  mkResponse code (list_byte_of_string msg ++ [x0a]).

Section Handlers.

(** [err.Error()]. *)
Variable Error_text : error -> string.

(** [json.Marshal] of a [map[string]string], given by its pairs. *)
Variable json_Marshal : list (string * string) -> list byte.

(** The handler of /set, on the query parameters key and value.  A panic
    of the handler is recovered by net/http, which sends no response. *)
Definition handle_set (key value : string) (mem : memDB) (w : world)
    : option response * (memDB * world) :=
  if String.eqb key "" || String.eqb value "" then
    (Some (http_Error "Both key and value are required" StatusBadRequest), (mem, w))
  else
    match memDB_Set (list_byte_of_string key) (list_byte_of_string value) mem w with
    | (Ok _, s) => (Some (mkResponse StatusOK []), s)
    | (Err e, s) => (Some (http_Error (Error_text e) StatusInternalServerError), s)
    | (Panic _, s) => (None, s)
    end.

(** The handler of /del. *)
Definition handle_del (key : string) (mem : memDB) (w : world)
    : option response * (memDB * world) :=
  if String.eqb key "" then
    (Some (http_Error "Key is required" StatusBadRequest), (mem, w))
  else
    match memDB_Del (list_byte_of_string key) mem w with
    | (Ok deletedValue, s) =>
        (Some (mkResponse StatusOK
                 (json_Marshal [("key", key);
                                ("deleted_value", string_of_list_byte deletedValue)])), s)
    | (Err e, s) => (Some (http_Error (Error_text e) StatusNotFound), s)
    | (Panic _, s) => (None, s)
    end.

(** The handler of /get. *)
Definition handle_get (key : string) (mem : memDB) (w : world)
    : option response * (memDB * world) :=
  if String.eqb key "" then
    (Some (http_Error "Key is required" StatusBadRequest), (mem, w))
  else
    match memDB_Get (list_byte_of_string key) mem w with
    | (Ok value, mem') =>
        (Some (mkResponse StatusOK
                 (json_Marshal [("key", key); ("value", string_of_list_byte value)])),
         (mem', w))
    | (Err e, mem') => (Some (http_Error (Error_text e) StatusNotFound), (mem', w))
    | (Panic _, mem') => (None, (mem', w))
    end.

End Handlers.

(** ** The states a store goes through *)

(** The calls that change a store. *)
Inductive call : Type :=
  | CallSet (key value : list byte)
  | CallDel (key : list byte)
  | CallGet (key : list byte)
  | CallSetFlushInterval (interval : Z)
  | CallCreateSSTFile
  | CallFlushToSST (operation : Operation)
  | CallPeriodicFlush
  | CallCleanupAfterSSTCreation (position : Z)
  | CallShutdown (watermarkPosition : Z).

Definition after_call (c : call) (s : memDB * world) : memDB * world :=
  let '(mem, w) := s in
  match c with
  | CallSet key value => snd (memDB_Set key value mem w)
  | CallDel key => snd (memDB_Del key mem w)
  | CallGet key => (snd (memDB_Get key mem w), w)
  | CallSetFlushInterval interval => (memDB_SetFlushInterval interval mem, w)
  | CallCreateSSTFile => snd (memDB_createSSTFile mem w)
  | CallFlushToSST operation => snd (memDB_flushToSST operation mem w)
  | CallPeriodicFlush => snd (memDB_periodicFlush_round mem w)
  | CallCleanupAfterSSTCreation position =>
      match wal mem with
      | Some l =>
          let '(_, (l', w')) := WAL_CleanupAfterSSTCreation position l w in
          (set_wal (Some l') mem, w')
      | None => (mem, w)
      end
  | CallShutdown watermarkPosition => snd (shutdown watermarkPosition mem w)
  end.

(** [s'] is a state the calls lead to from [s], whatever happens to the
    files and the clock in between. *)
Inductive reaches (s : memDB * world) : memDB * world -> Prop :=
  | reaches_here : reaches s s
  | reaches_call (c : call) (s' : memDB * world) :
      reaches s s' -> reaches s (after_call c s')
  | reaches_world (mem : memDB) (w w' : world) :
      reaches s (mem, w) -> reaches s (mem, w').

(** The states of a store made by [NewMemDB]. *)
Definition reachable (s : memDB * world) : Prop :=
  exists (l : WriteAheadLog) (w : world), reaches (NewMemDB l, w) s.

(** ** Notions for the further properties *)

(** An entry as the loop of [loadSSTFile] builds it: key and value, the
    operation left at its zero value. *)
Definition as_loaded (kv : KeyValue) : KeyValue := mkKV (Key kv) (Value kv) OpSet.


(** [string(a) <= string(b)]: the order of the keys in a segment. *)
Definition key_le (a b : KeyValue) : Prop := key_less b a = false.

(** The 24 bytes [flushToSST] writes before the entries. *)
Definition flush_header_bytes (d : list KeyValue) : list byte :=
  putUint32 magicNumber ++ putUint16 version ++ putUint32 magicNumber ++ putUint16 version ++
  putUint32 (uint32 (len d)) ++
  putUint32 (uint32 (len (default [] (first_key d)))) ++
  putUint32 (uint32 (len (default [] (last_key d)))).

(** The file [flushToSST] leaves when [createSSTFile] is not called:
    header, the live entries, and their checksum at the end. *)
Definition flush_image (d : list KeyValue) : list byte :=
  flush_header_bytes d ++ entries_bytes d ++ putUint32 (calculateChecksum d).

(** The state after a run of [Set] calls, in order. *)
Definition after_Sets (kvs : list (list byte * list byte)) (s : memDB * world)
    : memDB * world :=
  fold_left (fun s kv => after_Set (fst kv) (snd kv) s) kvs s.

(** The bytes of the log file of a store, and whether its handle is the
    open append-only file [NewWriteAheadLog] makes. *)
Definition log_content (s : memDB * world) : option (list byte) :=
  match wal (fst s) with
  | Some l => files (snd s) !! file_name (file l)
  | None => None
  end.

Definition log_open (s : memDB * world) : bool :=
  match wal (fst s) with
  | Some l => file_append (file l) && negb (file_closed (file l))
  | None => false
  end.

(** A run of records, one after the other, as the log holds them. *)
Definition log_records (rs : list (Operation * KeyValue)) : list byte :=
  concat (map (fun r => wal_record (fst r) (snd r)) rs).

(** The operation fits its byte and both lengths fit their 16 bits. *)
Definition fits_record (r : Operation * KeyValue) : Prop :=
  0 <= fst r < 256 /\ len (Key (snd r)) < 65536 /\ len (Value (snd r)) < 65536.

(** What a record holds of an entry: operation, key and value. *)
Definition logged (r : Operation * KeyValue) : Operation * list byte * list byte :=
  (fst r, Key (snd r), Value (snd r)).

(** No file name is in use in [w'] that was not in use in [w]. *)
Definition no_new_file (w w' : world) : Prop :=
  forall n, files w !! n = None -> files w' !! n = None.

(** A segment in the layout [loadSSTFile] reads: the entries from offset
    0, and in the last four bytes the checksum of the entries the store
    holds already followed by those of the file. *)
Definition loadable_image (held d : list KeyValue) : list byte :=
  entries_bytes d ++ putUint32 (calculateChecksum (held ++ d)).

(** A directory with such a segment under the name [Get] looks for. *)
Definition loadable_world : world :=
  World {[ sstFileName 1700000000 := loadable_image [] [k1v1; k2v2] ]}
    None 1700000000 None.

(** The entries of the second loop of [mergeSSTFiles]. *)
Definition pairs_entries (pairs : list (string * string)) : list KeyValue :=
  map (fun p => mkKV (list_byte_of_string (fst p)) (list_byte_of_string (snd p)) OpSet) pairs.

(** A store with two live entries and one entry pending for
    [flushToSST(Set)], and one with the pending entry only. *)
Definition pending_memDB : memDB :=
  mkMemDB [k2v2; k1v1] (Some (mkWAL (mkFile "newal.log" 14 true false) 0)) 0 false [k3v4] [].

Definition pending_only_memDB : memDB :=
  mkMemDB [] (Some (mkWAL (mkFile "newal.log" 14 true false) 0)) 0 false [k3v4] [].

(** The world [w] once the clock shows second [t]. *)
Definition at_second (t : Z) (w : world) : world :=
  World (files w) (go_project w) t (quota w).

(** [flushToSST(operation)] has something to write on [mem] and gets to
    its end: the list to flush is not empty, [mem.data] is not empty and
    holds fewer than [maxEntriesBeforeSST] entries, and the log is open. *)
Definition ready_to_flush (operation : Operation) (mem : memDB) : Prop :=
  (operation = OpSet \/ operation = OpDelete) /\
  (if operation =? OpSet then setData mem else deleteData mem) <> [] /\
  data mem <> [] /\ len (data mem) < maxEntriesBeforeSST /\
  match wal mem with
  | Some l => file_closed (file l) = false
  | None => False
  end.

(** A store with one live entry and one entry pending for
    [flushToSST(Delete)]. *)
Definition pending_delete_memDB : memDB :=
  mkMemDB [k3v4] (Some (mkWAL (mkFile "newal.log" 14 true false) 0)) 0 false [] [k2v2].

(** The directory of the example with ten names listed in ./GO_PROJECT,
    two of them the segments of the example. *)
Definition crowded_world : world :=
  World (files example_world)
    (Some ["a.sst"; "b.sst"; "c.sst"; "d.sst"; "e.sst"; "f.sst"; "g.sst"; "h.sst";
           "i.sst"; "j.sst"; "notes.txt"])
    1700000000 None.

(** A directory in which ./GO_PROJECT lists one segment. *)
Definition quiet_world : world :=
  World (files example_world) (Some ["a.sst"; "notes.txt"]) 1700000000 None.

(* ===================================================================== *)
(** * Properties *)
(* ===================================================================== *)

(** ** Keys and searches *)

Lemma key_eqb_refl (k : list byte) : key_eqb k k = true.
Proof. unfold key_eqb. apply String.eqb_refl. Qed.

Lemma key_eqb_eq (a b : list byte) : key_eqb a b = true <-> a = b.
Proof.
  unfold key_eqb. rewrite String.eqb_eq. split; [| congruence].
  intros H. rewrite <- (list_byte_of_string_of_list_byte a),
    <- (list_byte_of_string_of_list_byte b). congruence.
Qed.

Lemma search_app (k : list byte) (l1 l2 : list KeyValue) :
  search k (l1 ++ l2) =
  match search k l1 with
  | Some v => Some v
  | None => search k l2
  end.
Proof.
  induction l1 as [| kv l1 IH]; simpl; [reflexivity |].
  destruct (key_eqb (Key kv) k); [reflexivity | exact IH].
Qed.

Lemma search_here (k v : list byte) (op : Operation) (l : list KeyValue) :
  search k (mkKV k v op :: l) = Some v.
Proof. simpl. now rewrite key_eqb_refl. Qed.

Lemma search_index_app_miss (k : list byte) (l1 l2 : list KeyValue) :
  search k l1 = None ->
  search_index k (l1 ++ l2) =
  match search_index k l2 with
  | Some (i, kv) => Some ((length l1 + i)%nat, kv)
  | None => None
  end.
Proof.
  induction l1 as [| kv l1 IH]; simpl; intros H.
  - destruct (search_index k l2) as [[i kv] |]; reflexivity.
  - destruct (key_eqb (Key kv) k); [discriminate |].
    rewrite (IH H). destruct (search_index k l2) as [[i kv'] |]; reflexivity.
Qed.

Lemma search_None_index (k : list byte) (l : list KeyValue) :
  search k l = None <-> search_index k l = None.
Proof.
  induction l as [| kv l IH]; simpl; [tauto |].
  destruct (key_eqb (Key kv) k); [split; discriminate |].
  rewrite IH. destruct (search_index k l) as [[i kv'] |]; split; congruence.
Qed.

(** ** What Set, Del and GetAll do to the memtable *)

Lemma memDB_Set_spec (k v : list byte) (mem : memDB) (w : world) (l : WriteAheadLog) :
  wal mem = Some l ->
  exists l' w',
    memDB_Set k v mem w =
    (Ok tt, (set_data (data mem ++ [mkKV k v OpSet]) (set_wal (Some l') mem), w')).
Proof.
  intros Hl. unfold memDB_Set. rewrite Hl.
  destruct (WAL_AppendEntry OpSet (mkKV k v OpSet) (file l, w)) as [r [f' w']].
  eauto.
Qed.

Lemma memDB_Del_absent (k : list byte) (mem : memDB) (w : world) :
  search k (data mem) = None ->
  memDB_Del k mem w = (Err ErrKeyDoesNotExist, (mem, w)).
Proof.
  intros H. apply search_None_index in H. unfold memDB_Del. now rewrite H.
Qed.

Lemma memDB_Del_first (k v : list byte) (op : Operation) (pre post : list KeyValue)
    (mem : memDB) (w : world) (l : WriteAheadLog) :
  wal mem = Some l ->
  data mem = pre ++ mkKV k v op :: post ->
  search k pre = None ->
  exists l' w',
    memDB_Del k mem w =
    (Ok v, (set_data (pre ++ post) (set_wal (Some l') mem), w')).
Proof.
  intros Hl Hd Hpre. unfold memDB_Del. rewrite Hd, (search_index_app_miss _ _ _ Hpre).
  simpl. rewrite key_eqb_refl, Hl, Nat.add_0_r.
  destruct (WAL_AppendEntry OpDelete (mkKV k v op) (file l, w)) as [r [f' w']].
  exists (mkWAL f' (watermark l)), w'. simpl.
  rewrite take_app_length.
  replace (pre ++ mkKV k v op :: post) with ((pre ++ [mkKV k v op]) ++ post)
    by now rewrite <- app_assoc.
  replace (S (length pre)) with (length (pre ++ [mkKV k v op]))
    by (rewrite length_app; simpl; lia).
  now rewrite drop_app_length.
Qed.

Lemma after_two_Sets (k v1 v2 : list byte) (mem : memDB) (w : world) (l : WriteAheadLog) :
  wal mem = Some l ->
  let s2 := after_Set k v2 (after_Set k v1 (mem, w)) in
  data (fst s2) = data mem ++ [mkKV k v1 OpSet; mkKV k v2 OpSet] /\
  (exists l2, wal (fst s2) = Some l2) /\
  sstFileLoaded (fst s2) = sstFileLoaded mem.
Proof.
  intros Hl. unfold after_Set. simpl fst; simpl snd.
  destruct (memDB_Set_spec k v1 mem w l Hl) as (l1 & w1 & E1). rewrite E1. simpl fst; simpl snd.
  destruct (memDB_Set_spec k v2 (set_data (data mem ++ [mkKV k v1 OpSet]) (set_wal (Some l1) mem))
              w1 l1 eq_refl) as (l2 & w2 & E2).
  rewrite E2. simpl. rewrite <- app_assoc. simpl. eauto.
Qed.

(* --------------------------------------------------------------------- *)
(** ** C1: a second Set of a key does not replace the first *)
(* --------------------------------------------------------------------- *)

(** C1.  The claim reads: after set(k, v1) and then set(k, v2), get(k)
    returns v2.  In the code [Set] appends to [mem.data] and [Get] returns
    the first entry whose key matches, so on a store that had no live
    entry for k the answer after the two writes is v1, the older value. *)
Theorem C1_get_after_two_sets_returns_first
    (k v1 v2 : list byte) (mem : memDB) (w : world) (l : WriteAheadLog) :
  wal mem = Some l ->
  search k (data mem) = None ->
  let s2 := after_Set k v2 (after_Set k v1 (mem, w)) in
  fst (memDB_Get k (fst s2) (snd s2)) = Ok v1.
Proof.
  intros Hl Hk s2.
  destruct (after_two_Sets k v1 v2 mem w l Hl) as (Hd & _ & _). fold s2 in Hd.
  unfold memDB_Get. rewrite Hd, search_app, Hk, search_here. reflexivity.
Qed.

Lemma C1_witness :
  let s2 := after_Set (bytes "k") (bytes "b") (after_Set (bytes "k") (bytes "a") sample_store) in
  fst (memDB_Get (bytes "k") (fst s2) (snd s2)) = Ok (bytes "a").
Proof.
  apply (C1_get_after_two_sets_returns_first (bytes "k") (bytes "a") (bytes "b")
           (fst sample_store) (snd sample_store)
           (mkWAL (mkFile "newal.log" 0 true false) 0)); reflexivity.
Defined.

(* --------------------------------------------------------------------- *)
(** ** C5: Set acknowledges a write whose log record failed *)
(* --------------------------------------------------------------------- *)

Lemma file_Write_closed (bs : list byte) (f : File) (w : world) :
  file_closed f = true -> file_Write bs (f, w) = (Err ErrClosed, (f, w)).
Proof. intros H. unfold file_Write. now rewrite H. Qed.

(** On a closed log file nothing is appended and the first write already
    fails. *)
Lemma WAL_AppendEntry_closed (op : Operation) (kv : KeyValue) (f : File) (w : world) :
  file_closed f = true ->
  WAL_AppendEntry op kv (f, w) = (Err ErrClosed, (f, w)).
Proof.
  intros H. unfold WAL_AppendEntry, io_bind. now rewrite file_Write_closed.
Qed.

(** [CleanupAfterSSTCreation] always leaves [wal.file] closed: the handle
    it stores is the one its deferred [file.Close()] closes. *)
Lemma WAL_closed_after_cleanup (position : Z) (l : WriteAheadLog) (w : world) :
  file_closed (file (fst (snd (WAL_CleanupAfterSSTCreation position l w)))) = true.
Proof.
  unfold WAL_CleanupAfterSSTCreation.
  destruct (file_closed (file l)) eqn:Hc; [exact Hc |].
  destruct (files w !! file_name (file l)); [| reflexivity].
  destruct (position <? 0); reflexivity.
Qed.

(** C5.  The claim reads: set fails with IOError whenever the WAL append
    fails, and is acknowledged only if its record was written.  In the code
    [Set] calls [mem.wal.AppendEntry] and drops the error it returns:
    whenever the append fails, [Set] still returns nil and the entry is
    live in [mem.data]. *)
Theorem C5_Set_acknowledges_failed_append
    (k v : list byte) (mem : memDB) (w : world) (l : WriteAheadLog) (e : error) :
  wal mem = Some l ->
  fst (WAL_AppendEntry OpSet (mkKV k v OpSet) (file l, w)) = Err e ->
  fst (memDB_Set k v mem w) = Ok tt /\
  data (fst (snd (memDB_Set k v mem w))) = data mem ++ [mkKV k v OpSet].
Proof.
  intros Hl _. destruct (memDB_Set_spec k v mem w l Hl) as (l' & w' & E).
  rewrite E. split; reflexivity.
Qed.

Lemma C5_witness :
  let mem := fst store_after_cleanup in
  let w := snd store_after_cleanup in
  (fst (memDB_Set (bytes "k") (bytes "v") mem w) = Ok tt /\
   data (fst (snd (memDB_Set (bytes "k") (bytes "v") mem w)))
   = data mem ++ [mkKV (bytes "k") (bytes "v") OpSet]) /\
  files (snd (snd (memDB_Set (bytes "k") (bytes "v") mem w))) !! "newal.log"
  = files w !! "newal.log".
Proof.
  split.
  - apply (C5_Set_acknowledges_failed_append (bytes "k") (bytes "v")
             (fst store_after_cleanup) (snd store_after_cleanup)
             (mkWAL (mkFile "newal.log" 50 false true) 0) ErrClosed); reflexivity.
  - reflexivity.
Defined.

(** The same on a device without room: the write is acknowledged and
    live, and the log is still empty. *)
Lemma Set_on_full_device :
  let out := memDB_Set (bytes "k") (bytes "v") (fst full_store) (snd full_store) in
  fst (WAL_AppendEntry OpSet (mkKV (bytes "k") (bytes "v") OpSet)
         (mkFile "newal.log" 0 true false, snd full_store)) = Err ErrNoSpace /\
  fst out = Ok tt /\
  fst (memDB_Get (bytes "k") (fst (snd out)) (snd (snd out))) = Ok (bytes "v") /\
  files (snd (snd out)) !! "newal.log" = Some [].
Proof. vm_compute. repeat split. Qed.

(* --------------------------------------------------------------------- *)
(** ** C6: GetAll returns the raw list, duplicates included *)
(* --------------------------------------------------------------------- *)

Lemma memDB_GetAll_data (mem : memDB) : memDB_GetAll mem = Ok (data mem).
Proof. reflexivity. Qed.

(** C6.  The claim reads: no two entries returned by get_all share a key.
    In the code [GetAll] returns [mem.data] as it is, and [Set] appends
    without looking for the key, so after two writes of one key the list
    returned holds both entries. *)
Theorem C6_GetAll_returns_duplicate_keys
    (k v1 v2 : list byte) (mem : memDB) (w : world) (l : WriteAheadLog) :
  wal mem = Some l ->
  let s2 := after_Set k v2 (after_Set k v1 (mem, w)) in
  memDB_GetAll (fst s2) = Ok (data mem ++ [mkKV k v1 OpSet; mkKV k v2 OpSet]) /\
  ~ List.NoDup (map Key (data mem ++ [mkKV k v1 OpSet; mkKV k v2 OpSet])).
Proof.
  intros Hl s2.
  destruct (after_two_Sets k v1 v2 mem w l Hl) as (Hd & _ & _). fold s2 in Hd.
  split.
  - unfold memDB_GetAll. now rewrite Hd.
  - rewrite map_app. simpl. intros Hnd.
    apply List.NoDup_app_remove_l in Hnd. inversion Hnd as [| x xs Hin _]; subst.
    apply Hin. now left.
Qed.

Lemma C6_witness :
  let s2 := after_Set (bytes "k") (bytes "b") (after_Set (bytes "k") (bytes "a") sample_store) in
  memDB_GetAll (fst s2) = Ok [mkKV (bytes "k") (bytes "a") OpSet; mkKV (bytes "k") (bytes "b") OpSet] /\
  ~ List.NoDup (map Key [mkKV (bytes "k") (bytes "a") OpSet; mkKV (bytes "k") (bytes "b") OpSet]).
Proof.
  apply (C6_GetAll_returns_duplicate_keys (bytes "k") (bytes "a") (bytes "b")
           (fst sample_store) (snd sample_store)
           (mkWAL (mkFile "newal.log" 0 true false) 0)); reflexivity.
Defined.

(* --------------------------------------------------------------------- *)
(** ** C7: Del removes one entry; an older write of the key comes back *)
(* --------------------------------------------------------------------- *)

(** C7.  The claim reads: del(k) on a live key returns the removed value
    and afterwards get(k) fails with KeyNotFound.  In the code [Del]
    removes only the first entry whose key matches.  After two writes of
    k, [Del] returns the first value and the following [Get] succeeds with
    the second. *)
Theorem C7_get_after_del_finds_second_entry
    (k v1 v2 : list byte) (mem : memDB) (w : world) (l : WriteAheadLog) :
  wal mem = Some l ->
  search k (data mem) = None ->
  let s2 := after_Set k v2 (after_Set k v1 (mem, w)) in
  let s3 := after_Del k s2 in
  fst (memDB_Del k (fst s2) (snd s2)) = Ok v1 /\
  fst (memDB_Get k (fst s3) (snd s3)) = Ok v2.
Proof.
  intros Hl Hk s2 s3.
  destruct (after_two_Sets k v1 v2 mem w l Hl) as (Hd & (l2 & Hl2) & _). fold s2 in Hd, Hl2.
  destruct (memDB_Del_first k v1 OpSet (data mem) [mkKV k v2 OpSet] (fst s2) (snd s2) l2
              Hl2 Hd Hk) as (l3 & w3 & E).
  subst s3. unfold after_Del. rewrite E. split; [reflexivity |].
  unfold memDB_Get. simpl. now rewrite search_app, Hk, search_here.
Qed.

Lemma C7_witness :
  let s2 := after_Set (bytes "k") (bytes "b") (after_Set (bytes "k") (bytes "a") sample_store) in
  let s3 := after_Del (bytes "k") s2 in
  fst (memDB_Del (bytes "k") (fst s2) (snd s2)) = Ok (bytes "a") /\
  fst (memDB_Get (bytes "k") (fst s3) (snd s3)) = Ok (bytes "b").
Proof.
  apply (C7_get_after_del_finds_second_entry (bytes "k") (bytes "a") (bytes "b")
           (fst sample_store) (snd sample_store)
           (mkWAL (mkFile "newal.log" 0 true false) 0)); reflexivity.
Defined.

(* --------------------------------------------------------------------- *)
(** ** The read loop of loadSSTFile terminates and only appends *)
(* --------------------------------------------------------------------- *)

Lemma takeZ_take {A} (n : Z) (l : list A) : takeZ n l = take (Z.to_nat n) l.
Proof.
  revert n. induction l as [| x l IH]; intros n; simpl.
  - now destruct (Z.to_nat n).
  - destruct (Z.leb_spec n 0) as [Hn | Hn].
    + now replace (Z.to_nat n) with O by lia.
    + replace (Z.to_nat n) with (S (Z.to_nat (n - 1))) by lia.
      simpl. now rewrite IH.
Qed.

Lemma dropZ_drop {A} (n : Z) (l : list A) : dropZ n l = drop (Z.to_nat n) l.
Proof.
  revert n. induction l as [| x l IH]; intros n; simpl.
  - now destruct (Z.to_nat n).
  - destruct (Z.leb_spec n 0) as [Hn | Hn].
    + now replace (Z.to_nat n) with O by lia.
    + replace (Z.to_nat n) with (S (Z.to_nat (n - 1))) by lia.
      simpl. now rewrite IH.
Qed.

Lemma Reader_Read_remaining (n : Z) (r r' : Reader) (got : list byte) :
  Reader_Read n r = (Some got, r') ->
  (remaining r' <= remaining r)%nat /\ (0 < n -> (remaining r' < remaining r)%nat).
Proof.
  unfold Reader_Read, remaining, defaultBufSize.
  rewrite !dropZ_drop, !takeZ_take.
  destruct (Z.leb_spec n 0) as [Hn | Hn].
  { intros [= _ <-]. split; [lia | intros; lia]. }
  destruct (buffered r) as [| b bs] eqn:Hb.
  - destruct (Z.leb_spec 4096 n) as [Hbig | Hsmall];
      destruct (unread r) as [| u us] eqn:Hu; try discriminate;
      intros [= _ <-]; cbn [buffered unread].
    + rewrite length_drop. cbn [length]. split; intros; lia.
    + rewrite !length_drop. cbn [length]. rewrite length_take. split; intros; lia.
  - intros [= _ <-]. cbn [buffered unread].
    rewrite length_drop. cbn [length]. split; intros; lia.
Qed.

(** Every round reads four bytes for the key length first, so it uses up
    at least one byte: fuel beyond the bytes left is never touched. *)
Lemma load_loop_total (fuel : nat) (r : Reader) (d : list KeyValue) :
  (remaining r < fuel)%nat -> exists d', load_loop fuel r d = Some d'.
Proof.
  revert r d. induction fuel as [| fuel IH]; intros r d Hf; [lia |].
  simpl.
  destruct (Reader_Read 4 r) as [[kl |] r1] eqn:E1; [| eauto].
  destruct (Reader_Read (Uint32 (filled 4 kl)) r1) as [[kd |] r2] eqn:E2; [| eauto].
  destruct (Reader_Read 4 r2) as [[vl |] r3] eqn:E3; [| eauto].
  destruct (Reader_Read (Uint32 (filled 4 vl)) r3) as [[vd |] r4] eqn:E4; [| eauto].
  apply IH.
  apply Reader_Read_remaining in E1, E2, E3, E4.
  destruct E1 as [_ E1]. specialize (E1 ltac:(lia)). lia.
Qed.

Lemma load_loop_app (fuel : nat) (r : Reader) (d : list KeyValue) :
  load_loop fuel r d = option_map (app d) (load_loop fuel r []).
Proof.
  revert r d. induction fuel as [| fuel IH]; intros r d; [reflexivity |].
  simpl.
  destruct (Reader_Read 4 r) as [[kl |] r1]; [| simpl; now rewrite app_nil_r].
  destruct (Reader_Read (Uint32 (filled 4 kl)) r1) as [[kd |] r2];
    [| simpl; now rewrite app_nil_r].
  destruct (Reader_Read 4 r2) as [[vl |] r3]; [| simpl; now rewrite app_nil_r].
  destruct (Reader_Read (Uint32 (filled 4 vl)) r3) as [[vd |] r4];
    [| simpl; now rewrite app_nil_r].
  rewrite (IH r4 (d ++ _)), (IH r4 [_]).
  destruct (load_loop fuel r4 []) as [es |]; simpl; [| reflexivity].
  now rewrite <- app_assoc.
Qed.

Lemma load_loop_entries (content : list byte) :
  load_loop (S (length content)) (mkReader [] content) [] = Some (load_entries content).
Proof.
  unfold load_entries, load_data.
  destruct (load_loop_total (S (length content)) (mkReader [] content) []) as [d' E].
  - unfold remaining. simpl. lia.
  - now rewrite E.
Qed.

(** The loop appends what it decodes to what [mem.data] already held. *)
Lemma load_data_app (content : list byte) (d : list KeyValue) :
  load_data content d = d ++ load_entries content.
Proof.
  unfold load_data. rewrite load_loop_app, load_loop_entries. reflexivity.
Qed.


(* --------------------------------------------------------------------- *)
(** ** C10: Get writes to the live collection *)
(* --------------------------------------------------------------------- *)



(** [Get] on that store fails, and yet the list of live entries has grown;
    as [sstFileLoaded] stays false a second [Get] appends the entry once
    more. *)
Lemma Get_is_not_read_only :
  let '(r1, mem1) := memDB_Get (bytes "zz") empty_memDB one_entry_world in
  let '(r2, mem2) := memDB_Get (bytes "zz") mem1 one_entry_world in
  r1 = Err ErrIntegrity /\
  data mem1 = [mkKV (bytes "a") (bytes "b") OpSet] /\
  data mem2 = [mkKV (bytes "a") (bytes "b") OpSet; mkKV (bytes "a") (bytes "b") OpSet].
Proof. vm_compute. repeat split. Qed.

(* --------------------------------------------------------------------- *)
(** ** Writing at an offset *)
(* --------------------------------------------------------------------- *)

Lemma len_app {A} (l1 l2 : list A) : len (l1 ++ l2) = len l1 + len l2.
Proof. unfold len. rewrite length_app. lia. Qed.

Lemma len_nonneg {A} (l : list A) : 0 <= len l.
Proof. unfold len. lia. Qed.

Lemma filled_exact (n : Z) (got : list byte) : n <= len got -> filled n got = got.
Proof.
  intros H. unfold filled. replace (Z.to_nat (n - len got)) with O by lia.
  apply app_nil_r.
Qed.

(** A write at the end of the file appends. *)
Lemma write_at_end (bs c : list byte) : write_at (len c) bs c = c ++ bs.
Proof.
  unfold write_at. rewrite takeZ_take, dropZ_drop. unfold len.
  rewrite Nat2Z.id, firstn_all, filled_exact by (unfold len; lia).
  rewrite drop_ge by lia. now rewrite app_nil_r.
Qed.

(** A write inside the file keeps its length unless it runs past the end. *)
Lemma len_write_at (pos : Z) (bs c : list byte) :
  0 <= pos <= len c -> len (write_at pos bs c) = Z.max (len c) (pos + len bs).
Proof.
  intros H. unfold write_at. rewrite takeZ_take, dropZ_drop.
  rewrite filled_exact by (unfold len in *; rewrite length_take; lia).
  unfold len in *. rewrite !length_app, length_take, length_drop. lia.
Qed.

(** A write at offset [pos] leaves the bytes before [pos] alone. *)
Lemma take_write_at (n : nat) (pos : Z) (bs c : list byte) :
  Z.of_nat n <= pos <= len c -> take n (write_at pos bs c) = take n c.
Proof.
  intros H. unfold write_at. rewrite takeZ_take.
  rewrite filled_exact by (unfold len in *; rewrite length_take; lia).
  rewrite take_app_le by (rewrite length_take; unfold len in *; lia).
  rewrite take_take. f_equal. lia.
Qed.

(* --------------------------------------------------------------------- *)
(** ** Insertion sort permutes *)
(* --------------------------------------------------------------------- *)

Lemma sift_Permutation {A} (less : A -> A -> bool) (x : A) (r : list A) :
  Permutation (sift less x r) (x :: r).
Proof.
  induction r as [| y r IH]; simpl; [reflexivity |].
  destruct (less x y); [| reflexivity].
  rewrite IH. apply perm_swap.
Qed.

Lemma insertionSort_Permutation {A} (less : A -> A -> bool) (l : list A) :
  Permutation (insertionSort less l) l.
Proof.
  unfold insertionSort.
  assert (G : forall acc, Permutation (fold_left (fun r x => sift less x r) l acc) (l ++ acc)).
  { induction l as [| x l IH]; intros acc; simpl; [reflexivity |].
    rewrite IH, sift_Permutation. symmetry. apply Permutation_middle. }
  rewrite <- Permutation_rev, G. now rewrite app_nil_r.
Qed.

Lemma sort_Slice_byKey_nonempty (l : list KeyValue) :
  l <> [] -> sort_Slice_byKey l <> [].
Proof.
  intros Hl Hs. apply Hl. apply Permutation_nil.
  rewrite <- Hs. apply (insertionSort_Permutation key_less).
Qed.

(* --------------------------------------------------------------------- *)
(** ** The bytes createSSTFile leaves on disk *)
(* --------------------------------------------------------------------- *)

Lemma file_Write_open_at (bs : list byte) (name : string) (pos : Z) (c : list byte) (w : world) :
  quota w = None ->
  file_Write bs (open_at name pos c w)
  = (Ok tt, open_at name (pos + len bs) (write_at pos bs c) w).
Proof.
  intros Hq. unfold file_Write, open_at. destruct w as [fs gp t q]. simpl in *. subst q.
  rewrite lookup_insert_eq. unfold set_files, set_quota. simpl.
  rewrite insert_insert_eq. now destruct bs.
Qed.

Lemma file_Write_append (bs : list byte) (name : string) (c : list byte) (w : world) :
  quota w = None ->
  file_Write bs (open_at name (len c) c w)
  = (Ok tt, open_at name (len (c ++ bs)) (c ++ bs) w).
Proof.
  intros Hq. rewrite file_Write_open_at, write_at_end, len_app by assumption. reflexivity.
Qed.

Lemma io_bind_Err {A B} (c : IO A) (k : A -> IO B) (s s' : File * world) (e : error) :
  c s = (Err e, s') -> io_bind c k s = (Err e, s').
Proof. intros H. unfold io_bind. now rewrite H. Qed.

Lemma io_bind_Ok {A B} (c : IO A) (k : A -> IO B) (s s' : File * world) (a : A) :
  c s = (Ok a, s') -> io_bind c k s = k a s'.
Proof. intros H. unfold io_bind. now rewrite H. Qed.

Lemma wrapping_Ok {A} (msg : string) (c : IO A) (s s' : File * world) (a : A) :
  c s = (Ok a, s') -> wrapping msg c s = (Ok a, s').
Proof. intros H. unfold wrapping. now rewrite H. Qed.

Lemma file_SeekStart_open_at (off : Z) (name : string) (pos : Z) (c : list byte) (w : world) :
  0 <= off ->
  file_SeekStart off (open_at name pos c w) = (Ok off, open_at name off c w).
Proof.
  intros H. unfold file_SeekStart, open_at. simpl.
  destruct (Z.ltb_spec off 0); [lia | reflexivity].
Qed.

Lemma tag_wrapped_append (what : string) (bs : list byte) (name : string) (c : list byte) (w : world) :
  quota w = None ->
  tag_wrapped what (file_Write bs) (open_at name (len c) c w)
  = (Ok tt, open_at name (len (c ++ bs)) (c ++ bs) w).
Proof.
  intros Hq. unfold tag_wrapped, wrapping. now rewrite file_Write_append.
Qed.

Lemma wrapping_append (msg : string) (bs : list byte) (name : string) (c : list byte) (w : world) :
  quota w = None ->
  wrapping msg (file_Write bs) (open_at name (len c) c w)
  = (Ok tt, open_at name (len (c ++ bs)) (c ++ bs) w).
Proof.
  intros Hq. unfold wrapping. now rewrite file_Write_append.
Qed.

Lemma write_entry_append (key value : list byte) (name : string) (c : list byte) (w : world) :
  quota w = None ->
  write_entry tag_wrapped key value (open_at name (len c) c w)
  = (Ok tt, open_at name (len (c ++ entry_bytes key value)) (c ++ entry_bytes key value) w).
Proof.
  intros Hq. unfold write_entry, entry_bytes.
  repeat (erewrite io_bind_Ok by (apply tag_wrapped_append; assumption)).
  rewrite tag_wrapped_append by assumption.
  now rewrite <- !app_assoc.
Qed.

Lemma write_entries_append (d : list KeyValue) (name : string) (c : list byte) (w : world) :
  quota w = None ->
  write_entries tag_wrapped d (open_at name (len c) c w)
  = (Ok tt, open_at name (len (c ++ entries_bytes d)) (c ++ entries_bytes d) w).
Proof.
  intros Hq. revert c. induction d as [| kv d IH]; intros c; cbn [write_entries].
  - unfold entries_bytes. simpl. now rewrite app_nil_r.
  - erewrite io_bind_Ok by (apply write_entry_append; assumption).
    rewrite IH. unfold entries_bytes. cbn [map concat].
    now rewrite <- !app_assoc.
Qed.

Lemma createSSTFile_body_image (d : list KeyValue) (name : string) (w : world) :
  d <> [] -> quota w = None ->
  createSSTFile_body d (open_at name 0 [] w)
  = (Ok tt, open_at name 18
              (write_at checksumOffset (putUint32 (calculateChecksum d))
                 (header_bytes d ++ entries_bytes d)) w).
Proof.
  intros Hd Hq. unfold createSSTFile_body.
  destruct (first_key d) as [sk |] eqn:Hfk; [| destruct d; [congruence | discriminate]].
  destruct (last_key d) as [lk |] eqn:Hlk.
  2:{ unfold last_key in Hlk. destruct (rev d) eqn:Hr; [| discriminate].
      apply (f_equal (@rev _)) in Hr. rewrite rev_involutive in Hr. simpl in Hr. congruence. }
  change (open_at name 0 [] w) with (open_at name (len (@nil byte)) [] w).
  repeat (erewrite io_bind_Ok by (apply wrapping_append; assumption)).
  erewrite io_bind_Ok by (apply write_entries_append; assumption).
  unfold header_bytes. rewrite Hfk, Hlk. simpl default.
  set (c := (((((((([] ++ _) ++ _) ++ _) ++ _) ++ _) ++ _) ++ _) ++ _) ++ _).
  assert (Hc : c = (putUint32 magicNumber ++ putUint16 version ++ putUint32 (uint32 (len d)) ++
                    putUint32 (uint32 (len sk)) ++ putUint32 (uint32 (len lk)) ++
                    putUint32 0 ++ putUint32 0 ++ putUint32 0) ++ entries_bytes d).
  { subst c. simpl app. reflexivity. }
  rewrite Hc. clear Hc c.
  erewrite io_bind_Ok
    by (apply wrapping_Ok, file_SeekStart_open_at; unfold checksumOffset; lia).
  apply wrapping_Ok, file_Write_open_at, Hq.
Qed.

(** [createSSTFile] on a device with room: the memtable is emptied and the
    segment named after the current second holds [segment_image]. *)
Lemma memDB_createSSTFile_ok (mem : memDB) (w : world) :
  data mem <> [] -> quota w = None ->
  memDB_createSSTFile mem w
  = (Ok tt, (set_data [] mem,
             set_files (<[sstFileName (now w) :=
                            segment_image (sort_Slice_byKey (data mem))]> (files w)) w)).
Proof.
  intros Hd Hq. unfold memDB_createSSTFile.
  destruct (Z.eqb_spec (len (data mem)) 0) as [E | _].
  { unfold len in E. destruct (data mem); [congruence | discriminate]. }
  unfold os_Create, with_file. cbv zeta iota beta.
  change (mkFile (sstFileName (now w)) 0 false false,
          set_files (<[sstFileName (now w) := []]> (files w)) w)
    with (open_at (sstFileName (now w)) 0 [] w).
  rewrite createSSTFile_body_image by (auto using sort_Slice_byKey_nonempty).
  unfold gzip_Close, ignoring, gzip_Close_chunks. cbn [write_all].
  repeat (erewrite io_bind_Ok by (apply file_Write_open_at; assumption)).
  reflexivity.
Qed.

(* --------------------------------------------------------------------- *)
(** ** Reading a segment back *)
(* --------------------------------------------------------------------- *)

Lemma takeZ_all {A} (n : Z) (l : list A) : len l <= n -> takeZ n l = l.
Proof. intros H. rewrite takeZ_take. apply take_ge. unfold len in H. lia. Qed.

Lemma dropZ_all {A} (n : Z) (l : list A) : len l <= n -> dropZ n l = [].
Proof. intros H. rewrite dropZ_drop. apply drop_ge. unfold len in H. lia. Qed.

(** The first read of a file that fits the buffer fetches all of it. *)
Lemma Reader_Read_fill (n : Z) (content : list byte) :
  0 < n < defaultBufSize -> content <> [] -> len content <= defaultBufSize ->
  Reader_Read n (mkReader [] content)
  = (Some (takeZ n content), mkReader (dropZ n content) []).
Proof.
  intros Hn Hc Hlen. unfold Reader_Read. cbn [buffered unread].
  destruct (Z.leb_spec n 0); [lia |].
  destruct (Z.leb_spec defaultBufSize n); [lia |].
  destruct content as [| b content']; [congruence |].
  now rewrite (takeZ_all defaultBufSize), (dropZ_all defaultBufSize) by assumption.
Qed.

(** A read larger than what is buffered returns the buffered bytes only. *)
Lemma Reader_Read_drain (n : Z) (buf : list byte) :
  buf <> [] -> len buf <= n ->
  Reader_Read n (mkReader buf []) = (Some buf, mkReader [] []).
Proof.
  intros Hb Hlen. unfold Reader_Read. cbn [buffered unread].
  destruct (Z.leb_spec n 0) as [Hn | Hn].
  { destruct buf; [congruence |]. unfold len in Hlen. simpl in Hlen. lia. }
  destruct buf as [| b buf'] eqn:E; [congruence |]. rewrite <- E in *.
  now rewrite takeZ_all, dropZ_all by assumption.
Qed.

Lemma Reader_Read_eof (n : Z) :
  0 < n < defaultBufSize -> Reader_Read n (mkReader [] []) = (None, mkReader [] []).
Proof.
  intros Hn. unfold Reader_Read. cbn [buffered unread].
  destruct (Z.leb_spec n 0); [lia |].
  destruct (Z.leb_spec defaultBufSize n); [lia | reflexivity].
Qed.

Lemma Uint32_magic : Uint32 (filled 4 (putUint32 magicNumber)) = 305419896.
Proof. vm_compute. reflexivity. Qed.

(** A file that starts with the magic number and fits the reader's buffer
    yields no entry: the loop takes the magic number for a key length of
    305419896, the key read drains the buffer, and the read of the value
    length meets the end of the file. *)
Lemma load_entries_magic (content : list byte) :
  takeZ 4 content = putUint32 magicNumber ->
  4 < len content <= defaultBufSize ->
  load_entries content = [].
Proof.
  intros Hm Hlen.
  pose proof (load_loop_entries content) as H.
  cbn [load_loop] in H.
  rewrite Reader_Read_fill in H; cycle 1.
  { unfold defaultBufSize. lia. }
  { intros ->. unfold len in Hlen. simpl in Hlen. lia. }
  { lia. }
  cbv iota beta in H. rewrite Hm, Uint32_magic in H.
  rewrite Reader_Read_drain in H; cycle 1.
  { intros E. apply (f_equal len) in E. rewrite dropZ_drop in E. unfold len in *.
    rewrite length_drop in E. simpl in E. lia. }
  { rewrite dropZ_drop. unfold len in *. rewrite length_drop.
    unfold defaultBufSize in Hlen. lia. }
  cbv iota beta in H.
  rewrite Reader_Read_eof in H by (unfold defaultBufSize; lia).
  congruence.
Qed.

Lemma len_header_bytes (d : list KeyValue) : len (header_bytes d) = 30.
Proof. reflexivity. Qed.

Lemma gzip_overlay_steps (c : list byte) :
  33 <= len c ->
  let c1 := write_at 18 [x1f; x8b; x08; x00; x00; x00; x00; x00; x00; xff] c in
  let c2 := write_at 28 [x01] c1 in
  let c3 := write_at 29 [x00; x00; xff; xff] c2 in
  len c1 = len c /\ len c2 = len c /\ len c3 = len c.
Proof.
  intros H c1 c2 c3.
  assert (H1 : len c1 = len c).
  { subst c1. rewrite len_write_at by lia.
    change (len [x1f; x8b; x08; x00; x00; x00; x00; x00; x00; xff]) with 10. lia. }
  assert (H2 : len c2 = len c).
  { subst c2. rewrite len_write_at by lia. change (len [x01]) with 1. lia. }
  assert (H3 : len c3 = len c).
  { subst c3. rewrite len_write_at by lia. change (len [x00; x00; xff; xff]) with 4. lia. }
  auto.
Qed.

Lemma len_gzip_overlay (c : list byte) :
  33 <= len c -> len (gzip_overlay c) = Z.max (len c) 41.
Proof.
  intros H. destruct (gzip_overlay_steps c H) as (H1 & H2 & H3).
  unfold gzip_overlay. rewrite len_write_at by lia. rewrite H3.
  change (len [x00; x00; x00; x00; x00; x00; x00; x00]) with 8. lia.
Qed.

Lemma take_gzip_overlay (n : nat) (c : list byte) :
  (n <= 18)%nat -> 33 <= len c -> take n (gzip_overlay c) = take n c.
Proof.
  intros Hn H. destruct (gzip_overlay_steps c H) as (H1 & H2 & H3).
  unfold gzip_overlay.
  rewrite take_write_at by lia. rewrite take_write_at by lia.
  rewrite take_write_at by lia. rewrite take_write_at by lia.
  reflexivity.
Qed.

Lemma len_entry_bytes (key value : list byte) :
  len (entry_bytes key value) = 8 + len key + len value.
Proof.
  unfold entry_bytes. rewrite !len_app.
  change (len (putUint32 (uint32 (len key)))) with 4.
  change (len (putUint32 (uint32 (len value)))) with 4. lia.
Qed.

Lemma len_entries_bytes_ge (d : list KeyValue) :
  d <> [] -> 8 <= len (entries_bytes d).
Proof.
  destruct d as [| kv d']; [congruence | intros _].
  unfold entries_bytes. cbn [map concat]. rewrite len_app, len_entry_bytes.
  pose proof (len_nonneg (Key kv)). pose proof (len_nonneg (Value kv)).
  pose proof (len_nonneg (concat (map (fun kv0 => entry_bytes (Key kv0) (Value kv0)) d'))).
  lia.
Qed.

(** The segment file is never shorter than 41 bytes and begins with the
    magic number whatever the entries are. *)
Lemma len_segment_image (d : list KeyValue) :
  d <> [] -> len (segment_image d) = Z.max (30 + len (entries_bytes d)) 41.
Proof.
  intros Hd. unfold segment_image.
  pose proof (len_entries_bytes_ge d Hd) as H8.
  assert (Hc : len (write_at checksumOffset (putUint32 (calculateChecksum d))
                      (header_bytes d ++ entries_bytes d)) = 30 + len (entries_bytes d)).
  { rewrite len_write_at; rewrite len_app, len_header_bytes; unfold checksumOffset.
    - change (len (putUint32 _)) with 4. lia.
    - lia. }
  rewrite len_gzip_overlay; rewrite Hc; lia.
Qed.

Lemma segment_image_magic (d : list KeyValue) :
  d <> [] -> takeZ 4 (segment_image d) = putUint32 magicNumber.
Proof.
  intros Hd. unfold segment_image.
  pose proof (len_entries_bytes_ge d Hd) as H8.
  rewrite takeZ_take. change (Z.to_nat 4) with 4%nat.
  rewrite take_gzip_overlay.
  - rewrite take_write_at; [reflexivity |].
    rewrite len_app, len_header_bytes. unfold checksumOffset. lia.
  - lia.
  - rewrite len_write_at; rewrite len_app, len_header_bytes; unfold checksumOffset.
    + change (len (putUint32 _)) with 4. lia.
    + lia.
Qed.

(** Reading a file that starts with the magic number and fits the buffer
    into an empty memtable: nothing is loaded, and the verdict is that of
    comparing the last four bytes of the file with the checksum of no data,
    which is zero. *)
Lemma memDB_loadSSTFile_magic (name : string) (mem0 : memDB) (w : world) (content : list byte) :
  data mem0 = [] -> sstFileLoaded mem0 = false ->
  files w !! name = Some content ->
  takeZ 4 content = putUint32 magicNumber ->
  4 < len content <= defaultBufSize ->
  memDB_loadSSTFile name mem0 w
  = if Uint32 (dropZ (len content - 4) content) =? 0
    then (Ok tt, set_sstFileLoaded true (set_data [] mem0))
    else (Err ErrIntegrity, set_data [] mem0).
Proof.
  intros Hd Hl Hf Hm Hlen. unfold memDB_loadSSTFile. rewrite Hl, Hf.
  destruct (Z.ltb_spec (len content) 4) as [? | _]; [lia |].
  rewrite load_data_app, Hd, (load_entries_magic content Hm Hlen). simpl app.
  cbn [data set_data]. change (calculateChecksum []) with 0.
  rewrite (Z.eqb_sym 0). now destruct (_ =? 0).
Qed.

(* --------------------------------------------------------------------- *)
(** ** C2: a written segment does not read back *)
(* --------------------------------------------------------------------- *)

(** C2.  The claim reads: writing entries as a segment and reading that
    segment back into an empty memtable yields the same entries, sorted.
    In the code [createSSTFile] puts a 30-byte header before the entries
    while [loadSSTFile] decodes entries from offset 0, so the magic number
    is taken for a key length.  For every non-empty memtable whose segment
    fits the reader's buffer of 4096 bytes, the write succeeds and the
    read-back loads no entry at all. *)
Theorem C2_segment_read_back_loads_nothing (mem mem0 : memDB) (w : world) :
  data mem <> [] ->
  quota w = None ->
  len (segment_image (sort_Slice_byKey (data mem))) <= defaultBufSize ->
  data mem0 = [] -> sstFileLoaded mem0 = false ->
  let written := memDB_createSSTFile mem w in
  let w1 := snd (snd written) in
  let read := memDB_loadSSTFile (sstFileName (now w1)) mem0 w1 in
  fst written = Ok tt /\
  files w1 !! sstFileName (now w1) = Some (segment_image (sort_Slice_byKey (data mem))) /\
  data (snd read) = [] /\
  data (snd read) <> sort_Slice_byKey (data mem).
Proof.
  intros Hd Hq Hlen Hd0 Hl0. cbv zeta.
  rewrite (memDB_createSSTFile_ok mem w Hd Hq). cbn [fst snd].
  pose proof (sort_Slice_byKey_nonempty _ Hd) as Hs.
  assert (Hf : files (set_files (<[sstFileName (now w) :=
                        segment_image (sort_Slice_byKey (data mem))]> (files w)) w)
               !! sstFileName (now w)
               = Some (segment_image (sort_Slice_byKey (data mem)))).
  { unfold set_files. simpl. apply lookup_insert_eq. }
  change (now (set_files _ w)) with (now w).
  split; [reflexivity |]. split; [exact Hf |].
  rewrite (memDB_loadSSTFile_magic _ mem0 _ _ Hd0 Hl0 Hf (segment_image_magic _ Hs)).
  - destruct (_ =? 0); cbn [snd data set_data set_sstFileLoaded]; split; congruence.
  - rewrite (len_segment_image _ Hs) in *. lia.
Qed.

Lemma C2_witness :
  let written := memDB_createSSTFile test_memDB sample_world in
  let w1 := snd (snd written) in
  let read := memDB_loadSSTFile (sstFileName (now w1)) empty_memDB w1 in
  fst written = Ok tt /\
  files w1 !! sstFileName (now w1)
    = Some (segment_image (sort_Slice_byKey (data test_memDB))) /\
  data (snd read) = [] /\
  data (snd read) <> sort_Slice_byKey (data test_memDB).
Proof.
  apply (C2_segment_read_back_loads_nothing test_memDB empty_memDB sample_world).
  - discriminate.
  - reflexivity.
  - vm_compute. discriminate.
  - reflexivity.
  - reflexivity.
Defined.

(** On the test data the read-back fails the integrity check. *)
Lemma test_segment_read_back :
  let w1 := snd (snd (memDB_createSSTFile test_memDB sample_world)) in
  memDB_loadSSTFile (sstFileName (now w1)) empty_memDB w1 = (Err ErrIntegrity, empty_memDB).
Proof. vm_compute. reflexivity. Qed.

(* --------------------------------------------------------------------- *)
(** ** C8: a flipped payload byte can pass the integrity check *)
(* --------------------------------------------------------------------- *)

Lemma len_flip_byte (i : nat) (content : list byte) :
  len (flip_byte i content) = len content.
Proof. unfold len, flip_byte. now rewrite length_alter. Qed.

(** On a file that starts with the magic number and fits the buffer, a
    flip after the magic number and before the last four bytes does not
    change what [loadSSTFile] does. *)
Lemma memDB_loadSSTFile_ignores_flip (name : string) (mem0 : memDB) (w : world)
    (content : list byte) (i : nat) :
  data mem0 = [] -> sstFileLoaded mem0 = false ->
  files w !! name = Some content ->
  takeZ 4 content = putUint32 magicNumber ->
  4 < len content <= defaultBufSize ->
  4 <= Z.of_nat i < len content - 4 ->
  memDB_loadSSTFile name mem0
    (set_files (<[name := flip_byte i content]> (files w)) w)
  = memDB_loadSSTFile name mem0 w.
Proof.
  intros Hd Hl Hf Hm Hlen Hi.
  rewrite (memDB_loadSSTFile_magic name mem0 w content Hd Hl Hf Hm Hlen).
  rewrite (memDB_loadSSTFile_magic name mem0 _ (flip_byte i content) Hd Hl).
  - rewrite len_flip_byte. unfold flip_byte.
    rewrite !dropZ_drop, drop_alter_lt by lia. reflexivity.
  - unfold set_files. cbn [files]. apply lookup_insert_eq.
  - rewrite <- Hm, !takeZ_take. unfold flip_byte. apply take_alter_ge. lia.
  - now rewrite len_flip_byte.
Qed.

(** C8.  The claim reads: flipping any single byte of the payload of a
    written segment makes the next read fail with a checksum mismatch.  In
    the code [loadSSTFile] takes the last four bytes of the file for the
    stored checksum, although [createSSTFile] stored it at offset 14, and
    compares them with the checksum of what it decoded from offset 0.  For
    every segment written by [createSSTFile] that fits the reader's buffer
    and every byte of its payload (offset 30 onwards) outside the last four
    bytes of the file, the read of the segment with that byte flipped does
    exactly what the read of the intact segment does. *)
Theorem C8_payload_flip_does_not_change_the_verdict
    (mem mem0 : memDB) (w : world) (i : nat) :
  data mem <> [] ->
  quota w = None ->
  len (segment_image (sort_Slice_byKey (data mem))) <= defaultBufSize ->
  data mem0 = [] -> sstFileLoaded mem0 = false ->
  30 <= Z.of_nat i < len (segment_image (sort_Slice_byKey (data mem))) - 4 ->
  let name := sstFileName (now w) in
  let w1 := snd (snd (memDB_createSSTFile mem w)) in
  let corrupted :=
    set_files (<[name := flip_byte i (segment_image (sort_Slice_byKey (data mem)))]>
                 (files w1)) w1 in
  fst (memDB_createSSTFile mem w) = Ok tt /\
  files w1 !! name = Some (segment_image (sort_Slice_byKey (data mem))) /\
  memDB_loadSSTFile name mem0 corrupted = memDB_loadSSTFile name mem0 w1.
Proof.
  intros Hd Hq Hlen Hd0 Hl0 Hi. cbv zeta.
  rewrite (memDB_createSSTFile_ok mem w Hd Hq). cbn [fst snd].
  pose proof (sort_Slice_byKey_nonempty _ Hd) as Hs.
  assert (Hf : files (set_files (<[sstFileName (now w) :=
                        segment_image (sort_Slice_byKey (data mem))]> (files w)) w)
               !! sstFileName (now w)
               = Some (segment_image (sort_Slice_byKey (data mem)))).
  { unfold set_files. cbn [files]. apply lookup_insert_eq. }
  split; [reflexivity |]. split; [exact Hf |].
  apply memDB_loadSSTFile_ignores_flip; try assumption.
  - now apply segment_image_magic.
  - rewrite (len_segment_image _ Hs) in *. lia.
  - lia.
Qed.

(** The segment of an entry whose value ends in four zero bytes passes
    the check, and still passes with the value byte at offset 42 flipped. *)
Lemma C8_witness :
  let name := sstFileName (now sample_world) in
  let w1 := snd (snd (memDB_createSSTFile zero_memDB sample_world)) in
  let corrupted :=
    set_files (<[name := flip_byte 42 (segment_image (sort_Slice_byKey (data zero_memDB)))]>
                 (files w1)) w1 in
  (fst (memDB_createSSTFile zero_memDB sample_world) = Ok tt /\
   files w1 !! name = Some (segment_image (sort_Slice_byKey (data zero_memDB))) /\
   memDB_loadSSTFile name empty_memDB corrupted = memDB_loadSSTFile name empty_memDB w1) /\
  flip_byte 42 (segment_image (sort_Slice_byKey (data zero_memDB)))
  <> segment_image (sort_Slice_byKey (data zero_memDB)) /\
  memDB_loadSSTFile name empty_memDB corrupted = (Ok tt, set_sstFileLoaded true empty_memDB).
Proof.
  split.
  - apply (C8_payload_flip_does_not_change_the_verdict zero_memDB empty_memDB sample_world 42).
    + discriminate.
    + reflexivity.
    + vm_compute. discriminate.
    + reflexivity.
    + reflexivity.
    + vm_compute. split; [discriminate | reflexivity].
  - vm_compute. split; [discriminate | reflexivity].
Defined.

(** A flip in the last four bytes is not caught either when it turns them
    into zeroes: the segment written for the entry (k, 00 00 00 ff) is 43
    bytes long, and with its last byte flipped [loadSSTFile] returns nil
    and marks the segment as loaded. *)
Lemma flipped_last_byte_is_accepted :
  fst (memDB_createSSTFile ff_memDB sample_world) = Ok tt /\
  len ff_segment = 43 /\
  let corrupted := set_files (<[sstFileName 1700000000 := flip_byte 42 ff_segment]>
                                (files ff_world)) ff_world in
  flip_byte 42 ff_segment <> ff_segment /\
  memDB_loadSSTFile (sstFileName 1700000000) empty_memDB corrupted
  = (Ok tt, set_sstFileLoaded true empty_memDB).
Proof. vm_compute. repeat split; discriminate. Qed.

(* --------------------------------------------------------------------- *)
(** ** C9: segment names follow the wall clock *)
(* --------------------------------------------------------------------- *)

(** The names are injective in the second, and two flushes within one
    second share a name.  What two flushes in different seconds leave on
    disk is stated after the lemmas on [flushToSST]. *)

Lemma string_length_app (a b : string) :
  String.length (a +:+ b) = (String.length a + String.length b)%nat.
Proof. induction a as [| c a IH]; simpl; [reflexivity | now rewrite IH]. Qed.

Lemma string_app_inj_r (a b s : string) : a +:+ s = b +:+ s -> a = b.
Proof.
  revert b. induction a as [| c a IH]; intros [| c' b] H.
  - reflexivity.
  - apply (f_equal String.length) in H.
    rewrite !string_length_app in H. simpl in H. lia.
  - apply (f_equal String.length) in H.
    rewrite !string_length_app in H. simpl in H. lia.
  - simpl in H. injection H as -> H. f_equal. now apply IH.
Qed.

Lemma decimal_inj (t1 t2 : Z) : decimal t1 = decimal t2 -> t1 = t2.
Proof.
  unfold decimal. intros H.
  assert (E : Some (Z.to_int t1) = Some (Z.to_int t2)).
  { rewrite <- !NilEmpty.isi. now rewrite H. }
  injection E as E. rewrite <- (DecimalZ.of_to t1), <- (DecimalZ.of_to t2). now rewrite E.
Qed.

Lemma sstFileName_inj (t1 t2 : Z) : sstFileName t1 = sstFileName t2 -> t1 = t2.
Proof.
  unfold sstFileName. intros H. apply (String.app_inj "file_") in H.
  apply string_app_inj_r in H. now apply decimal_inj.
Qed.

Lemma flushFileName_inj (t1 t2 : Z) : flushFileName t1 = flushFileName t2 -> t1 = t2.
Proof.
  unfold flushFileName. intros H. apply (String.app_inj "file") in H.
  apply string_app_inj_r in H. now apply decimal_inj.
Qed.

(** Both calls of [createSSTFile] succeed within second 1700000000; the
    name is the same, the second call truncates the file of the first, and
    the only file left holds the second memtable. *)
Lemma C9_counterexample :
  let w1 := snd (snd (memDB_createSSTFile first_memDB sample_world)) in
  let w2 := snd (snd (memDB_createSSTFile second_memDB w1)) in
  fst (memDB_createSSTFile first_memDB sample_world) = Ok tt /\
  fst (memDB_createSSTFile second_memDB w1) = Ok tt /\
  now w1 = now sample_world /\
  map_to_list (files w2) = [(sstFileName 1700000000, segment_image (data second_memDB))] /\
  ~ flushes_write_distinct_files first_memDB second_memDB sample_world.
Proof.
  cbv zeta. split; [| split; [| split; [| split]]]; try (vm_compute; reflexivity).
  intros (Hne & _). apply Hne. reflexivity.
Qed.

(** Whatever the two memtables hold, a second flush in the same second
    replaces the segment of the first. *)
Lemma createSSTFile_twice_same_second (mem1 mem2 : memDB) (w : world) :
  data mem1 <> [] -> data mem2 <> [] -> quota w = None ->
  let w1 := snd (snd (memDB_createSSTFile mem1 w)) in
  let w2 := snd (snd (memDB_createSSTFile mem2 w1)) in
  files w2 = <[sstFileName (now w) := segment_image (sort_Slice_byKey (data mem2))]> (files w).
Proof.
  intros H1 H2 Hq. cbv zeta.
  rewrite (memDB_createSSTFile_ok mem1 w H1 Hq). cbn [snd].
  rewrite memDB_createSSTFile_ok by assumption. cbn [snd].
  unfold set_files. simpl. apply insert_insert_eq.
Qed.

(* --------------------------------------------------------------------- *)
(** ** Compaction: what mergeSSTFiles reads, keeps and removes *)
(* --------------------------------------------------------------------- *)

Lemma lookup_fold_put (es : list KeyValue) (m : gmap string string) (k : string) :
  fold_left put es m !! k =
  match last_value k es with
  | Some v => Some v
  | None => m !! k
  end.
Proof.
  revert m. induction es as [| kv es IH]; intros m; simpl; [reflexivity |].
  rewrite IH. destruct (last_value k es) as [v |]; [reflexivity |].
  unfold put. destruct (String.eqb_spec (string_of_list_byte (Key kv)) k) as [-> | Hne].
  - apply lookup_insert_eq.
  - now apply lookup_insert_ne.
Qed.

Lemma remove_names_lookup_other (names : list string) (fs : gmap string (list byte)) (n : string) :
  n ∉ names -> remove_names names fs !! n = fs !! n.
Proof.
  revert fs. induction names as [| a names IH]; intros fs Hn; simpl; [reflexivity |].
  apply not_elem_of_cons in Hn as [Hne Hn].
  rewrite IH by assumption. now apply lookup_delete_ne.
Qed.

Lemma remove_names_lookup (names : list string) (fs : gmap string (list byte)) (n : string) :
  n ∈ names -> remove_names names fs !! n = None.
Proof.
  revert fs. induction names as [| a names IH]; intros fs Hn; simpl.
  - now apply elem_of_nil in Hn.
  - destruct (decide (n ∈ names)) as [Hin | Hnotin]; [now apply IH |].
    apply elem_of_cons in Hn as [-> | Hin]; [| contradiction].
    rewrite remove_names_lookup_other by assumption. apply lookup_delete_eq.
Qed.

Lemma remove_names_insert (names : list string) (fs : gmap string (list byte))
    (n : string) (c : list byte) :
  n ∉ names -> remove_names names (<[n := c]> fs) = <[n := c]> (remove_names names fs).
Proof.
  revert fs. induction names as [| a names IH]; intros fs Hn; simpl; [reflexivity |].
  apply not_elem_of_cons in Hn as [Hne Hn].
  rewrite delete_insert_ne by congruence. now apply IH.
Qed.

Lemma write_entry_plain_append (key value : list byte) (name : string) (c : list byte) (w : world) :
  quota w = None ->
  write_entry tag_plain key value (open_at name (len c) c w)
  = (Ok tt, open_at name (len (c ++ entry_bytes key value)) (c ++ entry_bytes key value) w).
Proof.
  intros Hq. unfold write_entry, entry_bytes, tag_plain.
  repeat (erewrite io_bind_Ok by (apply file_Write_append; assumption)).
  rewrite file_Write_append by assumption.
  now rewrite <- !app_assoc.
Qed.

Section CompactionProperties.

Variable json_Unmarshal : list byte -> option KeyValue.
Variable range_order : gmap string string -> list (string * string).

Lemma merge_lines_decoded (lines : list (list byte)) (m : gmap string string) :
  merge_lines json_Unmarshal lines m = option_map (fun es => fold_left put es m) (decode_lines json_Unmarshal lines)
  \/ (merge_lines json_Unmarshal lines m = None /\ decode_lines json_Unmarshal lines = None).
Proof.
  revert m. induction lines as [| line lines IH]; intros m; simpl; [now left |].
  destruct (json_Unmarshal line) as [kv |]; [| now right].
  destruct (IH (<[string_of_list_byte (Key kv) := string_of_list_byte (Value kv)]> m))
    as [E | [E1 E2]].
  - left. rewrite E. now destruct (decode_lines json_Unmarshal lines).
  - right. now rewrite E1, E2.
Qed.

Lemma merge_file_ok (name : string) (m : gmap string string) (f : File) (w : world)
    (content : list byte) (es : list KeyValue) :
  files w !! name = Some content ->
  segment_of json_Unmarshal content = Some es ->
  merge_file json_Unmarshal name m (f, w)
  = (Ok (fold_left put es m), (f, set_files (delete name (files w)) w)).
Proof.
  intros Hf Hs. unfold merge_file, segment_of in *. rewrite Hf.
  destruct (scan_lines content) as [lines [e |]]; [discriminate |].
  destruct (merge_lines_decoded lines m) as [E | [_ E]]; [| congruence].
  rewrite E, Hs. simpl. unfold os_Remove. now rewrite Hf.
Qed.

Lemma merge_file_refused (name : string) (m : gmap string string) (f : File) (w : world)
    (content : list byte) :
  files w !! name = Some content ->
  segment_of json_Unmarshal content = None ->
  exists e, merge_file json_Unmarshal name m (f, w) = (Err e, (f, w)).
Proof.
  intros Hf Hs. unfold merge_file, segment_of in *. rewrite Hf.
  destruct (scan_lines content) as [lines [e |]].
  - destruct (merge_lines json_Unmarshal lines m); eauto.
  - destruct (merge_lines_decoded lines m) as [E | [E _]]; rewrite E; [| eauto].
    rewrite Hs. simpl. eauto.
Qed.

(** The first loop when every file is there and decodes.  [fs0] is the
    directory the sources are described in; the current one agrees with
    it on the sources. *)
Lemma merge_files_ok (names : list string) (ess : list (list KeyValue))
    (m : gmap string string) (f : File) (w : world) (fs0 : gmap string (list byte)) :
  NoDup names ->
  Forall2 (fun name es => exists content,
               fs0 !! name = Some content /\ segment_of json_Unmarshal content = Some es) names ess ->
  (forall n, n ∈ names -> files w !! n = fs0 !! n) ->
  merge_files json_Unmarshal names m (f, w)
  = (Ok (fold_left put (concat ess) m), (f, set_files (remove_names names (files w)) w)).
Proof.
  revert ess m w. induction names as [| a names IH]; intros ess m w Hnd Hall Hw.
  - apply Forall2_nil_inv_l in Hall as ->. simpl. unfold io_ret. now destruct w.
  - apply Forall2_cons_inv_l in Hall as (es & ess' & (content & Hf & Hs) & Hall & ->).
    apply NoDup_cons in Hnd as [Hnotin Hnd].
    cbn [merge_files].
    erewrite io_bind_Ok.
    2:{ apply merge_file_ok with (content := content); [| exact Hs].
        rewrite Hw by now left. exact Hf. }
    rewrite (IH ess'); [| exact Hnd | exact Hall |].
    + cbn [concat]. rewrite fold_left_app. reflexivity.
    + intros n Hn. unfold set_files. cbn [files].
      rewrite lookup_delete_ne by (intros ->; contradiction).
      apply Hw. now right.
Qed.

Lemma write_merged_append (pairs : list (string * string)) (name : string)
    (c : list byte) (w : world) :
  quota w = None ->
  write_merged pairs (open_at name (len c) c w)
  = (Ok tt, open_at name (len (c ++ pairs_bytes pairs)) (c ++ pairs_bytes pairs) w).
Proof.
  intros Hq. revert c. induction pairs as [| [k v] pairs IH]; intros c; cbn [write_merged].
  - unfold pairs_bytes. simpl. now rewrite app_nil_r.
  - erewrite io_bind_Ok by (apply write_entry_plain_append; assumption).
    rewrite IH. unfold pairs_bytes. cbn [map concat fst snd].
    now rewrite <- !app_assoc.
Qed.

(** [mergeSSTFiles] when every source is there and decodes, the new
    name is not one of the sources and the device has room. *)
Lemma mergeSSTFiles_ok (names : list string) (ess : list (list KeyValue))
    (new : string) (w : world) :
  NoDup names -> new ∉ names -> quota w = None ->
  Forall2 (fun name es => exists content,
               files w !! name = Some content /\ segment_of json_Unmarshal content = Some es) names ess ->
  mergeSSTFiles json_Unmarshal range_order names new w
  = (Ok tt,
     set_files (<[new := pairs_bytes (range_order (fold_left put (concat ess) ∅))]>
                  (remove_names names (files w))) w).
Proof.
  intros Hnd Hnew Hq Hall. unfold mergeSSTFiles, os_Create, with_file.
  erewrite io_bind_Ok.
  2:{ apply (merge_files_ok names ess ∅ _ _ (files w) Hnd Hall).
      intros n Hn. unfold set_files. cbn [files].
      apply lookup_insert_ne. intros ->. contradiction. }
  change (files (set_files (<[new := []]> (files w)) w)) with (<[new := []]> (files w)).
  rewrite remove_names_insert by assumption.
  replace (mkFile new 0 false false,
           set_files (<[new := []]> (remove_names names (files w)))
             (set_files (<[new := []]> (files w)) w))
    with (open_at new (len (@nil byte)) []
            (set_files (remove_names names (files w)) w)) by reflexivity.
  rewrite write_merged_append by exact Hq.
  reflexivity.
Qed.

(* ------------------------------------------------------------------- *)
(** *** C3: a source is removed before the merged file is written *)
(* ------------------------------------------------------------------- *)

(** C3.  The claim reads: compaction deletes an input segment only after
    the merged segment has been fully written, so a failure during the
    merge leaves every source intact (the comment in [compactSSTFiles]
    says the same: the small files go after successful compaction).  In
    the code the first loop of [mergeSSTFiles] removes each source as
    soon as it has been read, before anything is written to the new
    file.  When the first source decodes and the second does not, the
    merge returns the error, the first source is gone, the new file is
    empty and the entries of the first source are nowhere on disk. *)
Theorem C3_failed_merge_has_removed_a_source
    (a b : string) (rest : list string) (new : string) (w : world)
    (ca cb : list byte) (esa : list KeyValue) :
  a <> new -> b <> new -> a <> b ->
  files w !! a = Some ca -> segment_of json_Unmarshal ca = Some esa ->
  files w !! b = Some cb -> segment_of json_Unmarshal cb = None ->
  let out := mergeSSTFiles json_Unmarshal range_order (a :: b :: rest) new w in
  (exists e, fst out = Err e) /\
  files (snd out) !! a = None /\
  files (snd out) !! b = Some cb /\
  files (snd out) !! new = Some [].
Proof.
  intros Han Hbn Hab Hfa Hsa Hfb Hsb. cbv zeta.
  set (w1 := set_files (<[new := []]> (files w)) w).
  set (s1 := (mkFile new 0 false false, set_files (delete a (files w1)) w1)).
  destruct (merge_file_refused b (fold_left put esa ∅) (fst s1) (snd s1) cb) as [e He].
  { subst s1 w1. unfold set_files. cbn [files snd].
    rewrite lookup_delete_ne, lookup_insert_ne by congruence. exact Hfb. }
  { exact Hsb. }
  assert (Hm : merge_files json_Unmarshal (a :: b :: rest) ∅ (mkFile new 0 false false, w1)
               = (Err e, s1)).
  { cbn [merge_files].
    erewrite io_bind_Ok.
    2:{ apply merge_file_ok with (content := ca); [| exact Hsa].
        subst w1. unfold set_files. cbn [files]. now rewrite lookup_insert_ne by congruence. }
    apply io_bind_Err. exact He. }
  unfold mergeSSTFiles, os_Create, with_file. fold w1.
  rewrite (io_bind_Err _ _ _ _ _ Hm).
  subst s1 w1. unfold io_ret, set_files. cbn [fst snd files].
  repeat split.
  - eauto.
  - apply lookup_delete_eq.
  - rewrite lookup_delete_ne, lookup_insert_ne by congruence. exact Hfb.
  - rewrite lookup_delete_ne by congruence. apply lookup_insert_eq.
Qed.

(* ------------------------------------------------------------------- *)
(** *** C4: what a successful merge writes *)
(* ------------------------------------------------------------------- *)

(** C4, amended.  When all the sources exist and decode, the merge keeps
    for every key the value of the last entry read for it, sources in the
    order given and lines from top to bottom, so that the later source
    wins; the operation of an entry is not looked at, a Delete entry is
    kept like any other; every key is written exactly once.  The order in
    which the entries are written is not part of the statement. *)
Theorem C4_merge_keeps_the_last_value_of_every_key
    (names : list string) (ess : list (list KeyValue)) (new : string) (w : world) :
  (forall m, range_order m ≡ₚ map_to_list m) ->
  NoDup names -> new ∉ names -> quota w = None ->
  Forall2 (fun name es => exists content,
               files w !! name = Some content /\ segment_of json_Unmarshal content = Some es) names ess ->
  exists pairs : list (string * string),
    mergeSSTFiles json_Unmarshal range_order names new w
    = (Ok tt, set_files (<[new := pairs_bytes pairs]> (remove_names names (files w))) w) /\
    NoDup (map fst pairs) /\
    (forall k v, (k, v) ∈ pairs <-> last_value k (concat ess) = Some v).
Proof.
  intros Hperm Hnd Hnew Hq Hall.
  exists (range_order (fold_left put (concat ess) ∅)).
  split; [now apply mergeSSTFiles_ok |].
  split.
  - rewrite (Hperm _). apply NoDup_fst_map_to_list.
  - intros k v. rewrite (Hperm _), elem_of_map_to_list, lookup_fold_put, lookup_empty.
    now destruct (last_value k (concat ess)).
Qed.

End CompactionProperties.

(* --------------------------------------------------------------------- *)
(** ** C3 and C4 on concrete segments *)
(* --------------------------------------------------------------------- *)

Lemma C3_witness :
  let out := mergeSSTFiles json_decode map_to_list ["a.sst"; "b.sst"] "merged.sst" mixed_world in
  (exists e, fst out = Err e) /\
  files (snd out) !! "a.sst" = None /\
  files (snd out) !! "b.sst" = Some ff_segment /\
  files (snd out) !! "merged.sst" = Some [].
Proof.
  apply (C3_failed_merge_has_removed_a_source json_decode map_to_list
           "a.sst" "b.sst" [] "merged.sst" mixed_world
           (json_file [k1v1; k2v2]) ff_segment [k1v1; k2v2]).
  - discriminate.
  - discriminate.
  - discriminate.
  - reflexivity.
  - vm_compute. reflexivity.
  - reflexivity.
  - vm_compute. reflexivity.
Defined.

Lemma C4_witness :
  exists pairs : list (string * string),
    mergeSSTFiles json_decode map_to_list ["a.sst"; "b.sst"] "merged.sst" example_world
    = (Ok tt, set_files (<["merged.sst" := pairs_bytes pairs]>
                           (remove_names ["a.sst"; "b.sst"] (files example_world)))
                example_world) /\
    NoDup (map fst pairs) /\
    (forall k v, (k, v) ∈ pairs <-> last_value k (concat [[k1v1; k2v2]; [k2v3; k3v4]]) = Some v).
Proof.
  apply (C4_merge_keeps_the_last_value_of_every_key json_decode map_to_list
           ["a.sst"; "b.sst"] [[k1v1; k2v2]; [k2v3; k3v4]] "merged.sst" example_world).
  - intros m. reflexivity.
  - compute_done.
  - compute_done.
  - reflexivity.
  - repeat constructor.
    + exists (json_file [k1v1; k2v2]). split; [reflexivity | vm_compute; reflexivity].
    + exists (json_file [k2v3; k3v4]). split; [reflexivity | vm_compute; reflexivity].
Defined.

(** On the example the map holds k1:v1, k2:v3 and k3:v4, and the file
    holds them in the order of the range loop. *)
Lemma example_merge (range_order : gmap string string -> list (string * string)) :
  mergeSSTFiles json_decode range_order ["a.sst"; "b.sst"] "merged.sst" example_world
  = (Ok tt,
     World {["merged.sst" :=
              pairs_bytes (range_order {["k1" := "v1"; "k2" := "v3"; "k3" := "v4"]})]}
       None 1700000000 None).
Proof.
  rewrite (mergeSSTFiles_ok json_decode range_order ["a.sst"; "b.sst"]
             [[k1v1; k2v2]; [k2v3; k3v4]]).
  - replace (fold_left put (concat [[k1v1; k2v2]; [k2v3; k3v4]]) ∅)
      with ({["k1" := "v1"; "k2" := "v3"; "k3" := "v4"]} : gmap string string)
      by (vm_compute; reflexivity).
    replace (remove_names ["a.sst"; "b.sst"] (files example_world))
      with (∅ : gmap string (list byte)) by (vm_compute; reflexivity).
    reflexivity.
  - compute_done.
  - compute_done.
  - reflexivity.
  - repeat constructor.
    + exists (json_file [k1v1; k2v2]). split; [reflexivity | vm_compute; reflexivity].
    + exists (json_file [k2v3; k3v4]). split; [reflexivity | vm_compute; reflexivity].
Qed.

(** The claim of C4 as it is written fails on a tombstone: the
    specification's merge of {k1:v1, k2:v2} with the newer {k2: Delete}
    is {k1:v1}, while [mergeSSTFiles] writes k1 and k2, two entries in
    whatever order the map is ranged over. *)
Lemma C4_counterexample :
  let out := mergeSSTFiles json_decode map_to_list ["a.sst"; "b.sst"] "merged.sst"
               tombstone_world in
  fst out = Ok tt /\
  spec_merge [[k1v1; k2v2]; [k2_deleted]] = [k1v1] /\
  files (snd out) !! "merged.sst" = Some (entries_bytes [k1v1; k2v2]) /\
  files (snd out) !! "merged.sst" <> Some (entries_bytes (spec_merge [[k1v1; k2v2]; [k2_deleted]])).
Proof. vm_compute. repeat split. discriminate. Qed.

(* --------------------------------------------------------------------- *)
(** ** Flush keeps the memtable when the segment cannot be written *)
(* --------------------------------------------------------------------- *)

(** [createSSTFile] empties [mem.data] on the path that returns nil only;
    on every other path the entries are still there, sorted. *)
Lemma createSSTFile_error_keeps_entries (mem : memDB) (w : world) :
  fst (memDB_createSSTFile mem w) <> Ok tt ->
  data (fst (snd (memDB_createSSTFile mem w))) = sort_Slice_byKey (data mem) /\
  Permutation (data (fst (snd (memDB_createSSTFile mem w)))) (data mem).
Proof.
  unfold memDB_createSSTFile.
  destruct (len (data mem) =? 0); [simpl; congruence |].
  destruct (os_Create (sstFileName (now w)) w) as [f w1].
  destruct (with_file f (createSSTFile_body (sort_Slice_byKey (data mem))) gzip_Close w1)
    as [[[] | e | m] w2]; simpl; intros H; try congruence;
    (split; [reflexivity | apply (insertionSort_Permutation key_less)]).
Qed.

(** With a device that takes two more writes the flush fails after the
    magic number and the version; the memtable still holds the entries. *)
Lemma createSSTFile_on_full_device :
  let out := memDB_createSSTFile test_memDB (set_quota (Some 2%nat) sample_world) in
  fst out = Err (Errorf "error writing entry count" ErrNoSpace) /\
  data (fst (snd out)) = sort_Slice_byKey (data test_memDB).
Proof. vm_compute. split; reflexivity. Qed.

(** On the path that returns nil the memtable is emptied although the
    deferred [gzWriter.Close()] is still to run: it stores its 23 bytes at
    offset 18, over the placeholders and the beginning of the first entry.
    For the test data the entries are no longer in the file. *)
Lemma createSSTFile_overwrites_first_entry :
  let out := memDB_createSSTFile test_memDB sample_world in
  fst out = Ok tt /\
  data (fst (snd out)) = [] /\
  option_map (dropZ 30) (files (snd (snd out)) !! sstFileName 1700000000)
  <> Some (entries_bytes (sort_Slice_byKey (data test_memDB))).
Proof. vm_compute. repeat split. discriminate. Qed.

(* --------------------------------------------------------------------- *)
(** ** The records of the write-ahead log *)
(* --------------------------------------------------------------------- *)

Lemma file_Write_log (bs : list byte) (name : string) (pos : Z) (c : list byte) (w : world) :
  quota w = None ->
  file_Write bs (open_log name pos c w)
  = (Ok tt, open_log name (len (c ++ bs)) (c ++ bs) w).
Proof.
  intros Hq. unfold file_Write, open_log. destruct w as [fs gp t q]. simpl in *. subst q.
  rewrite lookup_insert_eq. unfold set_files, set_quota. simpl.
  rewrite insert_insert_eq, write_at_end, len_app. now destruct bs.
Qed.

(** With room on the device [AppendEntry] puts exactly one record at the
    end of the log. *)
Lemma WAL_AppendEntry_record (op : Operation) (kv : KeyValue) (name : string) (pos : Z)
    (c : list byte) (w : world) :
  quota w = None ->
  WAL_AppendEntry op kv (open_log name pos c w)
  = (Ok tt, open_log name (len (c ++ wal_record op kv)) (c ++ wal_record op kv) w).
Proof.
  intros Hq. unfold WAL_AppendEntry, wal_record.
  repeat (erewrite io_bind_Ok by (apply file_Write_log; assumption)).
  rewrite file_Write_log by assumption.
  now rewrite <- !app_assoc.
Qed.

Lemma open_log_here (l : WriteAheadLog) (w : world) (c : list byte) :
  file_append (file l) = true -> file_closed (file l) = false ->
  files w !! file_name (file l) = Some c ->
  (file l, w) = open_log (file_name (file l)) (file_pos (file l)) c w.
Proof.
  intros Ha Hc Hf. unfold open_log. destruct l as [[n p a cl] wm]. simpl in *. subst.
  f_equal. unfold set_files. destruct w as [fs gp t q]. simpl in *.
  now rewrite insert_id.
Qed.

(** [Set] on a store whose log can be written: the record of the write is
    at the end of the log and the entry at the end of [mem.data]. *)
Lemma memDB_Set_logs_record (k v : list byte) (mem : memDB) (w : world)
    (l : WriteAheadLog) (c : list byte) :
  wal mem = Some l ->
  file_append (file l) = true -> file_closed (file l) = false ->
  files w !! file_name (file l) = Some c ->
  quota w = None ->
  let out := memDB_Set k v mem w in
  fst out = Ok tt /\
  data (fst (snd out)) = data mem ++ [mkKV k v OpSet] /\
  files (snd (snd out)) !! file_name (file l)
  = Some (c ++ wal_record OpSet (mkKV k v OpSet)).
Proof.
  intros Hl Ha Hc Hf Hq. cbv zeta. unfold memDB_Set. rewrite Hl.
  rewrite (open_log_here l w c Ha Hc Hf), WAL_AppendEntry_record by assumption.
  unfold open_log, set_files. cbn. repeat split. apply lookup_insert_eq.
Qed.

(** [Del] of a live key on such a store: the first entry of the key is
    removed, its value returned, and the Delete record at the end of the
    log carries that value. *)
Lemma memDB_Del_logs_prior_value (k v : list byte) (op : Operation)
    (pre post : list KeyValue) (mem : memDB) (w : world)
    (l : WriteAheadLog) (c : list byte) :
  wal mem = Some l ->
  file_append (file l) = true -> file_closed (file l) = false ->
  files w !! file_name (file l) = Some c ->
  quota w = None ->
  data mem = pre ++ mkKV k v op :: post ->
  search k pre = None ->
  let out := memDB_Del k mem w in
  fst out = Ok v /\
  data (fst (snd out)) = pre ++ post /\
  files (snd (snd out)) !! file_name (file l)
  = Some (c ++ wal_record OpDelete (mkKV k v op)).
Proof.
  intros Hl Ha Hc Hf Hq Hd Hpre. cbv zeta.
  destruct (memDB_Del_first k v op pre post mem w l Hl Hd Hpre) as (l' & w' & E).
  rewrite E. cbn [fst snd data set_data]. split; [reflexivity |]. split; [reflexivity |].
  unfold memDB_Del in E. rewrite Hd, (search_index_app_miss _ _ _ Hpre) in E.
  simpl in E. rewrite key_eqb_refl, Hl in E.
  rewrite (open_log_here l w c Ha Hc Hf), WAL_AppendEntry_record in E by assumption.
  injection E as _ _ <-. unfold set_files. cbn. apply lookup_insert_eq.
Qed.

(* --------------------------------------------------------------------- *)
(** ** compactSSTFiles on the example *)
(* --------------------------------------------------------------------- *)

(** The example directory, listed by ./GO_PROJECT as well, and compacted
    with a ceiling of one file: the merge succeeds and has removed both
    sources, so the removal loop of [compactSSTFiles] fails on the first
    name. *)
Lemma compactSSTFiles_example :
  let w := World (files example_world) (Some ["a.sst"; "b.sst"]) 1700000000 None in
  let out := compactSSTFiles json_decode map_to_list 1 w in
  fst out = Err (Errorf "error removing SST file" (ErrNotExist "a.sst")) /\
  map fst (map_to_list (files (snd out))) = [mergedFileName 1700000000].
Proof. vm_compute. split; reflexivity. Qed.

(* --------------------------------------------------------------------- *)
(** ** The tests of the repository, run on the embedding *)
(* --------------------------------------------------------------------- *)

(** TestBasicOperations: Set, Get, Del, and a Get that must fail.  The
    last [Get] fails because no segment of the current second exists. *)
Lemma TestBasicOperations :
  let key := bytes "test_key" in
  let value := bytes "test_value" in
  let '(mem0, w0) := sample_store in
  let '(r1, (mem1, w1)) := memDB_Set key value mem0 w0 in
  let '(r2, mem2) := memDB_Get key mem1 w1 in
  let '(r3, (mem3, w3)) := memDB_Del key mem2 w1 in
  let '(r4, mem4) := memDB_Get key mem3 w3 in
  r1 = Ok tt /\ r2 = Ok value /\ r3 = Ok value /\
  r4 = Err (ErrNotExist "file_1700000000.sst").
Proof. vm_compute. repeat split. Qed.

(** TestCreateAndFlushSSTFile: five entries, [createSSTFile], then
    [flushToSST] for both operations, which find nothing to flush. *)
Lemma TestCreateAndFlushSSTFile :
  let mem := set_data (data test_memDB ++
                         [mkKV (bytes "key4") (bytes "value4") OpSet;
                          mkKV (bytes "key5") (bytes "value5") OpSet]) test_memDB in
  let '(r1, (mem1, w1)) := memDB_createSSTFile mem sample_world in
  let '(r2, (mem2, w2)) := memDB_flushToSST OpSet mem1 w1 in
  let '(r3, (mem3, w3)) := memDB_flushToSST OpDelete mem2 w2 in
  r1 = Ok tt /\ r2 = Ok tt /\ r3 = Ok tt /\
  map fst (map_to_list (files w3)) = ["file_1700000000.sst"].
Proof. vm_compute. repeat split. Qed.

(* ===================================================================== *)
(** * Further properties of the code *)
(* ===================================================================== *)

(* --------------------------------------------------------------------- *)
(** ** Set, Del and Get on the live entries *)
(* --------------------------------------------------------------------- *)

Lemma key_eqb_neq (a b : list byte) : a <> b -> key_eqb a b = false.
Proof.
  intros H. destruct (key_eqb a b) eqn:E; [| reflexivity].
  apply key_eqb_eq in E. contradiction.
Qed.

Lemma search_other (k k' v : list byte) (op : Operation) :
  k <> k' -> search k' [mkKV k v op] = None.
Proof. intros H. simpl. now rewrite key_eqb_neq. Qed.

(** Where [for i, kv := range mem.data] of [Del] stops. *)
Lemma search_index_split (k : list byte) (l : list KeyValue) (i : nat) (kv : KeyValue) :
  search_index k l = Some (i, kv) ->
  exists pre post,
    l = pre ++ kv :: post /\ length pre = i /\ search k pre = None /\ Key kv = k.
Proof.
  revert i. induction l as [| x l IH]; intros i H; simpl in H; [discriminate |].
  destruct (key_eqb (Key x) k) eqn:E.
  - injection H as <- <-. exists [], l. apply key_eqb_eq in E. auto.
  - destruct (search_index k l) as [[j kv'] |]; [| discriminate].
    injection H as <- <-.
    destruct (IH j eq_refl) as (pre & post & -> & <- & Hs & Hk).
    exists (x :: pre), post. simpl. rewrite E. auto.
Qed.

Lemma search_Some_index (k v : list byte) (l : list KeyValue) :
  search k l = Some v ->
  exists i kv, search_index k l = Some (i, kv) /\ Value kv = v.
Proof.
  induction l as [| x l IH]; simpl; [discriminate |].
  destruct (key_eqb (Key x) k).
  - intros [= <-]. eauto.
  - intros H. destruct (IH H) as (i & kv & -> & Hv). eauto.
Qed.

(** X1.  [Set] followed by [Get] of the same key: the value just written
    when the key was not live, and otherwise the value of the entry that
    was live before.  What is live under any other key is not changed by
    the [Set]. *)
Theorem Get_after_Set_of_a_key
    (k v : list byte) (mem : memDB) (w : world) (l : WriteAheadLog) :
  wal mem = Some l ->
  let s1 := after_Set k v (mem, w) in
  fst (memDB_Get k (fst s1) (snd s1)) = Ok (default v (search k (data mem))) /\
  (forall k', k' <> k -> search k' (data (fst s1)) = search k' (data mem)).
Proof.
  intros Hl. cbv zeta. unfold after_Set. cbn [fst snd].
  destruct (memDB_Set_spec k v mem w l Hl) as (l' & w' & E). rewrite E. cbn [fst snd].
  split.
  - unfold memDB_Get. cbn [data set_data]. rewrite search_app, search_here.
    now destruct (search k (data mem)).
  - intros k' Hk. cbn [data set_data]. rewrite search_app.
    rewrite (search_other k k' v OpSet) by congruence.
    now destruct (search k' (data mem)).
Qed.

Lemma Get_after_Set_of_a_key_witness :
  let s1 := after_Set (bytes "k") (bytes "v") sample_store in
  fst (memDB_Get (bytes "k") (fst s1) (snd s1))
  = Ok (default (bytes "v") (search (bytes "k") (data (fst sample_store)))) /\
  (forall k', k' <> bytes "k" ->
     search k' (data (fst s1)) = search k' (data (fst sample_store))).
Proof.
  apply (Get_after_Set_of_a_key (bytes "k") (bytes "v") (fst sample_store)
           (snd sample_store) (mkWAL (mkFile "newal.log" 0 true false) 0)).
  reflexivity.
Defined.

(** X2.  [Del] right after the [Set] of a key that was not live undoes
    it: it returns the value written and [mem.data] is what it was before
    the [Set]. *)
Theorem Del_undoes_Set_of_a_fresh_key
    (k v : list byte) (mem : memDB) (w : world) (l : WriteAheadLog) :
  wal mem = Some l ->
  search k (data mem) = None ->
  let s1 := after_Set k v (mem, w) in
  fst (memDB_Del k (fst s1) (snd s1)) = Ok v /\
  data (fst (after_Del k s1)) = data mem.
Proof.
  intros Hl Hk. cbv zeta. unfold after_Set, after_Del. cbn [fst snd].
  destruct (memDB_Set_spec k v mem w l Hl) as (l' & w' & E). rewrite E. cbn [fst snd].
  destruct (memDB_Del_first k v OpSet (data mem) []
              (set_data (data mem ++ [mkKV k v OpSet]) (set_wal (Some l') mem)) w' l'
              eq_refl eq_refl Hk) as (l2 & w2 & E2).
  rewrite E2. cbn [fst snd data set_data]. now rewrite app_nil_r.
Qed.

Lemma Del_undoes_Set_of_a_fresh_key_witness :
  let s1 := after_Set (bytes "k") (bytes "v") sample_store in
  fst (memDB_Del (bytes "k") (fst s1) (snd s1)) = Ok (bytes "v") /\
  data (fst (after_Del (bytes "k") s1)) = data (fst sample_store).
Proof.
  apply (Del_undoes_Set_of_a_fresh_key (bytes "k") (bytes "v") (fst sample_store)
           (snd sample_store) (mkWAL (mkFile "newal.log" 0 true false) 0));
    reflexivity.
Defined.

(** X3.  [Del] answers like [Get] on the live entries: on a key that is
    live it returns the value [Get] returns, and removes exactly the first
    entry of the key, the entries before and after it staying in order; on
    a key that is not live it fails and changes neither the store nor the
    world, the log included. *)
Theorem Del_removes_the_entry_Get_finds
    (k : list byte) (mem : memDB) (w : world) (l : WriteAheadLog) :
  wal mem = Some l ->
  match search k (data mem) with
  | Some v =>
      memDB_Get k mem w = (Ok v, mem) /\
      fst (memDB_Del k mem w) = Ok v /\
      exists pre kv post,
        data mem = pre ++ kv :: post /\ search k pre = None /\
        Key kv = k /\ Value kv = v /\
        data (fst (snd (memDB_Del k mem w))) = pre ++ post
  | None => memDB_Del k mem w = (Err ErrKeyDoesNotExist, (mem, w))
  end.
Proof.
  intros Hl. destruct (search k (data mem)) as [v |] eqn:Hs.
  - split; [unfold memDB_Get; now rewrite Hs |].
    destruct (search_Some_index k v (data mem) Hs) as (i & kv & Hi & Hv).
    destruct (search_index_split k (data mem) i kv Hi) as (pre & post & Hd & Hlen & Hpre & Hk).
    destruct kv as [kk vv op]. simpl in Hk, Hv. subst kk vv.
    destruct (memDB_Del_first k v op pre post mem w l Hl Hd Hpre) as (l' & w' & E).
    rewrite E. cbn [fst snd data set_data]. split; [reflexivity |].
    exists pre, (mkKV k v op), post. auto.
  - now apply memDB_Del_absent.
Qed.

Lemma Del_removes_the_entry_Get_finds_witness :
  let s := after_Set (bytes "k") (bytes "v") sample_store in
  match search (bytes "k") (data (fst s)) with
  | Some v =>
      memDB_Get (bytes "k") (fst s) (snd s) = (Ok v, fst s) /\
      fst (memDB_Del (bytes "k") (fst s) (snd s)) = Ok v /\
      exists pre kv post,
        data (fst s) = pre ++ kv :: post /\ search (bytes "k") pre = None /\
        Key kv = bytes "k" /\ Value kv = v /\
        data (fst (snd (memDB_Del (bytes "k") (fst s) (snd s)))) = pre ++ post
  | None => memDB_Del (bytes "k") (fst s) (snd s) = (Err ErrKeyDoesNotExist, (fst s, snd s))
  end.
Proof.
  apply (Del_removes_the_entry_Get_finds (bytes "k")
           (fst (after_Set (bytes "k") (bytes "v") sample_store))
           (snd (after_Set (bytes "k") (bytes "v") sample_store))
           (mkWAL (mkFile "newal.log" 7 true false) 0)).
  reflexivity.
Defined.

(* --------------------------------------------------------------------- *)
(** ** The write-ahead log as a record of the calls *)
(* --------------------------------------------------------------------- *)

Lemma byte_to_of_Z (z : Z) : byte_to_Z (byte_of_Z z) = z mod 256.
Proof.
  unfold byte_to_Z, byte_of_Z.
  assert (H : 0 <= z mod 256 < 256) by (apply Z.mod_pos_bound; lia).
  destruct (Byte.of_N (Z.to_N (z mod 256))) as [b |] eqn:E.
  - apply Byte.to_of_N in E. rewrite E. lia.
  - apply Byte.of_N_None_iff in E. lia.
Qed.

Lemma byte_of_Z_inj (a b : Z) :
  0 <= a < 256 -> 0 <= b < 256 -> byte_of_Z a = byte_of_Z b -> a = b.
Proof.
  intros Ha Hb H. apply (f_equal byte_to_Z) in H.
  rewrite !byte_to_of_Z, !Z.mod_small in H by lia. exact H.
Qed.

Lemma putUint16_inj (a b : Z) :
  0 <= a < 65536 -> 0 <= b < 65536 -> putUint16 a = putUint16 b -> a = b.
Proof.
  intros Ha Hb H. unfold putUint16 in H. injection H as H0 H1.
  apply (f_equal byte_to_Z) in H0, H1. rewrite !byte_to_of_Z in H0, H1.
  rewrite !Z.shiftr_div_pow2 in H1 by lia. change (2 ^ 8) with 256 in H1.
  rewrite (Z.mod_small (a / 256)), (Z.mod_small (b / 256)) in H1
    by (split; [apply Z.div_pos; lia | apply Z.div_lt_upper_bound; lia]).
  rewrite (Z.div_mod a 256), (Z.div_mod b 256) by lia. lia.
Qed.

(** The first record of a log can be read off it in one way only. *)
Lemma wal_record_app_inj (r1 r2 : Operation * KeyValue) (t1 t2 : list byte) :
  fits_record r1 -> fits_record r2 ->
  wal_record (fst r1) (snd r1) ++ t1 = wal_record (fst r2) (snd r2) ++ t2 ->
  logged r1 = logged r2 /\ t1 = t2.
Proof.
  destruct r1 as [op1 [k1 v1 o1]], r2 as [op2 [k2 v2 o2]].
  unfold fits_record, logged, wal_record. cbn [fst snd Key Value].
  intros (Hop1 & Hk1 & Hv1) (Hop2 & Hk2 & Hv2) H.
  assert (Hk1' := len_nonneg k1). assert (Hk2' := len_nonneg k2).
  assert (Hv1' := len_nonneg v1). assert (Hv2' := len_nonneg v2).
  assert (E1 : uint16 (len k1) = len k1) by (unfold uint16; apply Z.mod_small; lia).
  assert (E2 : uint16 (len k2) = len k2) by (unfold uint16; apply Z.mod_small; lia).
  assert (E3 : uint16 (len v1) = len v1) by (unfold uint16; apply Z.mod_small; lia).
  assert (E4 : uint16 (len v2) = len v2) by (unfold uint16; apply Z.mod_small; lia).
  rewrite E1, E2, E3, E4 in H. rewrite <- !app_assoc in H. cbn [app] in H.
  injection H as Hop Hk0 Hk8 H.
  apply byte_of_Z_inj in Hop; [| apply Z.mod_pos_bound; lia | apply Z.mod_pos_bound; lia].
  rewrite !Z.mod_small in Hop by lia. subst op2.
  assert (Hlk : len k1 = len k2).
  { apply putUint16_inj; [lia | lia |]. unfold putUint16. now rewrite Hk0, Hk8. }
  apply app_inj_1 in H; [| unfold len in Hlk; lia]. destruct H as [-> H].
  injection H as Hv0 Hv8 H.
  assert (Hlv : len v1 = len v2).
  { apply putUint16_inj; [lia | lia |]. unfold putUint16. now rewrite Hv0, Hv8. }
  apply app_inj_1 in H; [| unfold len in Hlv; lia]. destruct H as [-> ->].
  auto.
Qed.

(** X4.  A log is read back in one way only: two runs of records whose
    operations fit a byte and whose keys and values are shorter than 65536
    bytes, and which give the same bytes, hold the same operations, keys
    and values in the same order. *)
Theorem log_records_determine_the_calls (rs1 rs2 : list (Operation * KeyValue)) :
  Forall fits_record rs1 -> Forall fits_record rs2 ->
  log_records rs1 = log_records rs2 ->
  map logged rs1 = map logged rs2.
Proof.
  intros H1. revert rs2. induction H1 as [| r1 rs1 Hr1 _ IH]; intros rs2 H2 H.
  - destruct H2 as [| r2 rs2 _ _]; [reflexivity |].
    unfold log_records in H. destruct r2 as [op [k v o]]. discriminate.
  - destruct H2 as [| r2 rs2 Hr2 H2].
    + unfold log_records in H. destruct r1 as [op [k v o]]. discriminate.
    + unfold log_records in H. cbn [map concat] in H.
      apply wal_record_app_inj in H; [| assumption | assumption].
      destruct H as [Hl Ht]. cbn [map]. rewrite Hl. f_equal. now apply IH.
Qed.

Lemma log_records_determine_the_calls_witness :
  map logged [(OpSet, k1v1); (OpDelete, k2v2)]
  = map logged [(OpSet, k1v1); (OpDelete, k2_deleted)].
Proof.
  apply (log_records_determine_the_calls
           [(OpSet, k1v1); (OpDelete, k2v2)] [(OpSet, k1v1); (OpDelete, k2_deleted)]).
  - repeat constructor; vm_compute; congruence.
  - repeat constructor; vm_compute; congruence.
  - reflexivity.
Defined.

(** What [Del] returns, by whether the key is live. *)
Lemma memDB_Del_result
    (k : list byte) (mem : memDB) (w : world) (l : WriteAheadLog) :
  wal mem = Some l ->
  match search k (data mem) with
  | Some v => fst (memDB_Del k mem w) = Ok v
  | None => memDB_Del k mem w = (Err ErrKeyDoesNotExist, (mem, w))
  end.
Proof.
  intros Hl. destruct (search k (data mem)) as [v |] eqn:Hs.
  - destruct (search_Some_index k v (data mem) Hs) as (i & kv & Hi & Hv).
    destruct (search_index_split k (data mem) i kv Hi) as (pre & post & Hd & Hlen & Hpre & Hk).
    destruct kv as [kk vv op]. simpl in Hk, Hv. subst kk vv.
    destruct (memDB_Del_first k v op pre post mem w l Hl Hd Hpre) as (l' & w' & E).
    now rewrite E.
  - now apply memDB_Del_absent.
Qed.

(** [Set] on a store whose log is open and can take the record. *)
Lemma memDB_Set_logged (k v : list byte) (mem : memDB) (w : world)
    (l : WriteAheadLog) (c : list byte) :
  wal mem = Some l ->
  file_append (file l) = true -> file_closed (file l) = false ->
  files w !! file_name (file l) = Some c -> quota w = None ->
  memDB_Set k v mem w
  = (Ok tt,
     (set_data (data mem ++ [mkKV k v OpSet])
        (set_wal (Some (mkWAL (mkFile (file_name (file l))
                                 (len (c ++ wal_record OpSet (mkKV k v OpSet))) true false)
                          (watermark l))) mem),
      set_files (<[file_name (file l) := c ++ wal_record OpSet (mkKV k v OpSet)]> (files w)) w)).
Proof.
  intros Hl Ha Hcl Hc Hq. unfold memDB_Set. rewrite Hl.
  rewrite (open_log_here l w c Ha Hcl Hc), WAL_AppendEntry_record by assumption.
  reflexivity.
Qed.

(** A run of [Set] calls on such a store: the log handle, [mem.data] and
    the world afterwards. *)
Lemma after_Sets_logged (kvs : list (list byte * list byte)) (mem : memDB) (w : world)
    (l : WriteAheadLog) (c : list byte) :
  wal mem = Some l ->
  file_append (file l) = true -> file_closed (file l) = false ->
  files w !! file_name (file l) = Some c -> quota w = None ->
  exists l',
    wal (fst (after_Sets kvs (mem, w))) = Some l' /\
    file_name (file l') = file_name (file l) /\
    file_append (file l') = true /\ file_closed (file l') = false /\
    data (fst (after_Sets kvs (mem, w)))
    = data mem ++ map (fun kv => mkKV (fst kv) (snd kv) OpSet) kvs /\
    snd (after_Sets kvs (mem, w))
    = set_files (<[file_name (file l) :=
                     c ++ log_records (map (fun kv => (OpSet, mkKV (fst kv) (snd kv) OpSet)) kvs)]>
                   (files w)) w.
Proof.
  revert mem w l c. induction kvs as [| [k v] kvs IH]; intros mem w l c Hl Ha Hcl Hc Hq.
  - exists l. cbn [after_Sets fold_left fst snd map]. unfold log_records. cbn [map concat].
    rewrite !app_nil_r, (insert_id (files w) _ _ Hc). repeat split; auto. now destruct w.
  - change (after_Sets ((k, v) :: kvs) (mem, w))
      with (after_Sets kvs (after_Set k v (mem, w))).
    unfold after_Set. cbn [fst snd].
    rewrite (memDB_Set_logged k v mem w l c Hl Ha Hcl Hc Hq). cbn [snd].
    match goal with |- context [after_Sets kvs (?m1, ?w1)] =>
      destruct (IH m1 w1
                  (mkWAL (mkFile (file_name (file l))
                            (len (c ++ wal_record OpSet (mkKV k v OpSet))) true false)
                     (watermark l))
                  (c ++ wal_record OpSet (mkKV k v OpSet)))
        as (l' & H1 & H2 & H3 & H4 & H5 & H6)
    end; try reflexivity.
    + cbn. apply lookup_insert_eq.
    + exact Hq.
    + exists l'. rewrite H1, H5, H6. cbn [file file_name] in *.
      repeat split; auto.
      * cbn [data set_data map fst snd]. now rewrite <- app_assoc.
      * unfold set_files, log_records. cbn [files go_project now quota map concat fst snd].
        now rewrite insert_insert_eq, <- app_assoc.
Qed.

(** X5.  A run of [Set] calls on a store whose log is open, on a device
    with room: the log grows by one Set record per call, in the order of
    the calls, and [mem.data] by one entry per call, in the same order;
    nothing already in the log or in [mem.data] is changed. *)
Theorem Sets_append_their_records_in_order
    (kvs : list (list byte * list byte)) (s : memDB * world) (c : list byte) :
  log_open s = true -> log_content s = Some c -> quota (snd s) = None ->
  let s' := after_Sets kvs s in
  log_content s'
  = Some (c ++ log_records (map (fun kv => (OpSet, mkKV (fst kv) (snd kv) OpSet)) kvs)) /\
  data (fst s') = data (fst s) ++ map (fun kv => mkKV (fst kv) (snd kv) OpSet) kvs /\
  log_open s' = true.
Proof.
  destruct s as [mem w]. unfold log_open at 1, log_content at 1. cbn [fst snd].
  destruct (wal mem) as [l |] eqn:Hl; [| discriminate].
  intros Ho Hc Hq. apply andb_true_iff in Ho as [Ha Hcl]. apply negb_true_iff in Hcl.
  destruct (after_Sets_logged kvs mem w l c Hl Ha Hcl Hc Hq)
    as (l' & H1 & H2 & H3 & H4 & H5 & H6).
  cbv zeta. unfold log_open, log_content. rewrite H1, H2, H3, H4, H5, H6.
  split; [| auto]. cbn. apply lookup_insert_eq.
Qed.

Lemma Sets_append_their_records_in_order_witness :
  let s' := after_Sets [(bytes "k1", bytes "v1"); (bytes "k2", bytes "v2")] sample_store in
  log_content s'
  = Some ([] ++ log_records (map (fun kv => (OpSet, mkKV (fst kv) (snd kv) OpSet))
                               [(bytes "k1", bytes "v1"); (bytes "k2", bytes "v2")])) /\
  data (fst s') = data (fst sample_store)
                  ++ map (fun kv => mkKV (fst kv) (snd kv) OpSet)
                       [(bytes "k1", bytes "v1"); (bytes "k2", bytes "v2")] /\
  log_open s' = true.
Proof.
  apply (Sets_append_their_records_in_order
           [(bytes "k1", bytes "v1"); (bytes "k2", bytes "v2")] sample_store []);
    reflexivity.
Defined.

(** X6.  [Del] of a live key on such a store: the entry [Get] finds is
    removed, and the log grows by one Delete record, which carries the key
    and the value that was removed. *)
Theorem Del_logs_the_value_it_removes
    (k v : list byte) (mem : memDB) (w : world) (c : list byte) :
  log_open (mem, w) = true -> log_content (mem, w) = Some c -> quota w = None ->
  search k (data mem) = Some v ->
  let s' := snd (memDB_Del k mem w) in
  fst (memDB_Del k mem w) = Ok v /\
  log_content s' = Some (c ++ wal_record OpDelete (mkKV k v OpSet)) /\
  length (data (fst s')) = pred (length (data mem)).
Proof.
  unfold log_open, log_content. cbn [fst snd].
  destruct (wal mem) as [l |] eqn:Hl; [| discriminate].
  intros Ho Hc Hq Hs. apply andb_true_iff in Ho as [Ha Hcl]. apply negb_true_iff in Hcl.
  destruct (search_Some_index k v (data mem) Hs) as (i & kv & Hi & Hv).
  destruct (search_index_split k (data mem) i kv Hi) as (pre & post & Hd & Hlen & Hpre & Hk).
  destruct kv as [kk vv op]. simpl in Hk, Hv. subst kk vv.
  cbv zeta. unfold memDB_Del. rewrite Hi, Hl.
  rewrite (open_log_here l w c Ha Hcl Hc), WAL_AppendEntry_record by assumption.
  unfold open_log. cbn [fst snd data set_data wal set_wal file file_name Value].
  split; [reflexivity |]. split.
  - unfold set_files. cbn. apply lookup_insert_eq.
  - rewrite Hd, <- Hlen.
    replace (S (length pre)) with (length pre + 1)%nat by lia.
    rewrite take_app_length, drop_app_add, !length_app. simpl. rewrite drop_0. lia.
Qed.

Lemma Del_logs_the_value_it_removes_witness :
  let s := after_Sets [(bytes "k1", bytes "v1"); (bytes "k2", bytes "v2")] sample_store in
  let s' := snd (memDB_Del (bytes "k1") (fst s) (snd s)) in
  fst (memDB_Del (bytes "k1") (fst s) (snd s)) = Ok (bytes "v1") /\
  log_content s'
  = Some (log_records [(OpSet, k1v1); (OpSet, k2v2)]
          ++ wal_record OpDelete (mkKV (bytes "k1") (bytes "v1") OpSet)) /\
  length (data (fst s')) = pred (length (data (fst s))).
Proof.
  apply (Del_logs_the_value_it_removes (bytes "k1") (bytes "v1")
           (fst (after_Sets [(bytes "k1", bytes "v1"); (bytes "k2", bytes "v2")] sample_store))
           (snd (after_Sets [(bytes "k1", bytes "v1"); (bytes "k2", bytes "v2")] sample_store))
           (log_records [(OpSet, k1v1); (OpSet, k2v2)]));
    reflexivity.
Defined.

Lemma set_quota_same (w : world) : set_quota (quota w) w = w.
Proof. now destruct w. Qed.






(* --------------------------------------------------------------------- *)
(** ** What holds in every state of a store *)
(* --------------------------------------------------------------------- *)

(** Nothing is pending for [flushToSST] and the log is not nil. *)
Lemma flushToSST_nothing_pending (op : Operation) (mem : memDB) (w : world) :
  setData mem = [] -> deleteData mem = [] ->
  snd (memDB_flushToSST op mem w) = (mem, w) /\
  fst (memDB_flushToSST op mem w) <> Panic "index out of range".
Proof.
  intros Hs Hd. unfold memDB_flushToSST.
  destruct (negb ((op =? OpSet) || (op =? OpDelete))); [split; [reflexivity | discriminate] |].
  rewrite Hs, Hd. destruct (op =? OpSet); cbn; split; (reflexivity || discriminate).
Qed.

Lemma flushToSST_idle (op : Operation) (mem : memDB) (w : world) :
  op = OpSet \/ op = OpDelete -> setData mem = [] -> deleteData mem = [] ->
  memDB_flushToSST op mem w = (Ok tt, (mem, w)).
Proof.
  intros Hop Hs Hd. unfold memDB_flushToSST. rewrite Hs, Hd.
  destruct Hop as [-> | ->]; reflexivity.
Qed.

Lemma periodicFlush_nothing_pending (mem : memDB) (w : world) :
  setData mem = [] -> deleteData mem = [] ->
  memDB_periodicFlush_round mem w = (GoesOn, (mem, w)).
Proof.
  intros Hs Hd. unfold memDB_periodicFlush_round.
  rewrite !flushToSST_idle by auto. reflexivity.
Qed.

Lemma createSSTFile_fields (mem : memDB) (w : world) :
  let mem' := fst (snd (memDB_createSSTFile mem w)) in
  wal mem' = wal mem /\ setData mem' = setData mem /\ deleteData mem' = deleteData mem /\
  sstFileLoaded mem' = sstFileLoaded mem.
Proof.
  cbv zeta. unfold memDB_createSSTFile.
  destruct (len (data mem) =? 0); [cbn; auto |].
  destruct (os_Create _ w) as [f w1].
  destruct (with_file _ _ _ w1) as [[[] | e | m] w2]; cbn; auto.
Qed.

Lemma loadSSTFile_fields (name : string) (mem : memDB) (w : world) :
  let mem' := snd (memDB_loadSSTFile name mem w) in
  wal mem' = wal mem /\ setData mem' = setData mem /\ deleteData mem' = deleteData mem /\
  (sstFileLoaded mem = true -> mem' = mem).
Proof.
  cbv zeta. unfold memDB_loadSSTFile.
  destruct (sstFileLoaded mem) eqn:E; [cbn; auto |].
  destruct (files w !! name) as [content |]; [| cbn; intuition congruence].
  destruct (len content <? 4); [cbn; intuition congruence |]. cbv zeta.
  destruct (negb _); cbn; intuition congruence.
Qed.

Lemma Get_fields (k : list byte) (mem : memDB) (w : world) :
  let mem' := snd (memDB_Get k mem w) in
  wal mem' = wal mem /\ setData mem' = setData mem /\ deleteData mem' = deleteData mem /\
  (sstFileLoaded mem = true -> mem' = mem).
Proof.
  cbv zeta. unfold memDB_Get.
  destruct (search k (data mem)) eqn:Es; [cbn; auto |].
  destruct (sstFileLoaded mem) eqn:E; cbn [negb].
  - rewrite Es. cbn. auto.
  - pose proof (loadSSTFile_fields (sstFileName (now w)) mem w) as H. cbv zeta in H.
    destruct (memDB_loadSSTFile (sstFileName (now w)) mem w) as [[[] | e | m] mem'];
      cbn [snd] in *; try (destruct (search k (data mem'))); cbn [snd];
      intuition congruence.
Qed.

(** What the calls keep: nothing is pending for [flushToSST], the log is
    not nil, and a segment once loaded stays loaded. *)
Lemma reaches_invariant (s0 s : memDB * world) :
  reaches s0 s ->
  setData (fst s0) = [] -> deleteData (fst s0) = [] -> wal (fst s0) <> None ->
  setData (fst s) = [] /\ deleteData (fst s) = [] /\ wal (fst s) <> None /\
  (sstFileLoaded (fst s0) = true -> sstFileLoaded (fst s) = true).
Proof.
  intros Hr H1 H2 H3. induction Hr as [| c [mem w] Hr IH | mem w w' Hr IH].
  - auto.
  - cbn [fst] in IH. destruct IH as (I1 & I2 & I3 & I4).
    destruct (wal mem) as [l |] eqn:Hl; [clear I3 | contradiction].
    destruct c; cbn [after_call].
    + unfold memDB_Set. rewrite Hl.
      destruct (WAL_AppendEntry _ _ _) as [r [f' w']]. cbn. auto.
    + unfold memDB_Del. destruct (search_index key (data mem)) as [[i kv] |].
      * rewrite Hl. destruct (WAL_AppendEntry _ _ _) as [r [f' w']]. cbn. auto.
      * cbn. rewrite Hl. auto.
    + pose proof (Get_fields key mem w) as H. cbv zeta in H. cbn [fst].
      destruct H as (Hw & Hs & Hd & Hm). rewrite Hw, Hs, Hd, Hl.
      repeat split; auto. intros H0. rewrite (Hm (I4 H0)). auto.
    + cbn. rewrite Hl. auto.
    + pose proof (createSSTFile_fields mem w) as H. cbv zeta in H.
      destruct H as (-> & -> & -> & ->). rewrite Hl. auto.
    + destruct (flushToSST_nothing_pending operation mem w I1 I2) as [-> _].
      cbn. rewrite Hl. auto.
    + rewrite (periodicFlush_nothing_pending mem w I1 I2). cbn. rewrite Hl. auto.
    + rewrite Hl. destruct (WAL_CleanupAfterSSTCreation position l w) as [r [l' w']].
      cbn. auto.
    + unfold shutdown. pose proof (createSSTFile_fields mem w) as H. cbv zeta in H.
      destruct (memDB_createSSTFile mem w) as [[[] | e | m] [mem1 w1]]; cbn [fst snd] in *;
        destruct H as (Hw & Hs & Hd & Hf).
      * rewrite Hw, Hl.
        destruct (WAL_CleanupAfterSSTCreation watermarkPosition l w1) as [r [l' w2]].
        cbn. rewrite Hs, Hd, Hf. auto.
      * rewrite Hw, Hs, Hd, Hf, Hl. auto.
      * rewrite Hw, Hs, Hd, Hf, Hl. auto.
  - exact IH.
Qed.

(** X8.  The periodic flush of a store made by [NewMemDB] never writes
    anything: no call puts an entry in [mem.setData] or [mem.deleteData],
    so in every state the store can reach a round of [periodicFlush]
    leaves the store and every file as they are, and [flushToSST] returns
    without creating a file. *)
Theorem periodicFlush_never_writes (s : memDB * world) :
  reachable s ->
  setData (fst s) = [] /\ deleteData (fst s) = [] /\
  memDB_periodicFlush_round (fst s) (snd s) = (GoesOn, s) /\
  (forall op, snd (memDB_flushToSST op (fst s) (snd s)) = s).
Proof.
  intros (l & w & Hr).
  destruct (reaches_invariant _ _ Hr eq_refl eq_refl) as (H1 & H2 & _ & _); [discriminate |].
  destruct s as [mem w']. cbn [fst snd] in *.
  split; [exact H1 |]. split; [exact H2 |]. split.
  - now apply periodicFlush_nothing_pending.
  - intros op. now apply flushToSST_nothing_pending.
Qed.

Lemma periodicFlush_never_writes_witness :
  let s := after_call (CallSet (bytes "k2") (bytes "v2"))
             (after_call (CallSet (bytes "k1") (bytes "v1")) sample_store) in
  setData (fst s) = [] /\ deleteData (fst s) = [] /\
  memDB_periodicFlush_round (fst s) (snd s) = (GoesOn, s) /\
  (forall op, snd (memDB_flushToSST op (fst s) (snd s)) = s).
Proof.
  apply (periodicFlush_never_writes
           (after_call (CallSet (bytes "k2") (bytes "v2"))
              (after_call (CallSet (bytes "k1") (bytes "v1")) sample_store))).
  exists (mkWAL (mkFile "newal.log" 0 true false) 0), (snd sample_store).
  apply reaches_call. apply reaches_call. apply reaches_here.
Defined.

(** X9.  The handler of /set on a store made by [NewMemDB]: 400 when the
    key or the value is empty, and otherwise 200 with an empty body and
    the entry stored, whatever becomes of the record in the log: it never
    answers 500 and never panics. *)
Theorem set_handler_answers_400_or_200
    (Error_text : error -> string) (key value : string) (mem : memDB) (w : world) :
  reachable (mem, w) ->
  handle_set Error_text key value mem w
  = if String.eqb key "" || String.eqb value ""
    then (Some (http_Error "Both key and value are required" StatusBadRequest), (mem, w))
    else (Some (mkResponse StatusOK []),
          after_Set (list_byte_of_string key) (list_byte_of_string value) (mem, w)).
Proof.
  intros (l & w0 & Hr).
  destruct (reaches_invariant _ _ Hr eq_refl eq_refl) as (_ & _ & H3 & _); [discriminate |].
  cbn [fst] in H3. destruct (wal mem) as [l' |] eqn:Hl; [| contradiction].
  unfold handle_set, after_Set. cbn [fst snd].
  destruct (String.eqb key "" || String.eqb value ""); [reflexivity |].
  destruct (memDB_Set_spec (list_byte_of_string key) (list_byte_of_string value) mem w l' Hl)
    as (l2 & w2 & ->).
  reflexivity.
Qed.

Lemma set_handler_answers_400_or_200_witness :
  handle_set (fun _ => "error") "k" "v" (fst full_store) (snd full_store)
  = if String.eqb "k" "" || String.eqb "v" ""
    then (Some (http_Error "Both key and value are required" StatusBadRequest),
          (fst full_store, snd full_store))
    else (Some (mkResponse StatusOK []),
          after_Set (list_byte_of_string "k") (list_byte_of_string "v")
            (fst full_store, snd full_store)).
Proof.
  apply (set_handler_answers_400_or_200 (fun _ => "error") "k" "v"
           (fst full_store) (snd full_store)).
  exists (mkWAL (mkFile "newal.log" 0 true false) 0), (snd sample_store).
  apply (reaches_world _ (fst full_store) (snd sample_store) (snd full_store)).
  apply reaches_here.
Defined.

(** X10.  Once [Get] has loaded a segment, a store made by [NewMemDB]
    never reads a file again: [sstFileLoaded] stays set through every
    later call, and from then on [Get] answers from [mem.data] alone,
    changing nothing, whatever segments are on disk. *)
Theorem Get_reads_no_file_after_the_first_load (s s' : memDB * world) :
  reachable s -> sstFileLoaded (fst s) = true -> reaches s s' ->
  sstFileLoaded (fst s') = true /\
  forall k w1 w2,
    memDB_Get k (fst s') w1 = memDB_Get k (fst s') w2 /\
    snd (memDB_Get k (fst s') w1) = fst s' /\
    (fst (memDB_Get k (fst s') w1) = Err ErrKeyNotFound <-> search k (data (fst s')) = None).
Proof.
  intros (l & w & Hr) Hl Hr'.
  destruct (reaches_invariant _ _ Hr eq_refl eq_refl) as (H1 & H2 & H3 & _); [discriminate |].
  destruct (reaches_invariant _ _ Hr' H1 H2 H3) as (_ & _ & _ & H4).
  specialize (H4 Hl). split; [exact H4 |].
  intros k w1 w2. unfold memDB_Get. rewrite H4. cbn [negb].
  destruct (search k (data (fst s'))) eqn:Es; cbn; rewrite ?Es; cbn.
  - repeat split; intros; discriminate.
  - repeat split; auto.
Qed.

Lemma Get_reads_no_file_after_the_first_load_witness :
  let s := after_call (CallGet (bytes "k1")) (NewMemDB (fst (NewWriteAheadLog "newal.log" loadable_world)), loadable_world) in
  let s' := after_call (CallSet (bytes "k9") (bytes "v9")) s in
  sstFileLoaded (fst s') = true /\
  forall k w1 w2,
    memDB_Get k (fst s') w1 = memDB_Get k (fst s') w2 /\
    snd (memDB_Get k (fst s') w1) = fst s' /\
    (fst (memDB_Get k (fst s') w1) = Err ErrKeyNotFound <-> search k (data (fst s')) = None).
Proof.
  intros s s'.
  apply (Get_reads_no_file_after_the_first_load s s').
  - exists (fst (NewWriteAheadLog "newal.log" loadable_world)), loadable_world.
    apply reaches_call. apply reaches_here.
  - vm_compute. reflexivity.
  - apply reaches_call. apply reaches_here.
Defined.

(* --------------------------------------------------------------------- *)
(** ** The layout [loadSSTFile] reads *)
(* --------------------------------------------------------------------- *)

Lemma testbit_byte_field (x k n : Z) :
  0 <= k -> 0 <= n ->
  Z.testbit (Z.shiftl (Z.shiftr x k mod 2 ^ 8) k) n
  = (k <=? n) && (n <? k + 8) && Z.testbit x n.
Proof.
  intros Hk Hn. rewrite Z.shiftl_spec by lia.
  destruct (Z.leb_spec k n); cbn [andb].
  - destruct (Z.ltb_spec n (k + 8)); cbn [andb].
    + rewrite Z.mod_pow2_bits_low, Z.shiftr_spec by lia. f_equal. lia.
    + rewrite Z.mod_pow2_bits_high by lia. reflexivity.
  - apply Z.testbit_neg_r. lia.
Qed.

Lemma testbit_above (x n : Z) : 0 <= x < 2 ^ 32 -> 32 <= n -> Z.testbit x n = false.
Proof.
  intros Hx Hn. rewrite <- (Z.mod_small x (2 ^ 32)) by lia.
  apply Z.mod_pow2_bits_high. lia.
Qed.

(** [binary.LittleEndian]: a [uint32] written and read back. *)
Lemma Uint32_putUint32 (x : Z) : 0 <= x < 2 ^ 32 -> Uint32 (putUint32 x) = x.
Proof.
  intros Hx. unfold Uint32, putUint32. rewrite !byte_to_of_Z.
  change 256 with (2 ^ 8).
  rewrite <- (Z.shiftr_0_r x) at 1. rewrite <- (Z.shiftl_0_r (Z.shiftr x 0 mod 2 ^ 8)).
  apply Z.bits_inj'. intros n Hn.
  rewrite !Z.lor_spec, !testbit_byte_field by lia.
  destruct (Z.lt_ge_cases n 32) as [H32 | H32].
  - destruct (Z.leb_spec 0 n), (Z.ltb_spec n (0 + 8)), (Z.leb_spec 8 n), (Z.ltb_spec n (8 + 8)),
      (Z.leb_spec 16 n), (Z.ltb_spec n (16 + 8)), (Z.leb_spec 24 n), (Z.ltb_spec n (24 + 8));
      cbn [andb orb]; try lia; try reflexivity;
      rewrite ?orb_false_r; reflexivity.
  - rewrite (testbit_above x n Hx H32). now rewrite !andb_false_r.
Qed.

Lemma byte_to_Z_range (b : byte) : 0 <= byte_to_Z b < 256.
Proof. unfold byte_to_Z. pose proof (Byte.to_N_bounded b). lia. Qed.

Lemma lxor_range (a b : Z) :
  0 <= a < 2 ^ 32 -> 0 <= b < 2 ^ 32 -> 0 <= Z.lxor a b < 2 ^ 32.
Proof.
  intros Ha Hb. assert (H0 : 0 <= Z.lxor a b) by (apply Z.lxor_nonneg; lia).
  split; [exact H0 |].
  destruct (Z.eq_dec (Z.lxor a b) 0) as [-> | Hne]; [lia |].
  apply Z.log2_lt_pow2; [lia |].
  pose proof (Z.log2_lxor a b ltac:(lia) ltac:(lia)) as H.
  assert (Z.log2 a < 32).
  { destruct (Z.eq_dec a 0) as [-> | ?]; [cbn; lia | apply Z.log2_lt_pow2; lia]. }
  assert (Z.log2 b < 32).
  { destruct (Z.eq_dec b 0) as [-> | ?]; [cbn; lia | apply Z.log2_lt_pow2; lia]. }
  lia.
Qed.

Lemma crc32_shift_range (c : Z) : 0 <= c < 2 ^ 32 -> 0 <= crc32_shift c < 2 ^ 32.
Proof.
  intros Hc. unfold crc32_shift.
  assert (H : 0 <= Z.shiftr c 1 < 2 ^ 32).
  { rewrite Z.shiftr_div_pow2 by lia. change (2 ^ 1) with 2.
    split; [apply Z.div_pos; lia | apply Z.div_lt_upper_bound; lia]. }
  destruct (Z.testbit c 0); [| exact H].
  apply lxor_range; [exact H | unfold crc32_poly; lia].
Qed.

Lemma crc32_byte_range (c : Z) (b : byte) : 0 <= c < 2 ^ 32 -> 0 <= crc32_byte c b < 2 ^ 32.
Proof.
  intros Hc. unfold crc32_byte.
  assert (H : 0 <= Z.lxor c (byte_to_Z b) < 2 ^ 32).
  { apply lxor_range; [exact Hc |]. pose proof (byte_to_Z_range b). lia. }
  cbn [Nat.iter]. now repeat apply crc32_shift_range.
Qed.

(** The checksum is a [uint32]. *)
Lemma crc32_IEEE_range (bs : list byte) : 0 <= crc32_IEEE bs < 2 ^ 32.
Proof.
  unfold crc32_IEEE.
  assert (H : forall c, 0 <= c < 2 ^ 32 -> 0 <= fold_left crc32_byte bs c < 2 ^ 32).
  { induction bs as [| b bs IH]; intros c Hc; [exact Hc |].
    cbn [fold_left]. apply IH. now apply crc32_byte_range. }
  apply lxor_range; [apply H; lia | lia].
Qed.

Lemma calculateChecksum_as_loaded (pre d : list KeyValue) :
  calculateChecksum (pre ++ map as_loaded d) = calculateChecksum (pre ++ d).
Proof.
  unfold calculateChecksum. rewrite !map_app, map_map. reflexivity.
Qed.

Lemma takeZ_app_len {A} (a b : list A) : takeZ (len a) (a ++ b) = a.
Proof.
  rewrite takeZ_take. unfold len. rewrite Nat2Z.id. apply take_app_length.
Qed.

Lemma dropZ_app_len {A} (a b : list A) : dropZ (len a) (a ++ b) = b.
Proof.
  rewrite dropZ_drop. unfold len. rewrite Nat2Z.id. apply drop_app_length.
Qed.

(** A read served from the buffer. *)
Lemma Reader_Read_buffered (a rest : list byte) :
  Reader_Read (len a) (mkReader (a ++ rest) []) = (Some a, mkReader rest []).
Proof.
  unfold Reader_Read. destruct a as [| x a].
  - reflexivity.
  - replace (len (x :: a) <=? 0) with false
      by (symmetry; apply Z.leb_gt; unfold len; cbn [length]; lia).
    cbn [buffered unread app].
    change (x :: a ++ rest) with ((x :: a) ++ rest).
    now rewrite takeZ_app_len, dropZ_app_len.
Qed.

Lemma len_putUint32 (x : Z) : len (putUint32 x) = 4.
Proof. reflexivity. Qed.

(** What follows the last entry ends the loop without an entry: nothing,
    or four bytes, which are read as a key length. *)
Lemma load_loop_end (fuel : nat) (acc : list KeyValue) :
  load_loop (S fuel) (mkReader [] []) acc = Some acc.
Proof. reflexivity. Qed.

Lemma load_loop_trailer (fuel : nat) (x : Z) (acc : list KeyValue) :
  load_loop (S fuel) (mkReader (putUint32 x) []) acc = Some acc.
Proof.
  cbn [load_loop].
  change 4 with (len (putUint32 x)) at 1.
  rewrite <- (app_nil_r (putUint32 x)) at 2. rewrite Reader_Read_buffered.
  unfold Reader_Read. cbn [buffered unread].
  destruct (Uint32 (filled 4 (putUint32 x)) <=? 0); [reflexivity |].
  destruct (defaultBufSize <=? Uint32 (filled 4 (putUint32 x))); reflexivity.
Qed.

(** The loop over entries that are all in the buffer. *)
Lemma load_loop_buffered (d : list KeyValue) (tail : list byte) :
  (forall fuel acc, load_loop (S fuel) (mkReader tail []) acc = Some acc) ->
  Forall (fun kv => len (Key kv) < 2 ^ 32 /\ len (Value kv) < 2 ^ 32) d ->
  forall fuel acc, (length d < fuel)%nat ->
    load_loop fuel (mkReader (entries_bytes d ++ tail) []) acc = Some (acc ++ map as_loaded d).
Proof.
  intros Htail Hd. induction Hd as [| [k v op] d [Hk Hv] Hd IH]; intros fuel acc Hf.
  - destruct fuel as [| fuel]; [lia |]. cbn [entries_bytes map concat app].
    rewrite Htail. now rewrite app_nil_r.
  - destruct fuel as [| fuel]; [cbn [length] in Hf; lia |].
    cbn [Key Value] in Hk, Hv.
    assert (Ek : uint32 (len k) = len k)
      by (unfold uint32; apply Z.mod_small; pose proof (len_nonneg k); lia).
    assert (Ev : uint32 (len v) = len v)
      by (unfold uint32; apply Z.mod_small; pose proof (len_nonneg v); lia).
    cbn [load_loop]. unfold entries_bytes. cbn [map concat Key Value].
    fold (entries_bytes d). unfold entry_bytes. rewrite Ek, Ev, <- !app_assoc.
    change 4 with (len (putUint32 (len k))) at 1. rewrite Reader_Read_buffered.
    rewrite (filled_exact 4 (putUint32 (len k))) by (rewrite len_putUint32; lia).
    rewrite Uint32_putUint32 by (pose proof (len_nonneg k); lia).
    rewrite Reader_Read_buffered.
    change 4 with (len (putUint32 (len v))) at 1. rewrite Reader_Read_buffered.
    rewrite (filled_exact 4 (putUint32 (len v))) by (rewrite len_putUint32; lia).
    rewrite Uint32_putUint32 by (pose proof (len_nonneg v); lia).
    rewrite Reader_Read_buffered.
    rewrite !filled_exact by lia.
    rewrite IH by (cbn [length] in Hf; lia).
    cbn [map as_loaded Key Value]. now rewrite <- app_assoc.
Qed.

(** The first read fills the buffer with a file that fits it. *)
Lemma load_loop_fits (fuel : nat) (content : list byte) (acc : list KeyValue) :
  len content <= defaultBufSize ->
  load_loop fuel (mkReader [] content) acc = load_loop fuel (mkReader content []) acc.
Proof.
  intros Hc. destruct fuel as [| fuel]; [reflexivity |]. cbn [load_loop].
  destruct content as [| b content]; [reflexivity |].
  rewrite Reader_Read_fill by (unfold defaultBufSize in *; try lia; discriminate).
  unfold Reader_Read at 2. cbn [buffered unread]. reflexivity.
Qed.

Lemma len_entries_bytes_bounds (d : list KeyValue) :
  Forall (fun kv => len (Key kv) <= len (entries_bytes d) /\
                    len (Value kv) <= len (entries_bytes d)) d /\
  8 * len d <= len (entries_bytes d).
Proof.
  induction d as [| [k v op] d [IH1 IH2]].
  - split; [constructor | reflexivity].
  - unfold entries_bytes. cbn [map concat Key Value]. fold (entries_bytes d).
    unfold entry_bytes. rewrite !len_app, !len_putUint32.
    pose proof (len_nonneg k). pose proof (len_nonneg v).
    pose proof (len_nonneg (entries_bytes d)).
    split.
    + constructor; [cbn [Key Value]; lia |].
      eapply Forall_impl; [exact IH1 |]. cbn beta. intros kv [? ?]. lia.
    + unfold len in *. cbn [length]. lia.
Qed.

(** The loop over a file of entries, with or without four more bytes at
    its end, when the file fits the buffer of the reader. *)
Lemma load_entries_round_trip (d : list KeyValue) (tail : list byte) :
  tail = [] \/ (exists x, tail = putUint32 x) ->
  len (entries_bytes d ++ tail) <= defaultBufSize ->
  load_entries (entries_bytes d ++ tail) = map as_loaded d.
Proof.
  intros Ht Hlen. unfold load_entries, load_data.
  rewrite load_loop_fits by exact Hlen.
  destruct (len_entries_bytes_bounds d) as [Hb Hn].
  rewrite len_app in Hlen. pose proof (len_nonneg tail).
  rewrite load_loop_buffered; [reflexivity | | |].
  - intros fuel acc. destruct Ht as [-> | [x ->]];
      [apply load_loop_end | apply load_loop_trailer].
  - eapply Forall_impl; [exact Hb |]. cbn beta. unfold defaultBufSize in *.
    intros kv [? ?]. lia.
  - rewrite length_app. unfold len in *. lia.
Qed.

(** What [loadSSTFile] reads off a file of entries followed by their
    checksum: it has its four last bytes, the loop yields the entries, and
    the last four bytes are the checksum of what [mem.data] then holds. *)
Lemma loadable_image_read (held d : list KeyValue) :
  len (loadable_image held d) <= defaultBufSize ->
  (len (loadable_image held d) <? 4) = false /\
  load_data (loadable_image held d) held = held ++ map as_loaded d /\
  Uint32 (dropZ (len (loadable_image held d) - 4) (loadable_image held d))
  = calculateChecksum (held ++ map as_loaded d).
Proof.
  intros Hlen. unfold loadable_image in *. split; [| split].
  - apply Z.ltb_ge. rewrite len_app, len_putUint32.
    pose proof (len_nonneg (entries_bytes d)). lia.
  - rewrite load_data_app, load_entries_round_trip by first [eauto | exact Hlen].
    reflexivity.
  - rewrite calculateChecksum_as_loaded.
    replace (len (entries_bytes d ++ putUint32 (calculateChecksum (held ++ d))) - 4)
      with (len (entries_bytes d)) by (rewrite len_app, len_putUint32; lia).
    rewrite dropZ_app_len. apply Uint32_putUint32, crc32_IEEE_range.
Qed.

(** X11.  The layout [loadSSTFile] accepts: the entries from offset 0,
    each as key length, key, value length, value, and the CRC-32 of all
    the keys and values then in [mem.data] in the last four bytes.  For a
    file of this layout that fits the 4096-byte buffer of the reader the
    entries are appended to [mem.data] in order, the segment counts as
    loaded and nil is returned. *)
Theorem loadSSTFile_accepts_entries_then_checksum
    (name : string) (mem : memDB) (w : world) (d : list KeyValue) :
  sstFileLoaded mem = false ->
  files w !! name = Some (loadable_image (data mem) d) ->
  len (loadable_image (data mem) d) <= defaultBufSize ->
  memDB_loadSSTFile name mem w
  = (Ok tt, set_sstFileLoaded true (set_data (data mem ++ map as_loaded d) mem)).
Proof.
  intros Hl Hf Hlen. unfold memDB_loadSSTFile. rewrite Hl, Hf.
  destruct (loadable_image_read (data mem) d Hlen) as (H4 & Hd & Hc).
  rewrite H4. cbv zeta. rewrite Hd. cbn [data set_data].
  now rewrite Hc, Z.eqb_refl.
Qed.

Lemma loadSSTFile_accepts_entries_then_checksum_witness :
  memDB_loadSSTFile (sstFileName 1700000000) empty_memDB loadable_world
  = (Ok tt, set_sstFileLoaded true
              (set_data (data empty_memDB ++ map as_loaded [k1v1; k2v2]) empty_memDB)).
Proof.
  apply (loadSSTFile_accepts_entries_then_checksum
           (sstFileName 1700000000) empty_memDB loadable_world [k1v1; k2v2]).
  - reflexivity.
  - reflexivity.
  - vm_compute. discriminate.
Defined.

Lemma pairs_bytes_entries (pairs : list (string * string)) :
  pairs_bytes pairs = entries_bytes (pairs_entries pairs).
Proof.
  unfold pairs_bytes, entries_bytes, pairs_entries. now rewrite map_map.
Qed.

(** X12.  The loop of [loadSSTFile] reads back what [mergeSSTFiles]
    writes: from a merged file that fits the 4096-byte buffer of the
    reader it decodes the pairs of the merge, in the order they were
    written. *)
Theorem merged_file_is_decoded_by_the_load_loop
    (json_Unmarshal : list byte -> option KeyValue)
    (range_order : gmap string string -> list (string * string))
    (names : list string) (ess : list (list KeyValue)) (new : string) (w : world) :
  NoDup names -> new ∉ names -> quota w = None ->
  Forall2 (fun name es => exists content,
               files w !! name = Some content /\
               segment_of json_Unmarshal content = Some es) names ess ->
  let pairs := range_order (fold_left put (concat ess) ∅) in
  len (pairs_bytes pairs) <= defaultBufSize ->
  let w' := snd (mergeSSTFiles json_Unmarshal range_order names new w) in
  option_map load_entries (files w' !! new) = Some (pairs_entries pairs).
Proof.
  intros Hnd Hnew Hq Hall pairs Hlen w'. subst w'.
  rewrite (mergeSSTFiles_ok json_Unmarshal range_order names ess new w Hnd Hnew Hq Hall).
  cbn [snd]. unfold set_files. cbn [files]. rewrite lookup_insert_eq. cbn [option_map].
  fold pairs. rewrite pairs_bytes_entries in *.
  rewrite <- (app_nil_r (entries_bytes (pairs_entries pairs))) in *.
  rewrite load_entries_round_trip by first [auto | exact Hlen].
  unfold pairs_entries. rewrite map_map. reflexivity.
Qed.

Lemma merged_file_is_decoded_by_the_load_loop_witness :
  let pairs := map_to_list (fold_left put (concat [[k1v1; k2v2]; [k2v3; k3v4]]) ∅) in
  let w' := snd (mergeSSTFiles json_decode map_to_list ["a.sst"; "b.sst"] "merged.sst"
                   example_world) in
  option_map load_entries (files w' !! "merged.sst") = Some (pairs_entries pairs).
Proof.
  intros pairs.
  apply (merged_file_is_decoded_by_the_load_loop json_decode map_to_list
           ["a.sst"; "b.sst"] [[k1v1; k2v2]; [k2v3; k3v4]] "merged.sst" example_world).
  - compute_done.
  - compute_done.
  - reflexivity.
  - repeat constructor.
    + exists (json_file [k1v1; k2v2]). split; [reflexivity | vm_compute; reflexivity].
    + exists (json_file [k2v3; k3v4]). split; [reflexivity | vm_compute; reflexivity].
  - vm_compute. discriminate.
Defined.

(* --------------------------------------------------------------------- *)
(** ** The order of the entries in a segment *)
(* --------------------------------------------------------------------- *)

Lemma ascii_compare_lt_trans (a b c : ascii) :
  Ascii.compare a b = Lt -> Ascii.compare b c = Lt -> Ascii.compare a c = Lt.
Proof.
  unfold Ascii.compare. rewrite !N.compare_lt_iff. lia.
Qed.

Lemma string_compare_lt_trans (s1 s2 s3 : string) :
  String.compare s1 s2 = Lt -> String.compare s2 s3 = Lt -> String.compare s1 s3 = Lt.
Proof.
  revert s2 s3. induction s1 as [| a s1 IH]; intros [| b s2] [| c s3]; cbn;
    try discriminate; auto.
  destruct (Ascii.compare a b) eqn:E1; try discriminate.
  - apply Ascii.compare_eq_iff in E1. subst b.
    destruct (Ascii.compare a c); try discriminate; auto. apply IH.
  - intros _. destruct (Ascii.compare b c) eqn:E2; try discriminate.
    + apply Ascii.compare_eq_iff in E2. subst c. now rewrite E1.
    + now rewrite (ascii_compare_lt_trans a b c E1 E2).
Qed.

Lemma string_ltb_asym (s1 s2 : string) : String.ltb s1 s2 = true -> String.ltb s2 s1 = false.
Proof.
  unfold String.ltb. rewrite (String.compare_antisym s1 s2).
  destruct (String.compare s2 s1); cbn; congruence.
Qed.

Lemma key_less_asym (a b : KeyValue) : key_less a b = true -> key_less b a = false.
Proof. apply string_ltb_asym. Qed.

Lemma key_le_trans (a b c : KeyValue) : key_le a b -> key_le b c -> key_le a c.
Proof.
  unfold key_le, key_less, String.ltb.
  generalize (string_of_list_byte (Key a)) (string_of_list_byte (Key b))
    (string_of_list_byte (Key c)).
  intros x y z.
  rewrite (String.compare_antisym y x), (String.compare_antisym z y),
    (String.compare_antisym z x).
  destruct (String.compare x y) eqn:E1; cbn; try discriminate; intros _;
    destruct (String.compare y z) eqn:E2; cbn; try discriminate; intros _.
  - pose proof E1 as E. apply String.compare_eq_iff in E1, E2. subst y z. now rewrite E.
  - apply String.compare_eq_iff in E1. subst y. now rewrite E2.
  - apply String.compare_eq_iff in E2. subst z. now rewrite E1.
  - now rewrite (string_compare_lt_trans x y z E1 E2).
Qed.

Section InsertionSortSorted.
Context {A : Type} (less : A -> A -> bool).
Hypothesis less_asym : forall a b, less a b = true -> less b a = false.

(** The sorted prefix, held reversed, is descending. *)
Let ge (a b : A) : Prop := less a b = false.

Lemma sift_HdRel (y x : A) (r : list A) :
  ge y x -> HdRel ge y r -> HdRel ge y (sift less x r).
Proof.
  intros Hx Hr. destruct r as [| z r]; cbn.
  - now constructor.
  - destruct (less x z); constructor; [now inversion Hr | exact Hx].
Qed.

Lemma sift_Sorted (x : A) (r : list A) : Sorted ge r -> Sorted ge (sift less x r).
Proof.
  induction r as [| y r IH]; intros Hs; cbn.
  - repeat constructor.
  - inversion Hs as [| ? ? Hs' Hh]; subst.
    destruct (less x y) eqn:E.
    + constructor; [now apply IH |]. apply sift_HdRel; [now apply less_asym | exact Hh].
    + constructor; [exact Hs |]. now constructor.
Qed.

Lemma Sorted_snoc (R : A -> A -> Prop) (l : list A) (a : A) :
  Sorted R l -> (forall l' y, l = l' ++ [y] -> R y a) -> Sorted R (l ++ [a]).
Proof.
  induction l as [| x l IH]; intros Hs Hl; cbn.
  - repeat constructor.
  - inversion Hs as [| ? ? Hs' Hh]; subst. constructor.
    + apply IH; [exact Hs' |]. intros l' y ->. now apply (Hl (x :: l') y).
    + destruct l as [| z l]; cbn.
      * constructor. now apply (Hl [] x).
      * constructor. now inversion Hh.
Qed.

Lemma Sorted_rev (R : A -> A -> Prop) (l : list A) :
  Sorted R l -> Sorted (fun a b => R b a) (rev l).
Proof.
  induction l as [| x l IH]; intros Hs; cbn; [constructor |].
  inversion Hs as [| ? ? Hs' Hh]; subst.
  apply Sorted_snoc; [now apply IH |].
  intros l' y Hy. destruct l as [| z l]; [now destruct l' |].
  cbn in Hy. apply app_inj_tail in Hy as [_ <-]. now inversion Hh.
Qed.

Lemma insertionSort_Sorted (l : list A) :
  Sorted (fun a b => less b a = false) (insertionSort less l).
Proof.
  unfold insertionSort. apply (Sorted_rev ge).
  assert (H : forall r, Sorted ge r -> Sorted ge (fold_left (fun rp x => sift less x rp) l r)).
  { induction l as [| x l IH]; intros r Hr; cbn; [exact Hr |].
    apply IH. now apply sift_Sorted. }
  apply H. constructor.
Qed.

End InsertionSortSorted.

Lemma sort_Slice_byKey_sorted (l : list KeyValue) :
  StronglySorted key_le (sort_Slice_byKey l).
Proof.
  apply Sorted_StronglySorted.
  - intros a b c. apply key_le_trans.
  - apply (insertionSort_Sorted key_less key_less_asym).
Qed.

(** X13.  [createSSTFile] writes the entries in ascending order of their
    keys: on a device with room, the segment of a non-empty memtable is
    the image of a list that holds the same entries as [mem.data], each
    as often, and in which no entry has a smaller key than an entry before
    it; [mem.data] is empty afterwards. *)
Theorem createSSTFile_writes_the_entries_in_key_order (mem : memDB) (w : world) :
  data mem <> [] -> quota w = None ->
  exists sorted,
    StronglySorted key_le sorted /\ Permutation sorted (data mem) /\
    memDB_createSSTFile mem w
    = (Ok tt, (set_data [] mem,
               set_files (<[sstFileName (now w) := segment_image sorted]> (files w)) w)).
Proof.
  intros Hd Hq. exists (sort_Slice_byKey (data mem)).
  split; [apply sort_Slice_byKey_sorted |].
  split; [apply (insertionSort_Permutation key_less) |].
  now apply memDB_createSSTFile_ok.
Qed.

Lemma createSSTFile_writes_the_entries_in_key_order_witness :
  exists sorted,
    StronglySorted key_le sorted /\ Permutation sorted (data test_memDB) /\
    memDB_createSSTFile test_memDB sample_world
    = (Ok tt, (set_data [] test_memDB,
               set_files (<[sstFileName (now sample_world) := segment_image sorted]>
                            (files sample_world)) sample_world)).
Proof.
  apply (createSSTFile_writes_the_entries_in_key_order test_memDB sample_world).
  - discriminate.
  - reflexivity.
Defined.

(* --------------------------------------------------------------------- *)
(** ** flushToSST *)
(* --------------------------------------------------------------------- *)

Lemma write_entries_plain_append (d : list KeyValue) (name : string) (c : list byte)
    (w : world) :
  quota w = None ->
  write_entries tag_plain d (open_at name (len c) c w)
  = (Ok tt, open_at name (len (c ++ entries_bytes d)) (c ++ entries_bytes d) w).
Proof.
  intros Hq. revert c. induction d as [| kv d IH]; intros c; cbn [write_entries].
  - unfold entries_bytes. simpl. now rewrite app_nil_r.
  - erewrite io_bind_Ok by (apply write_entry_plain_append; assumption).
    rewrite IH. unfold entries_bytes. cbn [map concat].
    now rewrite <- !app_assoc.
Qed.

Lemma first_last_key_nonempty (d : list KeyValue) :
  d <> [] -> exists sk lk, first_key d = Some sk /\ last_key d = Some lk.
Proof.
  intros Hd.
  destruct (first_key d) as [sk |] eqn:Hfk; [| destruct d; [congruence | discriminate]].
  destruct (last_key d) as [lk |] eqn:Hlk; [eauto |].
  unfold last_key in Hlk. destruct (rev d) eqn:Hr; [| discriminate].
  apply (f_equal (@rev _)) in Hr. rewrite rev_involutive in Hr. simpl in Hr. congruence.
Qed.

Lemma flushToSST_head_image (d : list KeyValue) (name : string) (w : world) :
  d <> [] -> quota w = None ->
  flushToSST_head d (open_at name 0 [] w)
  = (Ok tt, open_at name (len (flush_header_bytes d ++ entries_bytes d))
              (flush_header_bytes d ++ entries_bytes d) w).
Proof.
  intros Hd Hq. unfold flushToSST_head, flush_header_bytes.
  destruct (first_last_key_nonempty d Hd) as (sk & lk & -> & ->). cbn [default].
  change (open_at name 0 [] w) with (open_at name (len (@nil byte)) [] w).
  repeat (erewrite io_bind_Ok by (apply file_Write_append; assumption)).
  rewrite write_entries_plain_append by assumption.
  cbn [app]. now rewrite <- !app_assoc.
Qed.

(** [flushToSST] that gets to its end: what it returns, the store and the
    file it leaves. *)
Lemma memDB_flushToSST_ok
    (op : Operation) (mem : memDB) (w : world) (l : WriteAheadLog) :
  op = OpSet \/ op = OpDelete ->
  (if op =? OpSet then setData mem else deleteData mem) <> [] ->
  data mem <> [] -> len (data mem) < maxEntriesBeforeSST ->
  quota w = None ->
  wal mem = Some l -> file_closed (file l) = false ->
  memDB_flushToSST op mem w
  = (Ok tt,
     (set_wal (Some (WAL_UpdateWatermark (file_pos (file l)) l)) (set_flushed op mem),
      set_files (<[flushFileName (now w) := flush_image (data mem)]> (files w)) w)).
Proof.
  intros Hop Hp Hd Hlen Hq Hl Hc. unfold memDB_flushToSST.
  replace (negb ((op =? OpSet) || (op =? OpDelete))) with false
    by (destruct Hop as [-> | ->]; reflexivity).
  destruct (Z.eqb_spec (len (if op =? OpSet then setData mem else deleteData mem)) 0) as [E | _].
  { unfold len in E. destruct (if op =? OpSet then setData mem else deleteData mem);
      [congruence | discriminate]. }
  assert (Hd0 : data (set_sorted op
                        (sort_Slice_byKey (if op =? OpSet then setData mem else deleteData mem))
                        mem) = data mem)
    by (unfold set_sorted; destruct (op =? OpSet); reflexivity).
  rewrite Hd0. unfold os_Create. cbv zeta iota beta.
  change (mkFile (flushFileName (now w)) 0 false false,
          set_files (<[flushFileName (now w) := []]> (files w)) w)
    with (open_at (flushFileName (now w)) 0 [] w).
  rewrite flushToSST_head_image by assumption.
  destruct (Z.leb_spec maxEntriesBeforeSST (len (data mem))) as [? | _]; [lia |].
  unfold open_at at 1. cbv iota beta. rewrite Hd0.
  match goal with |- context [file_Write ?b (?f, ?w0)] =>
    change (f, w0) with (open_at (flushFileName (now w))
                           (len (flush_header_bytes (data mem) ++ entries_bytes (data mem)))
                           (flush_header_bytes (data mem) ++ entries_bytes (data mem)) w)
  end.
  rewrite file_Write_append by assumption. unfold open_at. cbv iota beta.
  assert (Hw : wal (set_flushed op
                      (set_sorted op
                         (sort_Slice_byKey (if op =? OpSet then setData mem else deleteData mem))
                         mem)) = Some l)
    by (destruct Hop as [-> | ->]; exact Hl).
  rewrite Hw. unfold file_Tell. rewrite Hc.
  unfold flush_image. rewrite <- app_assoc.
  destruct Hop as [-> | ->]; reflexivity.
Qed.

(** X14.  [flushToSST] writes [mem.data], not the list it was asked to
    flush: when that list is not empty, [mem.data] holds fewer than
    [maxEntriesBeforeSST] entries and the device has room, the file
    file<seconds>.sst holds a 24-byte header, the entries of [mem.data]
    in their stored order and their checksum in the last four bytes; the
    flushed list is emptied, [mem.data] is kept, and the watermark is the
    offset of the log file. *)
Theorem flushToSST_writes_the_live_entries
    (op : Operation) (mem : memDB) (w : world) (l : WriteAheadLog) :
  op = OpSet \/ op = OpDelete ->
  (if op =? OpSet then setData mem else deleteData mem) <> [] ->
  data mem <> [] -> len (data mem) < maxEntriesBeforeSST ->
  quota w = None ->
  wal mem = Some l -> file_closed (file l) = false ->
  memDB_flushToSST op mem w
  = (Ok tt,
     (set_wal (Some (WAL_UpdateWatermark (file_pos (file l)) l)) (set_flushed op mem),
      set_files (<[flushFileName (now w) := flush_image (data mem)]> (files w)) w)).
Proof.
  intros Hop Hp Hd Hlen Hq Hl Hc. now apply memDB_flushToSST_ok.
Qed.

Lemma flushToSST_writes_the_live_entries_witness :
  memDB_flushToSST OpSet pending_memDB sample_world
  = (Ok tt,
     (set_wal (Some (WAL_UpdateWatermark
                       (file_pos (file (mkWAL (mkFile "newal.log" 14 true false) 0)))
                       (mkWAL (mkFile "newal.log" 14 true false) 0)))
        (set_flushed OpSet pending_memDB),
      set_files (<[flushFileName (now sample_world) := flush_image (data pending_memDB)]>
                   (files sample_world)) sample_world)).
Proof.
  apply (flushToSST_writes_the_live_entries OpSet pending_memDB sample_world
           (mkWAL (mkFile "newal.log" 14 true false) 0)).
  - left. reflexivity.
  - discriminate.
  - discriminate.
  - reflexivity.
  - reflexivity.
  - reflexivity.
  - reflexivity.
Defined.

(** X15.  [flushToSST] on a store that has something to flush and an
    empty [mem.data] panics: it takes the smallest key from
    [mem.data[0]].  The file it has created by then stays, empty. *)
Theorem flushToSST_panics_on_an_empty_memtable (op : Operation) (mem : memDB) (w : world) :
  op = OpSet \/ op = OpDelete ->
  (if op =? OpSet then setData mem else deleteData mem) <> [] ->
  data mem = [] ->
  fst (memDB_flushToSST op mem w) = Panic "index out of range" /\
  files (snd (snd (memDB_flushToSST op mem w))) !! flushFileName (now w) = Some [].
Proof.
  intros Hop Hp Hd. unfold memDB_flushToSST.
  replace (negb ((op =? OpSet) || (op =? OpDelete))) with false
    by (destruct Hop as [-> | ->]; reflexivity).
  destruct (Z.eqb_spec (len (if op =? OpSet then setData mem else deleteData mem)) 0) as [E | _].
  { unfold len in E. destruct (if op =? OpSet then setData mem else deleteData mem);
      [congruence | discriminate]. }
  assert (Hd0 : data (set_sorted op
                        (sort_Slice_byKey (if op =? OpSet then setData mem else deleteData mem))
                        mem) = [])
    by (unfold set_sorted; destruct (op =? OpSet); exact Hd).
  rewrite Hd0. unfold os_Create, flushToSST_head. cbn [first_key last_key rev fst snd].
  split; [reflexivity |]. unfold set_files. cbn [files]. apply lookup_insert_eq.
Qed.

Lemma flushToSST_panics_on_an_empty_memtable_witness :
  fst (memDB_flushToSST OpSet pending_only_memDB sample_world) = Panic "index out of range" /\
  files (snd (snd (memDB_flushToSST OpSet pending_only_memDB sample_world)))
    !! flushFileName (now sample_world) = Some [].
Proof.
  apply (flushToSST_panics_on_an_empty_memtable OpSet pending_only_memDB sample_world).
  - left. reflexivity.
  - discriminate.
  - reflexivity.
Defined.

(* --------------------------------------------------------------------- *)
(** ** C9, amended: flushes in different seconds *)
(* --------------------------------------------------------------------- *)

(** C9, amended.  The name of a segment is made from the Unix second of
    the flush, in [createSSTFile] (file_<second>.sst) and in [flushToSST]
    (file<second>.sst) alike.  Two flushes that take place in different
    seconds and get to their end write two files with distinct names: after
    the second flush both files are there, each holding what its flush
    wrote. *)
Theorem C9_flushes_in_different_seconds_have_distinct_names
    (mem1 mem2 p1 p2 : memDB) (op1 op2 : Operation) (w : world) (t2 : Z) :
  now w <> t2 -> quota w = None ->
  data mem1 <> [] -> data mem2 <> [] ->
  ready_to_flush op1 p1 -> ready_to_flush op2 p2 ->
  let w1 := at_second t2 (snd (snd (memDB_createSSTFile mem1 w))) in
  let w2 := snd (snd (memDB_createSSTFile mem2 w1)) in
  let v1 := at_second t2 (snd (snd (memDB_flushToSST op1 p1 w))) in
  let v2 := snd (snd (memDB_flushToSST op2 p2 v1)) in
  (fst (memDB_createSSTFile mem1 w) = Ok tt /\
   fst (memDB_createSSTFile mem2 w1) = Ok tt /\
   sstFileName (now w) <> sstFileName t2 /\
   files w2 !! sstFileName (now w) = Some (segment_image (sort_Slice_byKey (data mem1))) /\
   files w2 !! sstFileName t2 = Some (segment_image (sort_Slice_byKey (data mem2)))) /\
  (fst (memDB_flushToSST op1 p1 w) = Ok tt /\
   fst (memDB_flushToSST op2 p2 v1) = Ok tt /\
   flushFileName (now w) <> flushFileName t2 /\
   files v2 !! flushFileName (now w) = Some (flush_image (data p1)) /\
   files v2 !! flushFileName t2 = Some (flush_image (data p2))).
Proof.
  intros Hne Hq Hd1 Hd2 (Hop1 & Hp1 & Hpd1 & Hlen1 & Hw1) (Hop2 & Hp2 & Hpd2 & Hlen2 & Hw2).
  cbv zeta.
  assert (Hs : sstFileName (now w) <> sstFileName t2)
    by (intros H; apply Hne; now apply sstFileName_inj).
  assert (Hf : flushFileName (now w) <> flushFileName t2)
    by (intros H; apply Hne; now apply flushFileName_inj).
  split.
  - rewrite (memDB_createSSTFile_ok mem1 w Hd1 Hq). cbn [fst snd].
    rewrite (memDB_createSSTFile_ok mem2) by assumption.
    cbn [fst snd at_second set_files files now].
    repeat split; auto.
    + rewrite lookup_insert_ne by congruence. apply lookup_insert_eq.
    + apply lookup_insert_eq.
  - destruct (wal p1) as [l1 |] eqn:El1; [| contradiction].
    destruct (wal p2) as [l2 |] eqn:El2; [| contradiction].
    rewrite (memDB_flushToSST_ok op1 p1 w l1 Hop1 Hp1 Hpd1 Hlen1 Hq El1 Hw1). cbn [fst snd].
    rewrite (memDB_flushToSST_ok op2 p2 _ l2 Hop2 Hp2 Hpd2 Hlen2) by assumption.
    cbn [fst snd at_second set_files files now].
    repeat split; auto.
    + rewrite lookup_insert_ne by congruence. apply lookup_insert_eq.
    + apply lookup_insert_eq.
Qed.

Lemma C9_witness :
  let w := sample_world in
  let w1 := at_second 1700000001 (snd (snd (memDB_createSSTFile first_memDB w))) in
  let w2 := snd (snd (memDB_createSSTFile second_memDB w1)) in
  let v1 := at_second 1700000001 (snd (snd (memDB_flushToSST OpSet pending_memDB w))) in
  let v2 := snd (snd (memDB_flushToSST OpDelete pending_delete_memDB v1)) in
  (fst (memDB_createSSTFile first_memDB w) = Ok tt /\
   fst (memDB_createSSTFile second_memDB w1) = Ok tt /\
   sstFileName (now w) <> sstFileName 1700000001 /\
   files w2 !! sstFileName (now w) = Some (segment_image (sort_Slice_byKey (data first_memDB))) /\
   files w2 !! sstFileName 1700000001
   = Some (segment_image (sort_Slice_byKey (data second_memDB)))) /\
  (fst (memDB_flushToSST OpSet pending_memDB w) = Ok tt /\
   fst (memDB_flushToSST OpDelete pending_delete_memDB v1) = Ok tt /\
   flushFileName (now w) <> flushFileName 1700000001 /\
   files v2 !! flushFileName (now w) = Some (flush_image (data pending_memDB)) /\
   files v2 !! flushFileName 1700000001 = Some (flush_image (data pending_delete_memDB))).
Proof.
  intros w.
  apply (C9_flushes_in_different_seconds_have_distinct_names
           first_memDB second_memDB pending_memDB pending_delete_memDB OpSet OpDelete
           w 1700000001).
  - vm_compute. discriminate.
  - reflexivity.
  - discriminate.
  - discriminate.
  - unfold ready_to_flush. repeat split; try discriminate; try reflexivity. left. reflexivity.
  - unfold ready_to_flush. repeat split; try discriminate; try reflexivity. right. reflexivity.
Defined.

(* --------------------------------------------------------------------- *)
(** ** The background tasks of main.go *)
(* --------------------------------------------------------------------- *)

Lemma no_new_file_refl (w : world) : no_new_file w w.
Proof. intros n H. exact H. Qed.

Lemma no_new_file_trans (w1 w2 w3 : world) :
  no_new_file w1 w2 -> no_new_file w2 w3 -> no_new_file w1 w3.
Proof. intros H1 H2 n H. apply H2, H1, H. Qed.

Lemma os_Remove_no_new (name : string) (w : world) : no_new_file w (snd (os_Remove name w)).
Proof.
  unfold os_Remove. destruct (files w !! name); [| apply no_new_file_refl].
  intros n H. cbn. destruct (decide (n = name)) as [-> | Hne].
  - apply lookup_delete_eq.
  - now rewrite lookup_delete_ne.
Qed.

Lemma file_Write_no_new (bs : list byte) (f : File) (w : world) :
  no_new_file w (snd (snd (file_Write bs (f, w)))).
Proof.
  unfold file_Write. destruct (file_closed f); [apply no_new_file_refl |].
  destruct (spend bs (quota w)); [| apply no_new_file_refl].
  destruct (files w !! file_name f) eqn:E; intros n H; cbn; [| exact H].
  rewrite lookup_insert_ne; [exact H | congruence].
Qed.

Lemma io_bind_no_new {A B} (c : IO A) (k : A -> IO B) (f : File) (w : world) :
  (forall f w, no_new_file w (snd (snd (c (f, w))))) ->
  (forall a f w, no_new_file w (snd (snd (k a (f, w))))) ->
  no_new_file w (snd (snd (io_bind c k (f, w)))).
Proof.
  intros Hc Hk. unfold io_bind. specialize (Hc f w).
  destruct (c (f, w)) as [[a | e | m] [f1 w1]]; cbn [snd] in *; try exact Hc.
  eapply no_new_file_trans; [exact Hc | apply Hk].
Qed.

Lemma write_entry_plain_no_new (key value : list byte) (f : File) (w : world) :
  no_new_file w (snd (snd (write_entry tag_plain key value (f, w)))).
Proof.
  unfold write_entry, tag_plain.
  repeat (apply io_bind_no_new; [intros; apply file_Write_no_new | intros]).
  apply file_Write_no_new.
Qed.

Section CompactionNeverCompletes.

Variable json_Unmarshal : list byte -> option KeyValue.
Variable range_order : gmap string string -> list (string * string).

Lemma write_merged_no_new (pairs : list (string * string)) (f : File) (w : world) :
  no_new_file w (snd (snd (write_merged pairs (f, w)))).
Proof.
  revert f w. induction pairs as [| [k v] pairs IH]; intros f w; cbn [write_merged].
  - apply no_new_file_refl.
  - apply io_bind_no_new; [intros; apply write_entry_plain_no_new | intros; apply IH].
Qed.

Lemma merge_file_no_new (name : string) (m : gmap string string) (f : File) (w : world) :
  no_new_file w (snd (snd (merge_file json_Unmarshal name m (f, w)))).
Proof.
  unfold merge_file. destruct (files w !! name) eqn:E; [| apply no_new_file_refl].
  destruct (scan_lines l) as [lines scanErr].
  destruct (merge_lines json_Unmarshal lines m); [| apply no_new_file_refl].
  destruct scanErr; [apply no_new_file_refl |].
  pose proof (os_Remove_no_new name w) as H.
  destruct (os_Remove name w) as [[[] | e | msg] w']; exact H.
Qed.

Lemma merge_file_Ok_absent (name : string) (m m' : gmap string string) (f f' : File)
    (w w' : world) :
  merge_file json_Unmarshal name m (f, w) = (Ok m', (f', w')) -> files w' !! name = None.
Proof.
  unfold merge_file. destruct (files w !! name) eqn:E; [| discriminate].
  destruct (scan_lines l) as [lines scanErr].
  destruct (merge_lines json_Unmarshal lines m); [| discriminate].
  destruct scanErr; [discriminate |].
  unfold os_Remove. rewrite E. intros [= _ _ <-]. cbn. apply lookup_delete_eq.
Qed.

Lemma merge_files_no_new (names : list string) (m : gmap string string) (f : File) (w : world) :
  no_new_file w (snd (snd (merge_files json_Unmarshal names m (f, w)))).
Proof.
  revert m f w. induction names as [| name names IH]; intros m f w; cbn [merge_files].
  - apply no_new_file_refl.
  - apply io_bind_no_new; [intros; apply merge_file_no_new | intros; apply IH].
Qed.

(** The sources a merge has got through are gone. *)
Lemma merge_files_Ok_absent (names : list string) (m m' : gmap string string) (f f' : File)
    (w w' : world) :
  merge_files json_Unmarshal names m (f, w) = (Ok m', (f', w')) ->
  forall n, n ∈ names -> files w' !! n = None.
Proof.
  revert m f w. induction names as [| name names IH]; intros m f w H n Hn.
  - inversion Hn.
  - cbn [merge_files] in H. unfold io_bind in H.
    destruct (merge_file json_Unmarshal name m (f, w)) as [[m1 | e | msg] [f1 w1]] eqn:E;
      try discriminate.
    apply elem_of_cons in Hn as [-> | Hn].
    + pose proof (merge_files_no_new names m1 f1 w1) as Hnn. rewrite H in Hnn.
      apply Hnn. eapply merge_file_Ok_absent, E.
    + eapply IH; eassumption.
Qed.

Lemma mergeSSTFiles_Ok_absent (names : list string) (new : string) (w w' : world) :
  mergeSSTFiles json_Unmarshal range_order names new w = (Ok tt, w') ->
  forall n, n ∈ names -> files w' !! n = None.
Proof.
  unfold mergeSSTFiles, os_Create, with_file, io_bind, io_ret. intros H n Hn.
  destruct (merge_files json_Unmarshal names ∅ _) as [[m1 | e | msg] [f1 w1]] eqn:E;
    try discriminate.
  pose proof (write_merged_no_new (range_order m1) f1 w1) as Hnn.
  destruct (write_merged (range_order m1) (f1, w1)) as [r [f2 w2]].
  injection H as -> <-. apply Hnn. eapply merge_files_Ok_absent; eassumption.
Qed.

(** [compactSSTFiles] returns nil only when it had nothing to do. *)
Lemma compactSSTFiles_Ok_idle (max : Z) (w : world) :
  0 <= max ->
  fst (compactSSTFiles json_Unmarshal range_order max w) = Ok tt ->
  snd (compactSSTFiles json_Unmarshal range_order max w) = w /\
  exists names, getSSTFileNames w = Ok names /\ len names <= max.
Proof.
  intros Hmax. unfold compactSSTFiles.
  destruct (getSSTFileNames w) as [names | e | m]; try discriminate.
  destruct (Z.leb_spec (len names) max) as [Hle | Hgt]; [eauto |].
  pose proof (insertionSort_Permutation String.ltb names) as Hp.
  fold (sort_Strings names) in Hp.
  destruct (sort_Strings names) as [| first rest] eqn:Es.
  { apply Permutation_nil in Hp. subst names. unfold len in Hgt. simpl in Hgt. lia. }
  destruct (mergeSSTFiles json_Unmarshal range_order (first :: rest) _ w)
    as [[[] | e | m] w'] eqn:E; try discriminate.
  cbn [remove_all]. unfold os_Remove.
  rewrite (mergeSSTFiles_Ok_absent _ _ _ _ E first) by (apply elem_of_cons; now left).
  discriminate.
Qed.

(** X16.  A round of the compaction task goes on only when it had nothing
    to compact: whenever ./GO_PROJECT lists more than [maxSSTFiles]
    segments the round ends the process, through [log.Fatalf] or a panic.
    A merge that succeeds has removed its sources, so the loop of
    [compactSSTFiles] that removes them again fails on the first. *)
Theorem compaction_round_goes_on_only_when_idle (w : world) :
  fst (compaction_round json_Unmarshal range_order w) = GoesOn ->
  snd (compaction_round json_Unmarshal range_order w) = w /\
  exists names, getSSTFileNames w = Ok names /\ len names <= maxSSTFiles.
Proof.
  unfold compaction_round. intros H.
  pose proof (compactSSTFiles_Ok_idle maxSSTFiles w ltac:(unfold maxSSTFiles; lia)) as Hc.
  destruct (compactSSTFiles json_Unmarshal range_order maxSSTFiles w) as [[[] | e | m] w'];
    try discriminate.
  cbn [fst snd] in *. now apply Hc.
Qed.

End CompactionNeverCompletes.

Lemma compaction_round_goes_on_only_when_idle_witness :
  snd (compaction_round json_decode map_to_list quiet_world) = quiet_world /\
  exists names, getSSTFileNames quiet_world = Ok names /\ len names <= maxSSTFiles.
Proof.
  apply (compaction_round_goes_on_only_when_idle json_decode map_to_list quiet_world).
  reflexivity.
Defined.

Lemma set_files_same (w : world) : set_files (files w) w = w.
Proof. now destruct w. Qed.

Lemma remove_each_names (names : list string) (w : world) :
  remove_each names w = set_files (remove_names names (files w)) w.
Proof.
  revert w. induction names as [| name names IH]; intros w; cbn [remove_each].
  - unfold remove_names. cbn. now rewrite set_files_same.
  - rewrite IH. unfold os_Remove, remove_names. cbn [fold_left].
    destruct (files w !! name) eqn:E; cbn [snd].
    + reflexivity.
    + now rewrite (delete_id (files w) name E).
Qed.

(** X17.  A round of the five-minute task of main.go: when ./GO_PROJECT
    lists [maxSSTFiles] names ending in .sst or more, every one of them is
    removed from the working directory, nothing being merged or kept; the
    files it does not list are not touched.  With fewer names listed
    nothing is removed. *)
Theorem cleanup_round_removes_every_listed_segment (w : world) (names : list string) :
  getSSTFileNames w = Ok names ->
  cleanup_round w
  = (GoesOn, if maxSSTFiles <=? len names
             then set_files (remove_names names (files w)) w else w) /\
  (maxSSTFiles <= len names ->
   forall n, files (snd (cleanup_round w)) !! n = if decide (n ∈ names) then None else files w !! n).
Proof.
  intros Hn. unfold cleanup_round. rewrite Hn.
  destruct (Z.leb_spec maxSSTFiles (len names)) as [Hle | Hlt].
  - rewrite remove_each_names. split; [reflexivity |]. intros _ n. cbn.
    destruct (decide (n ∈ names)) as [Hin | Hnin].
    + now apply remove_names_lookup.
    + now apply remove_names_lookup_other.
  - split; [reflexivity | lia].
Qed.

Lemma cleanup_round_removes_every_listed_segment_witness :
  cleanup_round crowded_world
  = (GoesOn, if maxSSTFiles <=? len ["a.sst"; "b.sst"; "c.sst"; "d.sst"; "e.sst"; "f.sst";
                                     "g.sst"; "h.sst"; "i.sst"; "j.sst"]
             then set_files (remove_names ["a.sst"; "b.sst"; "c.sst"; "d.sst"; "e.sst"; "f.sst";
                                           "g.sst"; "h.sst"; "i.sst"; "j.sst"]
                               (files crowded_world)) crowded_world
             else crowded_world) /\
  (maxSSTFiles <= len ["a.sst"; "b.sst"; "c.sst"; "d.sst"; "e.sst"; "f.sst";
                       "g.sst"; "h.sst"; "i.sst"; "j.sst"] ->
   forall n, files (snd (cleanup_round crowded_world)) !! n
             = if decide (n ∈ ["a.sst"; "b.sst"; "c.sst"; "d.sst"; "e.sst"; "f.sst";
                               "g.sst"; "h.sst"; "i.sst"; "j.sst"])
               then None else files crowded_world !! n).
Proof.
  apply (cleanup_round_removes_every_listed_segment crowded_world).
  reflexivity.
Defined.

(* --------------------------------------------------------------------- *)
(** ** Shutdown *)
(* --------------------------------------------------------------------- *)

Lemma len_repeat {A} (x : A) (n : nat) : len (repeat x n) = Z.of_nat n.
Proof. unfold len. now rewrite repeat_length. Qed.

Lemma len_filled_takeZ (n : Z) (c : list byte) : 0 <= n -> len (filled n (takeZ n c)) = n.
Proof.
  intros Hn. unfold filled. rewrite len_app, len_repeat, takeZ_take.
  unfold len. rewrite length_take. lia.
Qed.

(** X18.  The end of main.go on a store with live entries, an open log
    and room on the device: the entries are written, sorted, to the
    segment of the current second and [mem.data] is emptied; then the log
    is cut to its first [watermarkPosition] bytes, or extended with zero
    bytes when it is shorter, whatever records it holds, so that it is
    exactly [watermarkPosition] bytes long; [wal.file] is left closed. *)
Theorem shutdown_writes_a_segment_and_cuts_the_log
    (watermarkPosition : Z) (mem : memDB) (w : world) (l : WriteAheadLog) (c : list byte) :
  data mem <> [] -> quota w = None ->
  wal mem = Some l -> file_closed (file l) = false ->
  files w !! file_name (file l) = Some c ->
  file_name (file l) <> sstFileName (now w) ->
  0 <= watermarkPosition ->
  let log' := filled watermarkPosition (takeZ watermarkPosition c) in
  shutdown watermarkPosition mem w
  = (GoesOn,
     (set_wal (Some (mkWAL (mkFile (file_name (file l)) (len log') false true) (watermark l)))
        (set_data [] mem),
      set_files (<[file_name (file l) := log']>
                   (<[sstFileName (now w) := segment_image (sort_Slice_byKey (data mem))]>
                      (files w))) w)) /\
  len log' = watermarkPosition.
Proof.
  intros Hd Hq Hl Hc Hf Hne Hpos. cbv zeta. split; [| now apply len_filled_takeZ].
  unfold shutdown. rewrite memDB_createSSTFile_ok by assumption.
  cbn [wal set_data]. rewrite Hl. unfold WAL_CleanupAfterSSTCreation. rewrite Hc.
  unfold set_files at 1. cbn [files]. rewrite lookup_insert_ne by congruence. rewrite Hf.
  destruct (Z.ltb_spec watermarkPosition 0) as [? | _]; [lia |].
  reflexivity.
Qed.

Lemma shutdown_writes_a_segment_and_cuts_the_log_witness :
  let s := after_Sets [(bytes "k2", bytes "v2"); (bytes "k1", bytes "v1")] sample_store in
  let c := log_records [(OpSet, k2v2); (OpSet, k1v1)] in
  let log' := filled 5 (takeZ 5 c) in
  shutdown 5 (fst s) (snd s)
  = (GoesOn,
     (set_wal (Some (mkWAL (mkFile (file_name (file (mkWAL (mkFile "newal.log" 18 true false) 0)))
                              (len log') false true)
                       (watermark (mkWAL (mkFile "newal.log" 18 true false) 0))))
        (set_data [] (fst s)),
      set_files (<[file_name (file (mkWAL (mkFile "newal.log" 18 true false) 0)) := log']>
                   (<[sstFileName (now (snd s)) := segment_image (sort_Slice_byKey (data (fst s)))]>
                      (files (snd s)))) (snd s))) /\
  len log' = 5.
Proof.
  intros s c.
  apply (shutdown_writes_a_segment_and_cuts_the_log 5 (fst s) (snd s)
           (mkWAL (mkFile "newal.log" 18 true false) 0) c).
  - vm_compute. discriminate.
  - vm_compute. reflexivity.
  - vm_compute. reflexivity.
  - reflexivity.
  - vm_compute. reflexivity.
  - vm_compute. discriminate.
  - lia.
Defined.

(* --------------------------------------------------------------------- *)
(** ** A flush that fails *)
(* --------------------------------------------------------------------- *)

(** X19.  A [createSSTFile] that does not return nil loses no entry:
    [mem.data] then holds the entries it held before, each as often,
    sorted by key. *)
Theorem createSSTFile_failure_keeps_the_entries (mem : memDB) (w : world) :
  fst (memDB_createSSTFile mem w) <> Ok tt ->
  let mem' := fst (snd (memDB_createSSTFile mem w)) in
  Permutation (data mem') (data mem) /\ StronglySorted key_le (data mem').
Proof.
  intros H. cbv zeta.
  destruct (createSSTFile_error_keeps_entries mem w H) as [Hs Hp].
  split; [exact Hp |]. rewrite Hs. apply sort_Slice_byKey_sorted.
Qed.

Lemma createSSTFile_failure_keeps_the_entries_witness :
  let w := set_quota (Some 2%nat) sample_world in
  let mem' := fst (snd (memDB_createSSTFile test_memDB w)) in
  Permutation (data mem') (data test_memDB) /\ StronglySorted key_le (data mem').
Proof.
  intros w.
  apply (createSSTFile_failure_keeps_the_entries test_memDB w).
  vm_compute. discriminate.
Defined.

(* --------------------------------------------------------------------- *)
(** ** Get through a segment *)
(* --------------------------------------------------------------------- *)

Lemma search_as_loaded (k : list byte) (d : list KeyValue) :
  search k (map as_loaded d) = search k d.
Proof.
  induction d as [| kv d IH]; [reflexivity |].
  cbn [map search as_loaded Key Value]. now rewrite IH.
Qed.

(** X20.  [Get] of a key that is not live, on a store that has loaded no
    segment, when the working directory holds a segment of the layout
    [loadSSTFile] reads under the name of the current second: the entries
    of the segment are appended to [mem.data], the segment counts as
    loaded, and the answer is the value of the first entry of the segment
    with that key, or "key not found" when it has none. *)
Theorem Get_answers_from_a_loadable_segment
    (k : list byte) (mem : memDB) (w : world) (d : list KeyValue) :
  search k (data mem) = None ->
  sstFileLoaded mem = false ->
  files w !! sstFileName (now w) = Some (loadable_image (data mem) d) ->
  len (loadable_image (data mem) d) <= defaultBufSize ->
  memDB_Get k mem w
  = (match search k d with
     | Some v => Ok v
     | None => Err ErrKeyNotFound
     end,
     set_sstFileLoaded true (set_data (data mem ++ map as_loaded d) mem)).
Proof.
  intros Hs Hl Hf Hlen. unfold memDB_Get, memDB_loadSSTFile. rewrite Hs, Hl, Hf. cbn [negb].
  destruct (loadable_image_read (data mem) d Hlen) as (H4 & Hd & Hc).
  rewrite H4. cbv zeta. rewrite Hd. cbn [data set_data]. rewrite Hc, Z.eqb_refl.
  cbn [negb data set_data set_sstFileLoaded].
  rewrite search_app, Hs, search_as_loaded.
  now destruct (search k d).
Qed.

Lemma Get_answers_from_a_loadable_segment_witness :
  memDB_Get (bytes "k2") empty_memDB loadable_world
  = (match search (bytes "k2") [k1v1; k2v2] with
     | Some v => Ok v
     | None => Err ErrKeyNotFound
     end,
     set_sstFileLoaded true
       (set_data (data empty_memDB ++ map as_loaded [k1v1; k2v2]) empty_memDB)).
Proof.
  apply (Get_answers_from_a_loadable_segment (bytes "k2") empty_memDB loadable_world
           [k1v1; k2v2]).
  - reflexivity.
  - reflexivity.
  - reflexivity.
  - vm_compute. discriminate.
Defined.

(** X21.  [Get] of a key that is not live, on a store that has loaded no
    segment, when there is no file file_<seconds>.sst for the current
    second: the error is that of the failed open, not "key not found", the
    store is unchanged, and the handler of /get answers 404 with the text
    of that error. *)
Theorem Get_without_a_segment_reports_the_missing_file
    (Error_text : error -> string) (json_Marshal : list (string * string) -> list byte)
    (key : string) (mem : memDB) (w : world) :
  key <> "" ->
  search (list_byte_of_string key) (data mem) = None ->
  sstFileLoaded mem = false ->
  files w !! sstFileName (now w) = None ->
  memDB_Get (list_byte_of_string key) mem w = (Err (ErrNotExist (sstFileName (now w))), mem) /\
  handle_get Error_text json_Marshal key mem w
  = (Some (http_Error (Error_text (ErrNotExist (sstFileName (now w)))) StatusNotFound),
     (mem, w)).
Proof.
  intros Hk Hs Hl Hf.
  assert (E : memDB_Get (list_byte_of_string key) mem w
              = (Err (ErrNotExist (sstFileName (now w))), mem)).
  { unfold memDB_Get, memDB_loadSSTFile. now rewrite Hs, Hl, Hf. }
  split; [exact E |]. unfold handle_get. rewrite E.
  destruct (String.eqb_spec key ""); [contradiction | reflexivity].
Qed.

Lemma Get_without_a_segment_reports_the_missing_file_witness :
  memDB_Get (list_byte_of_string "k") (fst sample_store) (snd sample_store)
  = (Err (ErrNotExist (sstFileName (now (snd sample_store)))), fst sample_store) /\
  handle_get (fun _ => "error") (fun _ => []) "k" (fst sample_store) (snd sample_store)
  = (Some (http_Error ((fun _ => "error") (ErrNotExist (sstFileName (now (snd sample_store)))))
             StatusNotFound),
     (fst sample_store, snd sample_store)).
Proof.
  apply (Get_without_a_segment_reports_the_missing_file (fun _ => "error") (fun _ => []) "k"
           (fst sample_store) (snd sample_store)).
  - discriminate.
  - reflexivity.
  - reflexivity.
  - reflexivity.
Defined.

(* --------------------------------------------------------------------- *)
(** ** The handler of /del *)
(* --------------------------------------------------------------------- *)

(** X22.  The handler of /del on a store made by [NewMemDB], for a key
    that is not empty: 200 with the key and the removed value when the key
    is live, the store being left as [Del] leaves it; 404 with the text
    of "key doesn't exist" otherwise, the store and the files unchanged.
    It never panics. *)
Theorem del_handler_answers_200_or_404
    (Error_text : error -> string) (json_Marshal : list (string * string) -> list byte)
    (key : string) (mem : memDB) (w : world) :
  reachable (mem, w) -> key <> "" ->
  handle_del Error_text json_Marshal key mem w
  = match search (list_byte_of_string key) (data mem) with
    | Some v =>
        (Some (mkResponse StatusOK
                 (json_Marshal [("key", key); ("deleted_value", string_of_list_byte v)])),
         after_Del (list_byte_of_string key) (mem, w))
    | None => (Some (http_Error (Error_text ErrKeyDoesNotExist) StatusNotFound), (mem, w))
    end.
Proof.
  intros (l & w0 & Hr) Hk.
  destruct (reaches_invariant _ _ Hr eq_refl eq_refl) as (_ & _ & H3 & _); [discriminate |].
  cbn [fst] in H3. destruct (wal mem) as [l' |] eqn:Hl; [| contradiction].
  unfold handle_del, after_Del. cbn [fst snd].
  destruct (String.eqb_spec key ""); [contradiction |].
  pose proof (memDB_Del_result (list_byte_of_string key) mem w l' Hl) as H.
  destruct (search (list_byte_of_string key) (data mem)) as [v |].
  - destruct (memDB_Del (list_byte_of_string key) mem w) as [r s]. cbn [fst snd] in *.
    subst r. reflexivity.
  - now rewrite H.
Qed.

Lemma del_handler_answers_200_or_404_witness :
  let s := after_call (CallSet (bytes "k1") (bytes "v1")) sample_store in
  handle_del (fun _ => "error") (fun _ => []) "k1" (fst s) (snd s)
  = match search (list_byte_of_string "k1") (data (fst s)) with
    | Some v =>
        (Some (mkResponse StatusOK
                 ((fun _ => []) [("key", "k1"); ("deleted_value", string_of_list_byte v)])),
         after_Del (list_byte_of_string "k1") (fst s, snd s))
    | None => (Some (http_Error ((fun _ => "error") ErrKeyDoesNotExist) StatusNotFound),
               (fst s, snd s))
    end.
Proof.
  intros s.
  apply (del_handler_answers_200_or_404 (fun _ => "error") (fun _ => []) "k1" (fst s) (snd s)).
  - exists (mkWAL (mkFile "newal.log" 0 true false) 0), (snd sample_store).
    replace (fst s, snd s) with s by (now destruct s).
    apply reaches_call. apply reaches_here.
  - discriminate.
Defined.

(* --------------------------------------------------------------------- *)
(** ** Opening a store on an old log *)
(* --------------------------------------------------------------------- *)

(** X23.  A store opened on an existing log replays nothing and appends
    after what the log holds: [NewWriteAheadLog] keeps the bytes of the
    file, or creates it empty, [NewMemDB] starts with no entry, and after
    a run of [Set] calls [mem.data] holds the entries of these calls only
    while the log holds its old bytes followed by their records; no other
    file is changed. *)
Theorem a_new_store_appends_to_the_old_log_and_replays_nothing
    (filePath : string) (w : world) (kvs : list (list byte * list byte)) :
  quota w = None ->
  let s := after_Sets kvs (NewMemDB (fst (NewWriteAheadLog filePath w)),
                           snd (NewWriteAheadLog filePath w)) in
  log_content s
  = Some (default [] (files w !! filePath)
          ++ log_records (map (fun kv => (OpSet, mkKV (fst kv) (snd kv) OpSet)) kvs)) /\
  data (fst s) = map (fun kv => mkKV (fst kv) (snd kv) OpSet) kvs /\
  (forall n, n <> filePath -> files (snd s) !! n = files w !! n).
Proof.
  intros Hq. cbv zeta.
  destruct (after_Sets_logged kvs
              (NewMemDB (fst (NewWriteAheadLog filePath w))) (snd (NewWriteAheadLog filePath w))
              (fst (NewWriteAheadLog filePath w))
              (default [] (files w !! filePath))) as (l' & H1 & H2 & _ & _ & H5 & H6);
    try reflexivity.
  - unfold NewWriteAheadLog. cbn [fst snd file file_name].
    destruct (files w !! filePath) as [c |] eqn:E; cbn [default].
    + exact E.
    + unfold set_files. cbn [files]. apply lookup_insert_eq.
  - unfold NewWriteAheadLog. cbn [snd]. now destruct (files w !! filePath).
  - unfold log_content. rewrite H1, H2, H5, H6.
    unfold NewWriteAheadLog, set_files. cbn [fst snd file file_name files NewMemDB data app].
    split; [apply lookup_insert_eq |]. split; [reflexivity |].
    intros n Hn. rewrite lookup_insert_ne by congruence.
    destruct (files w !! filePath) eqn:E; [reflexivity |].
    cbn [files]. now rewrite lookup_insert_ne by congruence.
Qed.

Lemma a_new_store_appends_to_the_old_log_and_replays_nothing_witness :
  let w := snd (after_Sets [(bytes "k1", bytes "v1")] sample_store) in
  let s := after_Sets [(bytes "k2", bytes "v2")]
             (NewMemDB (fst (NewWriteAheadLog "newal.log" w)),
              snd (NewWriteAheadLog "newal.log" w)) in
  log_content s
  = Some (default [] (files w !! "newal.log")
          ++ log_records (map (fun kv => (OpSet, mkKV (fst kv) (snd kv) OpSet))
                            [(bytes "k2", bytes "v2")])) /\
  data (fst s) = map (fun kv => mkKV (fst kv) (snd kv) OpSet) [(bytes "k2", bytes "v2")] /\
  (forall n, n <> "newal.log" -> files (snd s) !! n = files w !! n).
Proof.
  intros w.
  apply (a_new_store_appends_to_the_old_log_and_replays_nothing "newal.log" w
           [(bytes "k2", bytes "v2")]).
  vm_compute. reflexivity.
Defined.
